(** * ULID: a shallow embedding of the Go package [ulid]

    The 16-byte identifier, its Crockford base32 text codec, the ordering,
    the timestamp accessors and the monotonic entropy reader, modelled as
    Rocq functions over byte lists.  Bytes and machine integers are values
    of [Z]; every wrap-around of the Go code is written out.

    A method with a pointer receiver returns the receiver's new value next to
    its error; a function that writes into a caller's buffer takes the buffer
    and returns it as the call left it.  An [io.Reader] is a type with a
    [Read] of that shape, and the loop of [io.ReadFull] runs on fuel.  The
    interning handle, the string cache, the wall clock and the bit-counting
    helpers play no part in the properties below and are left out. *)

From Stdlib Require Import Ascii String ZArith List Bool Lia Sorted.
Import ListNotations.
Open Scope Z_scope.

(** ** Bytes, slices and the error values *)

Definition is_byte (b : Z) : Prop := 0 <= b < 256.
Definition bytes (l : list Z) : Prop := Forall is_byte l.

(** Operators of Go's [uint8]: only the left shift can leave the range. *)
Definition shl8 (a n : Z) : Z := (Z.shiftl a n) mod 256.

Notation "a :& b" := (Z.land a b) (at level 40, left associativity).
Notation "a :| b" := (Z.lor a b) (at level 50, left associativity).
Notation "a :<< n" := (shl8 a n) (at level 35, no associativity).
Notation "a :>> n" := (Z.shiftr a n) (at level 35, no associativity).
Notation "a .[ i ]" := (nth i%nat a 0) (at level 1, left associativity,
                                       format "a .[ i ]").

(** The character literal ['c'] as a byte. *)
Definition chr (c : ascii) : Z := Z.of_N (N_of_ascii c).

Definition len (l : list Z) : Z := Z.of_nat (length l).

(** Go's builtin [copy(dst, src)]: the first [min(len dst, len src)] bytes of
    [src] land in [dst]; overlapping slices behave as if [src] were read
    first. *)
Definition copy (dst src : list Z) : list Z :=
  let n := Nat.min (length dst) (length src) in
  firstn n src ++ skipn n dst.

Inductive error : Type :=
| ErrDataSize
| ErrInvalidCharacters
| ErrBufferSize
| ErrBigTime
| ErrOverflow
| ErrMonotonicOverflow
| ErrScanValue
| EOF
| ErrUnexpectedEOF.

Definition EncodedSize : Z := 26.
Definition RawSize : Z := 16.
Definition MaxUint64 : Z := 2 ^ 64 - 1.
Definition MaxTime : Z := MaxUint64 :>> 16.

(** ** The identifier *)

(** [type ULID [16]byte]: the byte list, with its length and byte range kept
    apart in [wf_ULID]. *)
Definition ULID : Type := list Z.

(** The zero value [ULID{}]. *)
Definition Nil : ULID := repeat 0 16.

Definition wf_ULID (id : ULID) : Prop := length id = 16%nat /\ bytes id.

(** ** Crockford base32 tables *)

Definition enc : list Z := map chr
  [ "0"; "1"; "2"; "3"; "4"; "5"; "6"; "7"; "8"; "9";
    "A"; "B"; "C"; "D"; "E"; "F"; "G"; "H"; "J"; "K";
    "M"; "N"; "P"; "Q"; "R"; "S"; "T"; "V"; "W"; "X";
    "Y"; "Z" ]%char.

Definition dec : list Z :=
  [ 0xFF; 0xFF; 0xFF; 0xFF; 0xFF; 0xFF; 0xFF; 0xFF;
    0xFF; 0xFF; 0xFF; 0xFF; 0xFF; 0xFF; 0xFF; 0xFF;
    0xFF; 0xFF; 0xFF; 0xFF; 0xFF; 0xFF; 0xFF; 0xFF;
    0xFF; 0xFF; 0xFF; 0xFF; 0xFF; 0xFF; 0xFF; 0xFF;

    0xFF; 0xFF; 0xFF; 0xFF; 0xFF; 0xFF; 0xFF; 0xFF;
    0xFF; 0xFF; 0xFF; 0xFF; 0xFF; 0xFF; 0xFF; 0xFF;
    0x00; 0x01; 0x02; 0x03; 0x04; 0x05; 0x06; 0x07;
    0x08; 0x09; 0xFF; 0xFF; 0xFF; 0xFF; 0xFF; 0xFF;

    0xFF; 0x0A; 0x0B; 0x0C; 0x0D; 0x0E; 0x0F; 0x10;
    0x11; 0xFF; 0x12; 0x13; 0xFF; 0x14; 0x15; 0xFF;
    0x16; 0x17; 0x18; 0x19; 0x1A; 0xFF; 0x1B; 0x1C;
    0x1D; 0x1E; 0x1F; 0xFF; 0xFF; 0xFF; 0xFF; 0xFF;

    0xFF; 0x0A; 0x0B; 0x0C; 0x0D; 0x0E; 0x0F; 0x10;
    0x11; 0xFF; 0x12; 0x13; 0xFF; 0x14; 0x15; 0xFF;
    0x16; 0x17; 0x18; 0x19; 0x1A; 0xFF; 0x1B; 0x1C;
    0x1D; 0x1E; 0x1F; 0xFF; 0xFF; 0xFF; 0xFF; 0xFF;

    0xFF; 0xFF; 0xFF; 0xFF; 0xFF; 0xFF; 0xFF; 0xFF;
    0xFF; 0xFF; 0xFF; 0xFF; 0xFF; 0xFF; 0xFF; 0xFF;
    0xFF; 0xFF; 0xFF; 0xFF; 0xFF; 0xFF; 0xFF; 0xFF;
    0xFF; 0xFF; 0xFF; 0xFF; 0xFF; 0xFF; 0xFF; 0xFF;

    0xFF; 0xFF; 0xFF; 0xFF; 0xFF; 0xFF; 0xFF; 0xFF;
    0xFF; 0xFF; 0xFF; 0xFF; 0xFF; 0xFF; 0xFF; 0xFF;
    0xFF; 0xFF; 0xFF; 0xFF; 0xFF; 0xFF; 0xFF; 0xFF;
    0xFF; 0xFF; 0xFF; 0xFF; 0xFF; 0xFF; 0xFF; 0xFF;

    0xFF; 0xFF; 0xFF; 0xFF; 0xFF; 0xFF; 0xFF; 0xFF;
    0xFF; 0xFF; 0xFF; 0xFF; 0xFF; 0xFF; 0xFF; 0xFF;
    0xFF; 0xFF; 0xFF; 0xFF; 0xFF; 0xFF; 0xFF; 0xFF;
    0xFF; 0xFF; 0xFF; 0xFF; 0xFF; 0xFF; 0xFF; 0xFF;

    0xFF; 0xFF; 0xFF; 0xFF; 0xFF; 0xFF; 0xFF; 0xFF;
    0xFF; 0xFF; 0xFF; 0xFF; 0xFF; 0xFF; 0xFF; 0xFF;
    0xFF; 0xFF; 0xFF; 0xFF; 0xFF; 0xFF; 0xFF; 0xFF;
    0xFF; 0xFF; 0xFF; 0xFF; 0xFF; 0xFF; 0xFF; 0xFF ].

(** [enc[x]] and [dec[c]]: array indexing by a byte value. *)
Definition enc_at (x : Z) : Z := nth (Z.to_nat x) enc 0.
Definition dec_at (c : Z) : Z := nth (Z.to_nat c) dec 0xFF.

(** ** Text encoding *)

Definition MarshalTextTo (id : ULID) (dst : list Z) : list Z * option error :=
  if negb (len dst =? EncodedSize) then (dst, Some ErrBufferSize)
  else
    ([ (* 10 byte timestamp *)
       enc_at ((id.[0] :& 224) :>> 5);
       enc_at (id.[0] :& 31);
       enc_at ((id.[1] :& 248) :>> 3);
       enc_at (((id.[1] :& 7) :<< 2) :| ((id.[2] :& 192) :>> 6));
       enc_at ((id.[2] :& 62) :>> 1);
       enc_at (((id.[2] :& 1) :<< 4) :| ((id.[3] :& 240) :>> 4));
       enc_at (((id.[3] :& 15) :<< 1) :| ((id.[4] :& 128) :>> 7));
       enc_at ((id.[4] :& 124) :>> 2);
       enc_at (((id.[4] :& 3) :<< 3) :| ((id.[5] :& 224) :>> 5));
       enc_at (id.[5] :& 31);
       (* 16 bytes of entropy *)
       enc_at ((id.[6] :& 248) :>> 3);
       enc_at (((id.[6] :& 7) :<< 2) :| ((id.[7] :& 192) :>> 6));
       enc_at ((id.[7] :& 62) :>> 1);
       enc_at (((id.[7] :& 1) :<< 4) :| ((id.[8] :& 240) :>> 4));
       enc_at (((id.[8] :& 15) :<< 1) :| ((id.[9] :& 128) :>> 7));
       enc_at ((id.[9] :& 124) :>> 2);
       enc_at (((id.[9] :& 3) :<< 3) :| ((id.[10] :& 224) :>> 5));
       enc_at (id.[10] :& 31);
       enc_at ((id.[11] :& 248) :>> 3);
       enc_at (((id.[11] :& 7) :<< 2) :| ((id.[12] :& 192) :>> 6));
       enc_at ((id.[12] :& 62) :>> 1);
       enc_at (((id.[12] :& 1) :<< 4) :| ((id.[13] :& 240) :>> 4));
       enc_at (((id.[13] :& 15) :<< 1) :| ((id.[14] :& 128) :>> 7));
       enc_at ((id.[14] :& 124) :>> 2);
       enc_at (((id.[14] :& 3) :<< 3) :| ((id.[15] :& 224) :>> 5));
       enc_at (id.[15] :& 31) ],
     None).

(** [MarshalText]: a fresh 26-byte buffer handed to [MarshalTextTo]. *)
Definition MarshalText (id : ULID) : list Z * option error :=
  MarshalTextTo id (repeat 0 (Z.to_nat EncodedSize)).

(** ** Text decoding *)

(** The strict pass: [for _, c := range v] stopping at the first byte that
    the reverse table marks invalid. *)
Fixpoint strict_scan (v : list Z) : bool :=
  match v with
  | [] => false
  | c :: rest => if dec_at c =? 0xFF then true else strict_scan rest
  end.

Definition parse (v : list Z) (strict : bool) : ULID * option error :=
  if negb (len v =? EncodedSize) then (Nil, Some ErrDataSize)
  else if (dec_at v.[0] =? 0xFF) ||
          (dec_at v.[1] =? 0xFF) ||
          (dec_at v.[2] =? 0xFF) ||
          (dec_at v.[3] =? 0xFF) ||
          (dec_at v.[4] =? 0xFF) ||
          (dec_at v.[5] =? 0xFF) ||
          (dec_at v.[6] =? 0xFF) ||
          (dec_at v.[7] =? 0xFF) ||
          (dec_at v.[8] =? 0xFF) ||
          (dec_at v.[9] =? 0xFF)
  then (Nil, Some ErrInvalidCharacters)
  else if v.[0] >? chr "7" then (Nil, Some ErrOverflow)
  else
    let id : ULID :=
      [ (dec_at v.[0] :<< 5) :| dec_at v.[1];
        (dec_at v.[2] :<< 3) :| (dec_at v.[3] :>> 2);
        (dec_at v.[3] :<< 6) :| (dec_at v.[4] :<< 1) :| (dec_at v.[5] :>> 4);
        (dec_at v.[5] :<< 4) :| (dec_at v.[6] :>> 1);
        (dec_at v.[6] :<< 7) :| (dec_at v.[7] :<< 2) :| (dec_at v.[8] :>> 3);
        (dec_at v.[8] :<< 5) :| dec_at v.[9];
        (dec_at v.[10] :<< 3) :| (dec_at v.[11] :>> 2);
        (dec_at v.[11] :<< 6) :| (dec_at v.[12] :<< 1) :| (dec_at v.[13] :>> 4);
        (dec_at v.[13] :<< 4) :| (dec_at v.[14] :>> 1);
        (dec_at v.[14] :<< 7) :| (dec_at v.[15] :<< 2) :| (dec_at v.[16] :>> 3);
        (dec_at v.[16] :<< 5) :| dec_at v.[17];
        (dec_at v.[18] :<< 3) :| (dec_at v.[19] :>> 2);
        (dec_at v.[19] :<< 6) :| (dec_at v.[20] :<< 1) :| (dec_at v.[21] :>> 4);
        (dec_at v.[21] :<< 4) :| (dec_at v.[22] :>> 1);
        (dec_at v.[22] :<< 7) :| (dec_at v.[23] :<< 2) :| (dec_at v.[24] :>> 3);
        (dec_at v.[24] :<< 5) :| dec_at v.[25] ] in
    if strict && strict_scan v then (id, Some ErrInvalidCharacters)
    else (id, None).

Definition Parse (s : list Z) : ULID * option error := parse s false.
Definition ParseStrict (s : list Z) : ULID * option error := parse s true.

(** A string literal as the bytes Go would see. *)
Definition str (s : string) : list Z := map chr (list_ascii_of_string s).


(** [UnmarshalText]: the receiver is assigned only after a successful parse. *)
Definition UnmarshalText (id : ULID) (v : list Z) : ULID * option error :=
  let '(ulid, err) := parse v false in
  match err with
  | Some e => (id, Some e)
  | None => (ulid, None)
  end.

(** ** Binary encoding *)

Definition MarshalBinaryTo (id : ULID) (dst : list Z) : list Z * option error :=
  if negb (len dst =? RawSize) then (dst, Some ErrBufferSize)
  else (copy dst id, None).

Definition MarshalBinary (id : ULID) : list Z * option error :=
  MarshalBinaryTo id (repeat 0 (Z.to_nat RawSize)).

Definition UnmarshalBinary (id : ULID) (data : list Z) : ULID * option error :=
  if negb (len data =? RawSize) then (id, Some ErrDataSize)
  else (copy id data, None).

(** ** encoding/binary, big endian *)

(** The conversion [byte(x)] of an unsigned integer. *)
Definition byte_of (x : Z) : Z := x mod 256.

Definition u64 (x : Z) : Z := x mod 2 ^ 64.

Definition BigEndian_Uint64 (b : list Z) : Z :=
  b.[7] :| Z.shiftl b.[6] 8 :| Z.shiftl b.[5] 16 :| Z.shiftl b.[4] 24 :|
  Z.shiftl b.[3] 32 :| Z.shiftl b.[2] 40 :| Z.shiftl b.[1] 48 :|
  Z.shiftl b.[0] 56.

Definition BigEndian_PutUint64 (b : list Z) (v : Z) : list Z :=
  [ byte_of (v :>> 56); byte_of (v :>> 48); byte_of (v :>> 40);
    byte_of (v :>> 32); byte_of (v :>> 24); byte_of (v :>> 16);
    byte_of (v :>> 8); byte_of v ] ++ skipn 8 b.

(** ** Timestamp and entropy accessors *)

Definition Time (id : ULID) : Z := BigEndian_Uint64 (firstn 8 id) :>> 16.

(** [PutUint64] writes through the slice [id[:8]], that is into the first
    eight bytes of the receiver. *)
Definition SetTime (id : ULID) (ms : Z) : ULID * option error :=
  if ms >? MaxTime then (id, Some ErrBigTime)
  else (BigEndian_PutUint64 (firstn 8 id) (u64 (Z.shiftl ms 16)) ++ skipn 8 id,
        None).

Definition Entropy (id : ULID) : list Z := copy (repeat 0 10) (skipn 6 id).

Definition SetEntropy (id : ULID) (e : list Z) : ULID * option error :=
  if negb (len e =? 10) then (id, Some ErrDataSize)
  else (firstn 6 id ++ copy (skipn 6 id) e, None).

(** ** Ordering *)

(** The body of [for i := 0; i < RawSize; i++], run over the indices left. *)
Fixpoint Compare_loop (idx : list nat) (id other : ULID) : Z :=
  match idx with
  | [] => 0
  | i :: rest =>
      if nth i id 0 <? nth i other 0 then -1
      else if nth i id 0 >? nth i other 0 then 1
      else Compare_loop rest id other
  end.

Definition Compare (id other : ULID) : Z :=
  Compare_loop (seq 0 (Z.to_nat RawSize)) id other.

Definition Less (id other : ULID) : bool := Compare id other <? 0.
Definition Greater (id other : ULID) : bool := Compare id other >? 0.

(** Go compares strings byte by byte; a proper prefix is the smaller one. *)
Fixpoint string_compare (s t : list Z) : comparison :=
  match s, t with
  | [], [] => Eq
  | [], _ :: _ => Lt
  | _ :: _, [] => Gt
  | a :: s', b :: t' =>
      match a ?= b with
      | Eq => string_compare s' t'
      | c => c
      end
  end.

(** The identifier read as one big-endian unsigned integer. *)
Definition be_value (base : Z) (l : list Z) : Z :=
  fold_left (fun acc d => acc * base + d) l 0.

Definition uint128 (id : ULID) : Z := be_value 256 id.

(** ** SQL and JSON adapters *)

Inductive scan_src : Type :=
| SrcNil
| SrcString (x : list Z)
| SrcBytes (x : list Z)
| SrcOther.

Definition Scan (id : ULID) (src : scan_src) : ULID * option error :=
  match src with
  | SrcNil => (id, None)
  | SrcString x => UnmarshalText id x
  | SrcBytes x => UnmarshalText id x
  | SrcOther => (id, Some ErrScanValue)
  end.

(** The double-quote byte. *)
Definition dquote : Z := 34.

Definition MarshalJSON (id : ULID) : list Z * option error :=
  let res := repeat 0 28 in
  let res := dquote :: skipn 1 res in
  let res := firstn 1 res ++ fst (MarshalTextTo id (firstn 26 (skipn 1 res)))
                          ++ skipn 27 res in
  let res := firstn 27 res ++ dquote :: skipn 28 res in
  (res, None).

Definition UnmarshalJSON (id : ULID) (data : list Z) : ULID * option error :=
  if negb (len data =? 28) || negb (data.[0] =? dquote)
     || negb (data.[27] =? dquote)
  then (id, Some ErrDataSize)
  else UnmarshalText id (firstn 26 (skipn 1 data)).

(** ** Entropy sources *)

(** [io.Reader]: [Read r p] returns the reader afterwards, the buffer as the
    call left it, the count and the error; [None] stands for a call that does
    not return. *)
Class Reader (R : Type) : Type :=
  Read : R -> list Z -> option (R * list Z * Z * option error).

(** [bytes.Reader], the byte-slice source of the test suite: the state is the
    unread rest of the slice. *)
Definition sliceReader : Type := list Z.

#[export] Instance sliceReader_Reader : Reader sliceReader :=
  fun s p =>
    match s with
    | [] => Some (s, p, 0, Some EOF)
    | _ :: _ =>
        let n := Nat.min (length p) (length s) in
        Some (skipn n s, copy p s, Z.of_nat n, None)
    end.

Section Sources.
Context {R : Type} `{Reader R}.

(** The loop of [io.ReadAtLeast] with [min = len(buf)]; [fuel] bounds the
    number of [Read] calls. *)
Fixpoint ReadAtLeast_loop (fuel : nat) (r : R) (buf : list Z) (n : Z)
  : option (R * list Z * Z * option error) :=
  if n <? len buf then
    match fuel with
    | O => None
    | S fuel' =>
        match Read r (skipn (Z.to_nat n) buf) with
        | None => None
        | Some (r', tl, nn, err) =>
            let buf' := firstn (Z.to_nat n) buf ++ tl in
            match err with
            | None => ReadAtLeast_loop fuel' r' buf' (n + nn)
            | Some e => Some (r', buf', n + nn, Some e)
            end
        end
    end
  else Some (r, buf, n, None).

Definition ReadFull (fuel : nat) (r : R) (buf : list Z)
  : option (R * list Z * Z * option error) :=
  match ReadAtLeast_loop fuel r buf 0 with
  | None => None
  | Some (r', buf', n, err) =>
      let err' :=
        if n >=? len buf then None
        else match err with
             | Some EOF => if n >? 0 then Some ErrUnexpectedEOF else Some EOF
             | e => e
             end in
      Some (r', buf', n, err')
  end.

(** [binary.Read(r, binary.BigEndian, &x)] for a [uint64]: the value read,
    or the error with [x] untouched. *)
Definition binary_Read_uint64 (fuel : nat) (r : R) : option (R * (Z + error)) :=
  match ReadFull fuel r (repeat 0 8) with
  | None => None
  | Some (r', bs, _, Some e) => Some (r', inr e)
  | Some (r', bs, _, None) => Some (r', inl (BigEndian_Uint64 bs))
  end.

(** [New]: both entropy paths fill [id[6:]] from a reader or give up with
    the zero identifier. *)
Definition New (fuel : nat) (ms : Z) (entropy : R)
  : option (R * ULID * option error) :=
  if ms >? MaxTime then Some (entropy, Nil, Some ErrBigTime)
  else
    let id : ULID :=
      [ byte_of (ms :>> 40); byte_of (ms :>> 32); byte_of (ms :>> 24);
        byte_of (ms :>> 16); byte_of (ms :>> 8); byte_of ms ]
      ++ repeat 0 10 in
    match ReadFull fuel entropy (skipn 6 id) with
    | None => None
    | Some (r', _, _, Some e) => Some (r', Nil, Some e)
    | Some (r', tl, _, None) => Some (r', firstn 6 id ++ tl, None)
    end.

(** *** The monotonic reader *)

Record monoReader : Type := mkMono {
  mReader : R;
  m_ms : Z;
  m_inc : Z;
  m_rand : Z
}.

(** [MonotonicReader]: the seed is read once; a failing read panics, which
    is the error returned here. *)
Definition MonotonicReader (fuel : nat) (ms : Z) (entropy : R)
  : option (monoReader + error) :=
  match binary_Read_uint64 fuel entropy with
  | None => None
  | Some (r', inr e) => Some (inr e)
  | Some (r', inl x) => Some (inl (mkMono r' ms x x))
  end.

(** The tail of [Read]: the counter written big endian into [p[:8]], then
    [copy(p[:], p[2:10])]. *)
Definition mono_emit (inc : Z) (p : list Z) : list Z :=
  let p1 := BigEndian_PutUint64 (firstn 8 p) inc ++ skipn 8 p in
  copy p1 (firstn 8 (skipn 2 p1)).

Definition monoReader_Read (fuel : nat) (m : monoReader) (p : list Z)
  : option (monoReader * list Z * Z * option error) :=
  if negb (len p =? 10) then Some (m, p, 0, Some ErrDataSize)
  else if m_ms m =? 0 then
    match binary_Read_uint64 fuel (mReader m) with
    | None => None
    | Some (r', inr e) =>
        Some (mkMono r' (m_ms m) (m_inc m) (m_rand m), p, 0, Some e)
    | Some (r', inl x) =>
        Some (mkMono r' (m_ms m) x x, mono_emit x p, 10, None)
    end
  else
    let m1 := mkMono (mReader m) (m_ms m) (u64 (m_inc m + 1)) (m_rand m) in
    if m_inc m1 <? m_rand m1 then Some (m1, p, 0, Some ErrMonotonicOverflow)
    else Some (m1, mono_emit (m_inc m1) p, 10, None).

(** The monotonic reader is itself an [io.Reader]. *)
Definition monoReader_Reader (fuel : nat) : Reader monoReader :=
  monoReader_Read fuel.

(** [n] consecutive reads, each into its own buffer of [ps]; the buffers
    come back in order when every read succeeds. *)
Fixpoint consecutive_reads (fuel : nat) (m : monoReader) (ps : list (list Z))
  : option (monoReader * list (list Z)) :=
  match ps with
  | [] => Some (m, [])
  | p :: rest =>
      match monoReader_Read fuel m p with
      | Some (m', q, _, None) =>
          match consecutive_reads fuel m' rest with
          | Some (m'', qs) => Some (m'', q :: qs)
          | None => None
          end
      | _ => None
      end
  end.
End Sources.

Arguments monoReader R : clear implicits.

(** Identifiers made one after the other for the same timestamp from one
    monotonic reader, as the package's monotonic test does. *)
Fixpoint consecutive_News {R : Type} `{Reader R} (fuel : nat) (n : nat) (ms : Z)
  (m : monoReader R) : option (monoReader R * list ULID) :=
  match n with
  | O => Some (m, [])
  | S n' =>
      match @New _ (monoReader_Reader fuel) 1 ms m with
      | Some (m', id, None) =>
          match consecutive_News fuel n' ms m' with
          | Some (m'', ids) => Some (m'', id :: ids)
          | None => None
          end
      | _ => None
      end
  end.

(** ** Definitions used to state and prove the properties *)

(** The 5-bit groups that [MarshalTextTo] looks up in [enc], in order. *)
Definition groups (id : ULID) : list Z :=
  [ (id.[0] :& 224) :>> 5;
    id.[0] :& 31;
    (id.[1] :& 248) :>> 3;
    ((id.[1] :& 7) :<< 2) :| ((id.[2] :& 192) :>> 6);
    (id.[2] :& 62) :>> 1;
    ((id.[2] :& 1) :<< 4) :| ((id.[3] :& 240) :>> 4);
    ((id.[3] :& 15) :<< 1) :| ((id.[4] :& 128) :>> 7);
    (id.[4] :& 124) :>> 2;
    ((id.[4] :& 3) :<< 3) :| ((id.[5] :& 224) :>> 5);
    id.[5] :& 31;
    (id.[6] :& 248) :>> 3;
    ((id.[6] :& 7) :<< 2) :| ((id.[7] :& 192) :>> 6);
    (id.[7] :& 62) :>> 1;
    ((id.[7] :& 1) :<< 4) :| ((id.[8] :& 240) :>> 4);
    ((id.[8] :& 15) :<< 1) :| ((id.[9] :& 128) :>> 7);
    (id.[9] :& 124) :>> 2;
    ((id.[9] :& 3) :<< 3) :| ((id.[10] :& 224) :>> 5);
    id.[10] :& 31;
    (id.[11] :& 248) :>> 3;
    ((id.[11] :& 7) :<< 2) :| ((id.[12] :& 192) :>> 6);
    (id.[12] :& 62) :>> 1;
    ((id.[12] :& 1) :<< 4) :| ((id.[13] :& 240) :>> 4);
    ((id.[13] :& 15) :<< 1) :| ((id.[14] :& 128) :>> 7);
    (id.[14] :& 124) :>> 2;
    ((id.[14] :& 3) :<< 3) :| ((id.[15] :& 224) :>> 5);
    id.[15] :& 31 ].

(** The decode equations of [parse], over the table values [d i] of the 26
    input positions. *)
Definition decode_eqns (d : nat -> Z) : ULID :=
  [ (d 0%nat :<< 5) :| d 1%nat;
    (d 2%nat :<< 3) :| (d 3%nat :>> 2);
    (d 3%nat :<< 6) :| (d 4%nat :<< 1) :| (d 5%nat :>> 4);
    (d 5%nat :<< 4) :| (d 6%nat :>> 1);
    (d 6%nat :<< 7) :| (d 7%nat :<< 2) :| (d 8%nat :>> 3);
    (d 8%nat :<< 5) :| d 9%nat;
    (d 10%nat :<< 3) :| (d 11%nat :>> 2);
    (d 11%nat :<< 6) :| (d 12%nat :<< 1) :| (d 13%nat :>> 4);
    (d 13%nat :<< 4) :| (d 14%nat :>> 1);
    (d 14%nat :<< 7) :| (d 15%nat :<< 2) :| (d 16%nat :>> 3);
    (d 16%nat :<< 5) :| d 17%nat;
    (d 18%nat :<< 3) :| (d 19%nat :>> 2);
    (d 19%nat :<< 6) :| (d 20%nat :<< 1) :| (d 21%nat :>> 4);
    (d 21%nat :<< 4) :| (d 22%nat :>> 1);
    (d 22%nat :<< 7) :| (d 23%nat :<< 2) :| (d 24%nat :>> 3);
    (d 24%nat :<< 5) :| d 25%nat ].

(** The Crockford alphabet read without the table: a letter counts in either
    case, and the value of a symbol is its position in [enc]. *)
Definition to_upper (c : Z) : Z :=
  if (chr "a" <=? c) && (c <=? chr "z") then c - 32 else c.

Fixpoint index_of (c : Z) (l : list Z) (i : Z) : option Z :=
  match l with
  | [] => None
  | x :: rest => if x =? c then Some i else index_of c rest (i + 1)
  end.

Definition crockford_value (c : Z) : option Z := index_of (to_upper c) enc 0.

Definition in_alphabet (c : Z) : bool :=
  match crockford_value c with Some _ => true | None => false end.

(** The table value with the sentinel [0xFF] for every other byte. *)
Definition sentinel_value (c : Z) : Z :=
  match crockford_value c with Some d => d | None => 0xFF end.

(** Integer results of a three-way comparison, as [Compare] returns them. *)
Definition int_of_comparison (c : comparison) : Z :=
  match c with Lt => -1 | Eq => 0 | Gt => 1 end.

(** Exhaustive checks over an initial segment of the integers. *)
Definition below (n : Z) (f : Z -> bool) : bool :=
  forallb f (map Z.of_nat (seq 0 (Z.to_nat n))).

(** The first test of [parse] after the length check: some timestamp
    position holds the sentinel. *)
Definition ts_invalid (v : list Z) : bool :=
  (dec_at v.[0] =? 0xFF) || (dec_at v.[1] =? 0xFF) || (dec_at v.[2] =? 0xFF) ||
  (dec_at v.[3] =? 0xFF) || (dec_at v.[4] =? 0xFF) || (dec_at v.[5] =? 0xFF) ||
  (dec_at v.[6] =? 0xFF) || (dec_at v.[7] =? 0xFF) || (dec_at v.[8] =? 0xFF) ||
  (dec_at v.[9] =? 0xFF).

(** The low 48 bits of [ms] as six big-endian bytes, the timestamp bytes that
    [New] stores. *)
Definition time_bytes (ms : Z) : list Z :=
  [ byte_of (ms :>> 40); byte_of (ms :>> 32); byte_of (ms :>> 24);
    byte_of (ms :>> 16); byte_of (ms :>> 8); byte_of ms ].

(** The eight groups cut from five consecutive bytes. *)
Definition block5 (a b c d e : Z) : list Z :=
  [ (a :& 248) :>> 3;
    ((a :& 7) :<< 2) :| ((b :& 192) :>> 6);
    (b :& 62) :>> 1;
    ((b :& 1) :<< 4) :| ((c :& 240) :>> 4);
    ((c :& 15) :<< 1) :| ((d :& 128) :>> 7);
    (d :& 124) :>> 2;
    ((d :& 3) :<< 3) :| ((e :& 224) :>> 5);
    e :& 31 ].

Definition digit (base : Z) (d : Z) : Prop := 0 <= d < base.

(** What a run of successful reads in the increment branch leaves in the
    buffers [ps], starting after counter value [c]: six bytes of the counter,
    then bytes 8 and 9 of the buffer as the caller passed it, twice. *)
Fixpoint mono_outputs (c : Z) (ps : list (list Z)) : list (list Z) :=
  match ps with
  | [] => []
  | p :: rest =>
      (time_bytes (c + 1) ++ [p.[8]; p.[9]; p.[8]; p.[9]])
        :: mono_outputs (c + 1) rest
  end.

(** Strictly increasing, as 80-bit big-endian integers. *)
Definition increasing (qs : list (list Z)) : Prop :=
  StronglySorted Z.lt (map (be_value 256) qs).

(** Strictly increasing under [Compare]. *)
Definition ascending (ids : list ULID) : Prop :=
  StronglySorted (fun a b => Compare a b = -1) ids.

(** ** Equality, zero tests and bit counts *)

(** [==] on byte arrays, element by element. *)
Fixpoint bytes_eqb (a b : list Z) : bool :=
  match a, b with
  | [], [] => true
  | x :: a', y :: b' => (x =? y) && bytes_eqb a' b'
  | _, _ => false
  end.

Definition Equal (id other : ULID) : bool := bytes_eqb id other.

Definition IsZero (id : ULID) : bool := bytes_eqb id Nil.

Definition Zero : ULID := Nil.

Definition IsNil (id : ULID) : bool := bytes_eqb id Nil.

(** [id[:]]. *)
Definition Bytes (id : ULID) : list Z := id.

(** [math/bits] on [uint8]: [Len8] is the number of bits needed to write [x],
    [LeadingZeros8] is [8 - Len8], and [TrailingZeros8] counts the zero bits
    below the lowest set one, 8 when there is none. *)
Definition Len8 (x : Z) : Z := if x =? 0 then 0 else Z.log2 x + 1.

Definition LeadingZeros8 (x : Z) : Z := 8 - Len8 x.

Fixpoint ntz (fuel : nat) (x : Z) : Z :=
  match fuel with
  | O => 0
  | S fuel' => if Z.odd x then 0 else 1 + ntz fuel' (x / 2)
  end.

Definition TrailingZeros8 (x : Z) : Z := if x =? 0 then 8 else ntz 8 x.

(** [for i, b := range id], from index [i] on. *)
Fixpoint LeadingZeros_loop (i : Z) (rest : list Z) : Z :=
  match rest with
  | [] => 128
  | b :: rest' =>
      if negb (b =? 0) then i * 8 + LeadingZeros8 b
      else LeadingZeros_loop (i + 1) rest'
  end.

Definition LeadingZeros (id : ULID) : Z := LeadingZeros_loop 0 id.

(** [for i := len(id) - 1; i >= 0; i--], over the indices left. *)
Fixpoint TrailingZeros_loop (idx : list nat) (id : ULID) : Z :=
  match idx with
  | [] => 128
  | i :: rest =>
      if negb (nth i id 0 =? 0)
      then (RawSize - Z.of_nat i - 1) * 8 + TrailingZeros8 (nth i id 0)
      else TrailingZeros_loop rest id
  end.

Definition TrailingZeros (id : ULID) : Z :=
  TrailingZeros_loop (rev (seq 0 (Z.to_nat RawSize))) id.

(** The identifier read from its last byte: the value of a little-endian
    digit string. *)
Fixpoint le_value (l : list Z) : Z :=
  match l with
  | [] => 0
  | b :: rest => b + 256 * le_value rest
  end.

(** The trailing-zero count along the reversed identifier. *)
Fixpoint tz_from (k : Z) (l : list Z) : Z :=
  match l with
  | [] => 128
  | b :: rest =>
      if negb (b =? 0) then k * 8 + TrailingZeros8 b else tz_from (k + 1) rest
  end.

(** ** The text with its cache *)

(** [stringCache], a [sync.Map] from interned identifiers to weak pointers:
    the texts stored under identifiers, the newest binding first, so that a
    store hides what was there.  Whether the collector has cleared the weak
    pointer found, and which 26-byte buffer the pool hands out, are inputs
    of [ULID_String]; calls are taken one at a time. *)
Definition string_cache : Type := list (ULID * list Z).

Fixpoint cache_Load (cache : string_cache) (id : ULID) : option (list Z) :=
  match cache with
  | [] => None
  | (k, s) :: rest => if bytes_eqb k id then Some s else cache_Load rest id
  end.

Definition cache_Store (cache : string_cache) (id : ULID) (s : list Z)
  : string_cache := (id, s) :: cache.

(** The method [String]. *)
Definition ULID_String (cache : string_cache) (live : bool) (buf : list Z)
  (id : ULID) : list Z * string_cache :=
  let fresh :=
    let s := fst (MarshalTextTo id buf) in
    (s, cache_Store cache id s) in
  match cache_Load cache id with
  | Some s => if live then (s, cache) else fresh
  | None => fresh
  end.

(** [Value]: the text as a driver value, never an error. *)
Definition Value (cache : string_cache) (live : bool) (buf : list Z)
  (id : ULID) : scan_src * option error * string_cache :=
  let '(s, cache') := ULID_String cache live buf id in
  (SrcString s, None, cache').

(** Every binding of the cache holds the text of its key. *)
Definition cache_ok (cache : string_cache) : Prop :=
  Forall (fun ks => snd ks = fst (MarshalText (fst ks))) cache.

(** ** Times *)

(** [time.Time] as far as the package looks at it: Unix seconds and the
    nanoseconds within the second. *)
Record time_Time : Type := mkTime { unixSec : Z; nsec : Z }.

(** Conversion to [int64], and its arithmetic, wrap around. *)
Definition int64 (x : Z) : Z := (x + 2 ^ 63) mod 2 ^ 64 - 2 ^ 63.

(** [time.Unix(sec, nsec)]. *)
Definition time_Unix (sec ns : Z) : time_Time :=
  if (ns <? 0) || (ns >=? 10 ^ 9) then
    let n := Z.quot ns (10 ^ 9) in
    let sec := int64 (sec + n) in
    let ns := int64 (ns - int64 (n * 10 ^ 9)) in
    if ns <? 0 then mkTime (int64 (sec - 1)) (int64 (ns + 10 ^ 9))
    else mkTime sec ns
  else mkTime sec ns.

(** [t.UnixMilli()]. *)
Definition UnixMilli (t : time_Time) : Z :=
  int64 (int64 (unixSec t * 10 ^ 3) + Z.quot (nsec t) (10 ^ 6)).

Definition Timestamp (t : time_Time) : Z := u64 (UnixMilli t).

(** The package-level function [Time], from milliseconds to a [time.Time]. *)
Definition Time_of_ms (ms : Z) : time_Time :=
  let s := int64 (ms / 10 ^ 3) in
  let ns := int64 (u64 ((ms mod 10 ^ 3) * 10 ^ 6)) in
  time_Unix s ns.

(** ** Runs of reads and their outcomes *)

Section Outcomes.
Context {R : Type} `{Reader R}.

(** Consecutive reads into the buffers [ps]: the reader at the end, what each
    buffer holds afterwards and the error of each read. *)
Fixpoint read_outcomes (fuel : nat) (m : monoReader R) (ps : list (list Z))
  : option (monoReader R * list (list Z * option error)) :=
  match ps with
  | [] => Some (m, [])
  | p :: rest =>
      match monoReader_Read fuel m p with
      | Some (m', q, _, err) =>
          match read_outcomes fuel m' rest with
          | Some (m'', outs) => Some (m'', (q, err) :: outs)
          | None => None
          end
      | None => None
      end
  end.
End Outcomes.

(** * Properties *)

(** ** Checking by enumeration *)

Lemma below_spec (n : Z) (f : Z -> bool) :
  below n f = true -> forall x, 0 <= x < n -> f x = true.
Proof.
  unfold below. intros Hf x Hx.
  rewrite forallb_forall in Hf. apply Hf.
  apply in_map_iff. exists (Z.to_nat x). split; [lia|].
  apply in_seq. lia.
Qed.

Lemma bytes1 (f g : Z -> Z) :
  below 256 (fun a => f a =? g a) = true ->
  forall a, is_byte a -> f a = g a.
Proof.
  intros Hc a Ha. apply Z.eqb_eq.
  exact (below_spec 256 _ Hc a Ha).
Qed.

Lemma bytes2 (f g : Z -> Z -> Z) :
  below 256 (fun a => below 256 (fun b => f a b =? g a b)) = true ->
  forall a b, is_byte a -> is_byte b -> f a b = g a b.
Proof.
  intros Hc a b Ha Hb. apply Z.eqb_eq.
  pose proof (below_spec 256 _ Hc a Ha) as Hrow.
  exact (below_spec 256 _ Hrow b Hb).
Qed.

Ltac by_bytes1 := apply bytes1; vm_compute; reflexivity.
Ltac by_bytes2 := apply bytes2; vm_compute; reflexivity.

(** ** The two tables *)

Lemma dec_enc (x : Z) : 0 <= x < 32 -> dec_at (enc_at x) = x.
Proof.
  intros Hx. apply Z.eqb_eq.
  apply (below_spec 32 (fun x => dec_at (enc_at x) =? x)); [|assumption].
  vm_compute. reflexivity.
Qed.

Lemma enc_monotone (x y : Z) :
  0 <= x < 32 -> 0 <= y < 32 -> (enc_at x ?= enc_at y) = (x ?= y).
Proof.
  intros Hx Hy.
  assert (Hc : below 32 (fun x => below 32 (fun y =>
            match enc_at x ?= enc_at y, x ?= y with
            | Lt, Lt | Eq, Eq | Gt, Gt => true
            | _, _ => false
            end)) = true) by (vm_compute; reflexivity).
  pose proof (below_spec 32 _ (below_spec 32 _ Hc x Hx) y Hy) as Hxy.
  cbv beta in Hxy.
  destruct (enc_at x ?= enc_at y), (x ?= y); congruence.
Qed.

Lemma enc_first (x : Z) : 0 <= x < 8 -> (enc_at x >? chr "7") = false.
Proof.
  intros Hx.
  pose proof (below_spec 8 (fun x => negb (enc_at x >? chr "7"))) as Hc.
  specialize (Hc ltac:(vm_compute; reflexivity) x Hx). cbv beta in Hc.
  now apply negb_true_iff in Hc.
Qed.

(** The table is the alphabet: a byte outside it carries the sentinel, a
    symbol carries its position, in upper and in lower case. *)
Lemma dec_sentinel (c : Z) : is_byte c -> dec_at c = sentinel_value c.
Proof. revert c. by_bytes1. Qed.

Lemma dec_invalid (c : Z) :
  is_byte c -> (dec_at c =? 0xFF) = negb (in_alphabet c).
Proof.
  intros Hc.
  pose proof (below_spec 256
    (fun c => Bool.eqb (dec_at c =? 0xFF) (negb (in_alphabet c)))) as Hall.
  specialize (Hall ltac:(vm_compute; reflexivity) c Hc). cbv beta in Hall.
  now apply Bool.eqb_prop in Hall.
Qed.

(** Among the symbols, the ones past ['7'] are the ones worth more than 7. *)
Lemma overflow_char (c : Z) :
  is_byte c -> in_alphabet c = true -> (c >? chr "7") = (dec_at c >? 7).
Proof.
  intros Hc Ha.
  pose proof (below_spec 256
    (fun c => implb (in_alphabet c)
                (Bool.eqb (c >? chr "7") (dec_at c >? 7)))) as Hall.
  specialize (Hall ltac:(vm_compute; reflexivity) c Hc). cbv beta in Hall.
  rewrite Ha in Hall. cbn [implb] in Hall.
  now apply Bool.eqb_prop in Hall.
Qed.

(** ** The 5-bit groups *)

(** Each group as a quotient or remainder of the bytes it is cut from. *)
Lemma ar_top : forall a, is_byte a -> (a :& 224) :>> 5 = a / 32.
Proof. by_bytes1. Qed.

Lemma ar_low : forall a, is_byte a -> a :& 31 = a mod 32.
Proof. by_bytes1. Qed.

Lemma ar_hi5 : forall a, is_byte a -> (a :& 248) :>> 3 = a / 8.
Proof. by_bytes1. Qed.

Lemma ar_3_2 : forall a b, is_byte a -> is_byte b ->
  ((a :& 7) :<< 2) :| ((b :& 192) :>> 6) = (a mod 8) * 4 + b / 64.
Proof. by_bytes2. Qed.

Lemma ar_mid1 : forall a, is_byte a -> (a :& 62) :>> 1 = (a / 2) mod 32.
Proof. by_bytes1. Qed.

Lemma ar_1_4 : forall a b, is_byte a -> is_byte b ->
  ((a :& 1) :<< 4) :| ((b :& 240) :>> 4) = (a mod 2) * 16 + b / 16.
Proof. by_bytes2. Qed.

Lemma ar_4_1 : forall a b, is_byte a -> is_byte b ->
  ((a :& 15) :<< 1) :| ((b :& 128) :>> 7) = (a mod 16) * 2 + b / 128.
Proof. by_bytes2. Qed.

Lemma ar_mid2 : forall a, is_byte a -> (a :& 124) :>> 2 = (a / 4) mod 32.
Proof. by_bytes1. Qed.

Lemma ar_2_3 : forall a b, is_byte a -> is_byte b ->
  ((a :& 3) :<< 3) :| ((b :& 224) :>> 5) = (a mod 4) * 8 + b / 32.
Proof. by_bytes2. Qed.

Ltac arith_groups :=
  rewrite ?ar_3_2, ?ar_1_4, ?ar_4_1, ?ar_2_3, ?ar_top, ?ar_low, ?ar_hi5,
    ?ar_mid1, ?ar_mid2 by assumption.

Ltac div_mod_lia :=
  repeat match goal with
         | H : is_byte ?x |- _ =>
             lazymatch goal with
             | _ : 0 <= x < 256 |- _ => fail
             | _ => let H' := fresh in
                    assert (H' : 0 <= x < 256) by exact H
             end
         end;
  Z.div_mod_to_equations; lia.

Lemma grp_top (a : Z) : is_byte a -> 0 <= (a :& 224) :>> 5 < 8.
Proof. intros Ha. arith_groups. div_mod_lia. Qed.

Lemma grp_top32 (a : Z) : is_byte a -> 0 <= (a :& 224) :>> 5 < 32.
Proof. intros Ha. arith_groups. div_mod_lia. Qed.

Lemma grp_low (a : Z) : is_byte a -> 0 <= a :& 31 < 32.
Proof. intros Ha. arith_groups. div_mod_lia. Qed.

Lemma grp_hi5 (a : Z) : is_byte a -> 0 <= (a :& 248) :>> 3 < 32.
Proof. intros Ha. arith_groups. div_mod_lia. Qed.

Lemma grp_3_2 (a b : Z) :
  is_byte a -> is_byte b -> 0 <= ((a :& 7) :<< 2) :| ((b :& 192) :>> 6) < 32.
Proof. intros Ha Hb. arith_groups. div_mod_lia. Qed.

Lemma grp_mid1 (a : Z) : is_byte a -> 0 <= (a :& 62) :>> 1 < 32.
Proof. intros Ha. arith_groups. div_mod_lia. Qed.

Lemma grp_1_4 (a b : Z) :
  is_byte a -> is_byte b -> 0 <= ((a :& 1) :<< 4) :| ((b :& 240) :>> 4) < 32.
Proof. intros Ha Hb. arith_groups. div_mod_lia. Qed.

Lemma grp_4_1 (a b : Z) :
  is_byte a -> is_byte b -> 0 <= ((a :& 15) :<< 1) :| ((b :& 128) :>> 7) < 32.
Proof. intros Ha Hb. arith_groups. div_mod_lia. Qed.

Lemma grp_mid2 (a : Z) : is_byte a -> 0 <= (a :& 124) :>> 2 < 32.
Proof. intros Ha. arith_groups. div_mod_lia. Qed.

Lemma grp_2_3 (a b : Z) :
  is_byte a -> is_byte b -> 0 <= ((a :& 3) :<< 3) :| ((b :& 224) :>> 5) < 32.
Proof. intros Ha Hb. arith_groups. div_mod_lia. Qed.


Create HintDb grp.

#[export] Hint Resolve grp_top32 grp_low grp_hi5 grp_3_2 grp_mid1 grp_1_4
  grp_4_1 grp_mid2 grp_2_3 : grp.


(** ** Reassembling a byte from the groups it was cut into *)

Lemma join_first : forall a, is_byte a ->
  (((a :& 224) :>> 5) :<< 5) :| (a :& 31) = a.
Proof. by_bytes1. Qed.

Lemma join_A : forall a b, is_byte a -> is_byte b ->
  (((a :& 248) :>> 3) :<< 3) :| ((((a :& 7) :<< 2) :| ((b :& 192) :>> 6)) :>> 2)
  = a.
Proof. by_bytes2. Qed.

Lemma join_B1 : forall a b, is_byte a -> is_byte b ->
  (((a :& 7) :<< 2) :| ((b :& 192) :>> 6)) :<< 6 = b :& 192.
Proof. by_bytes2. Qed.

Lemma join_B2 : forall b c, is_byte b -> is_byte c ->
  (((b :& 1) :<< 4) :| ((c :& 240) :>> 4)) :>> 4 = b :& 1.
Proof. by_bytes2. Qed.

Lemma join_B3 : forall b, is_byte b ->
  (b :& 192) :| (((b :& 62) :>> 1) :<< 1) :| (b :& 1) = b.
Proof. by_bytes1. Qed.

Lemma join_C1 : forall b c, is_byte b -> is_byte c ->
  (((b :& 1) :<< 4) :| ((c :& 240) :>> 4)) :<< 4 = c :& 240.
Proof. by_bytes2. Qed.

Lemma join_C2 : forall c d, is_byte c -> is_byte d ->
  (((c :& 15) :<< 1) :| ((d :& 128) :>> 7)) :>> 1 = c :& 15.
Proof. by_bytes2. Qed.

Lemma join_C3 : forall c, is_byte c -> (c :& 240) :| (c :& 15) = c.
Proof. by_bytes1. Qed.

Lemma join_D1 : forall c d, is_byte c -> is_byte d ->
  (((c :& 15) :<< 1) :| ((d :& 128) :>> 7)) :<< 7 = d :& 128.
Proof. by_bytes2. Qed.

Lemma join_D2 : forall d e, is_byte d -> is_byte e ->
  (((d :& 3) :<< 3) :| ((e :& 224) :>> 5)) :>> 3 = d :& 3.
Proof. by_bytes2. Qed.

Lemma join_D3 : forall d, is_byte d ->
  (d :& 128) :| (((d :& 124) :>> 2) :<< 2) :| (d :& 3) = d.
Proof. by_bytes1. Qed.

Lemma join_E : forall d e, is_byte d -> is_byte e ->
  ((((d :& 3) :<< 3) :| ((e :& 224) :>> 5)) :<< 5) :| (e :& 31) = e.
Proof. by_bytes2. Qed.

(** ** Well-formed identifiers, byte by byte *)

Lemma wf_ULID_inv (id : ULID) :
  wf_ULID id ->
  exists b0 b1 b2 b3 b4 b5 b6 b7 b8 b9 b10 b11 b12 b13 b14 b15,
    id = [b0; b1; b2; b3; b4; b5; b6; b7; b8; b9; b10; b11; b12; b13; b14; b15]
    /\ bytes [b0; b1; b2; b3; b4; b5; b6; b7; b8; b9; b10; b11; b12; b13; b14; b15].
Proof.
  intros [Hlen Hb].
  do 16 (destruct id as [|? id]; [discriminate Hlen|]).
  destruct id; [|discriminate Hlen].
  do 16 eexists. split; [reflexivity|exact Hb].
Qed.

Ltac split_bytes H :=
  unfold bytes in H;
  repeat match type of H with
         | Forall _ (_ :: _) =>
             let Hx := fresh "Hb" in
             apply Forall_cons_iff in H; destruct H as [Hx H]
         end.

Ltac explode_ULID H :=
  let Hb := fresh "Hbytes" in
  apply wf_ULID_inv in H;
  destruct H as (?b & ?b & ?b & ?b & ?b & ?b & ?b & ?b & ?b & ?b & ?b & ?b
                 & ?b & ?b & ?b & ?b & -> & Hb);
  split_bytes Hb.

(** ** Encoding, seen as a map over the groups *)

Lemma MarshalTextTo_groups (id : ULID) (dst : list Z) :
  len dst = EncodedSize ->
  MarshalTextTo id dst = (map enc_at (groups id), None).
Proof.
  intros Hl. unfold MarshalTextTo. rewrite Hl, Z.eqb_refl. reflexivity.
Qed.

Lemma MarshalText_groups (id : ULID) :
  MarshalText id = (map enc_at (groups id), None).
Proof. apply MarshalTextTo_groups. reflexivity. Qed.

Lemma groups_range (id : ULID) :
  wf_ULID id -> Forall (fun g => 0 <= g < 32) (groups id).
Proof.
  intros Hwf. explode_ULID Hwf.
  unfold groups. cbn [nth].
  repeat (apply Forall_cons; [cbv beta; solve [auto with grp]|]).
  apply Forall_nil.
Qed.

(** ** Decoding what was encoded *)

Lemma decode_groups (id : ULID) :
  wf_ULID id ->
  decode_eqns (fun i => dec_at (nth i (map enc_at (groups id)) 0)) = id.
Proof.
  intros Hwf. explode_ULID Hwf.
  unfold decode_eqns, groups. cbn [nth map].
  rewrite !dec_enc by auto with grp.
  rewrite join_first, !join_A, !join_B1, !join_B2, !join_B3, !join_C1,
    !join_C2, !join_C3, !join_D1, !join_D2, !join_D3, !join_E by assumption.
  reflexivity.
Qed.

(** ** The paths through [parse] *)

Lemma parse_size (v : list Z) (strict : bool) :
  len v <> EncodedSize -> parse v strict = (Nil, Some ErrDataSize).
Proof.
  intros Hl. unfold parse.
  destruct (len v =? EncodedSize) eqn:E; [apply Z.eqb_eq in E; contradiction|].
  reflexivity.
Qed.

Lemma parse_invalid (v : list Z) (strict : bool) :
  len v = EncodedSize -> ts_invalid v = true ->
  parse v strict = (Nil, Some ErrInvalidCharacters).
Proof.
  intros Hl Hi. unfold parse. rewrite Hl, Z.eqb_refl. cbn [negb].
  unfold ts_invalid in Hi. rewrite Hi. reflexivity.
Qed.

Lemma parse_overflow (v : list Z) (strict : bool) :
  len v = EncodedSize -> ts_invalid v = false -> (v.[0] >? chr "7") = true ->
  parse v strict = (Nil, Some ErrOverflow).
Proof.
  intros Hl Hi Ho. unfold parse. rewrite Hl, Z.eqb_refl. cbn [negb].
  unfold ts_invalid in Hi. rewrite Hi, Ho. reflexivity.
Qed.

Lemma parse_decoded (v : list Z) (strict : bool) :
  len v = EncodedSize -> ts_invalid v = false -> (v.[0] >? chr "7") = false ->
  parse v strict =
    (decode_eqns (fun i => dec_at (nth i v 0)),
     if strict && strict_scan v then Some ErrInvalidCharacters else None).
Proof.
  intros Hl Hi Ho. unfold parse. rewrite Hl, Z.eqb_refl. cbn [negb].
  unfold ts_invalid in Hi. rewrite Hi, Ho.
  destruct (strict && strict_scan v); reflexivity.
Qed.

Lemma strict_scan_false (v : list Z) :
  strict_scan v = false <-> Forall (fun c => dec_at c <> 0xFF) v.
Proof.
  induction v as [|c v IH]; cbn [strict_scan].
  - split; [constructor|reflexivity].
  - destruct (dec_at c =? 0xFF) eqn:E.
    + apply Z.eqb_eq in E. split; [discriminate|].
      intros Hf. apply Forall_cons_iff in Hf. tauto.
    + apply Z.eqb_neq in E. rewrite IH. split.
      * intros Hf. constructor; assumption.
      * intros Hf. apply Forall_cons_iff in Hf. tauto.
Qed.

Lemma strict_scan_enc (gs : list Z) :
  Forall (fun g => 0 <= g < 32) gs -> strict_scan (map enc_at gs) = false.
Proof.
  intros Hf. apply strict_scan_false. apply Forall_map.
  eapply Forall_impl; [|exact Hf].
  intros g Hg. cbv beta in *. rewrite dec_enc by assumption. lia.
Qed.

Lemma text_valid (id : ULID) :
  wf_ULID id ->
  ts_invalid (map enc_at (groups id)) = false
  /\ ((map enc_at (groups id)).[0] >? chr "7") = false.
Proof.
  intros Hwf. explode_ULID Hwf.
  unfold ts_invalid, groups. cbn [nth map].
  rewrite !dec_enc by auto with grp.
  split.
  - repeat (apply orb_false_iff; split);
      apply Z.eqb_neq;
      match goal with |- ?g <> _ =>
        assert (0 <= g < 32) by auto with grp; lia end.
  - apply enc_first. apply grp_top. assumption.
Qed.

Lemma parse_MarshalText (id : ULID) (strict : bool) :
  wf_ULID id -> parse (fst (MarshalText id)) strict = (id, None).
Proof.
  intros Hwf. rewrite MarshalText_groups. cbn [fst].
  destruct (text_valid id Hwf) as [Hi Ho].
  rewrite parse_decoded by (reflexivity || assumption).
  rewrite decode_groups by assumption.
  rewrite strict_scan_enc by (apply groups_range; assumption).
  rewrite andb_false_r. reflexivity.
Qed.

(** ** Slices *)

Lemma copy_same_length (dst src : list Z) :
  length dst = length src -> copy dst src = src.
Proof.
  intros Hl. unfold copy. rewrite Hl, Nat.min_id, firstn_all.
  rewrite <- Hl, skipn_all. apply app_nil_r.
Qed.

(** ** Big-endian values and lexicographic order *)

Section Positional.
Variable base : Z.
Hypothesis base_pos : 0 < base.

Lemma be_value_acc (l : list Z) (acc : Z) :
  fold_left (fun x d => x * base + d) l acc
  = acc * base ^ Z.of_nat (length l) + be_value base l.
Proof.
  unfold be_value. revert acc.
  induction l as [|d l IH]; intros acc; cbn [fold_left length].
  - rewrite Z.pow_0_r. lia.
  - rewrite IH, (IH (0 * base + d)).
    rewrite Nat2Z.inj_succ, Z.pow_succ_r by lia. ring.
Qed.

Lemma be_value_cons (d : Z) (l : list Z) :
  be_value base (d :: l) = d * base ^ Z.of_nat (length l) + be_value base l.
Proof.
  unfold be_value at 1. cbn [fold_left]. rewrite be_value_acc. ring.
Qed.

Lemma be_value_app (l1 l2 : list Z) :
  be_value base (l1 ++ l2)
  = be_value base l1 * base ^ Z.of_nat (length l2) + be_value base l2.
Proof.
  unfold be_value at 1. rewrite fold_left_app.
  fold (be_value base l1). apply be_value_acc.
Qed.

Lemma be_value_bound (l : list Z) :
  Forall (digit base) l -> 0 <= be_value base l < base ^ Z.of_nat (length l).
Proof.
  induction 1 as [|d l Hd Hl IH].
  - cbn. lia.
  - rewrite be_value_cons. cbn [length].
    rewrite Nat2Z.inj_succ, Z.pow_succ_r by lia.
    unfold digit in Hd.
    assert (0 < base ^ Z.of_nat (length l)) by (apply Z.pow_pos_nonneg; lia).
    nia.
Qed.

(** Equal-length digit strings compare as their values do. *)
Lemma string_compare_value (l1 l2 : list Z) :
  length l1 = length l2 ->
  Forall (digit base) l1 -> Forall (digit base) l2 ->
  string_compare l1 l2 = (be_value base l1 ?= be_value base l2).
Proof.
  revert l2. induction l1 as [|x l1 IH]; intros [|y l2] Hl H1 H2;
    try discriminate Hl.
  - reflexivity.
  - apply Forall_cons_iff in H1. destruct H1 as [Hx H1].
    apply Forall_cons_iff in H2. destruct H2 as [Hy H2].
    injection Hl as Hl.
    cbn [string_compare]. rewrite !be_value_cons, <- Hl.
    pose proof (be_value_bound l1 H1) as B1.
    pose proof (be_value_bound l2 H2) as B2.
    rewrite <- Hl in B2.
    set (w := base ^ Z.of_nat (length l1)) in *.
    destruct (Z.compare_spec x y) as [E|E|E].
    + subst y. rewrite (IH l2 Hl H1 H2). symmetry.
      destruct (Z.compare_spec (be_value base l1) (be_value base l2));
        [apply Z.compare_eq_iff|apply Z.compare_lt_iff|apply Z.compare_gt_iff];
        lia.
    + symmetry. apply Z.compare_lt_iff. nia.
    + symmetry. apply Z.compare_gt_iff. nia.
Qed.
End Positional.

Lemma string_compare_app (l1 l2 r1 r2 : list Z) :
  length l1 = length l2 ->
  string_compare (l1 ++ r1) (l2 ++ r2)
  = match string_compare l1 l2 with
    | Eq => string_compare r1 r2
    | c => c
    end.
Proof.
  revert l2. induction l1 as [|x l1 IH]; intros [|y l2] Hl;
    try discriminate Hl.
  - reflexivity.
  - injection Hl as Hl. cbn [app string_compare].
    destruct (x ?= y); [apply IH; assumption|reflexivity|reflexivity].
Qed.

Lemma string_compare_enc (l1 l2 : list Z) :
  Forall (digit 32) l1 -> Forall (digit 32) l2 ->
  string_compare (map enc_at l1) (map enc_at l2) = string_compare l1 l2.
Proof.
  intros H1. revert l2.
  induction H1 as [|x l1 Hx H1 IH]; intros l2 H2;
    destruct H2 as [|y l2 Hy H2]; cbn [map string_compare]; try reflexivity.
  rewrite enc_monotone by assumption.
  destruct (x ?= y); [apply IH; assumption|reflexivity|reflexivity].
Qed.

(** ** The loop of [Compare] *)

Lemma Compare_loop_shift (k n : nat) (x y : Z) (a b : list Z) :
  Compare_loop (seq (S k) n) (x :: a) (y :: b) = Compare_loop (seq k n) a b.
Proof.
  revert k. induction n as [|n IH]; intros k; cbn [seq Compare_loop nth].
  - reflexivity.
  - rewrite IH. reflexivity.
Qed.

Lemma Compare_loop_prefix (n : nat) (l1 l2 r1 r2 : list Z) :
  length l1 = length l2 -> (length l1 <= n)%nat ->
  Compare_loop (seq 0 n) (l1 ++ r1) (l2 ++ r2)
  = match string_compare l1 l2 with
    | Eq => Compare_loop (seq 0 (n - length l1)) r1 r2
    | c => int_of_comparison c
    end.
Proof.
  revert n l2. induction l1 as [|x l1 IH]; intros n [|y l2] Hl Hn;
    try discriminate Hl.
  - cbn [length app string_compare]. rewrite Nat.sub_0_r. reflexivity.
  - injection Hl as Hl. cbn [length] in Hn.
    destruct n as [|n]; [lia|].
    cbn [app seq Compare_loop nth string_compare length Nat.sub].
    rewrite Compare_loop_shift.
    rewrite (IH n l2 Hl) by lia.
    destruct (Z.compare_spec x y) as [E|E|E].
    + subst y. rewrite Z.gtb_ltb, Z.ltb_irrefl. reflexivity.
    + apply Z.ltb_lt in E. rewrite E. reflexivity.
    + assert ((x <? y) = false) as -> by (apply Z.ltb_ge; lia).
      assert ((x >? y) = true) as -> by (rewrite Z.gtb_ltb; apply Z.ltb_lt; lia).
      reflexivity.
Qed.

Lemma Compare_string_compare (a b : ULID) :
  length a = 16%nat -> length b = 16%nat ->
  Compare a b = int_of_comparison (string_compare a b).
Proof.
  intros Ha Hb. unfold Compare.
  rewrite <- (app_nil_r a), <- (app_nil_r b) at 1.
  change (Z.to_nat RawSize) with 16%nat.
  rewrite Compare_loop_prefix by lia.
  destruct (string_compare a b); try reflexivity.
  rewrite Ha. reflexivity.
Qed.

(** ** The text as a base-32 numeral *)

Lemma head_value (a : Z) :
  is_byte a -> be_value 32 [(a :& 224) :>> 5; a :& 31] = a.
Proof.
  intros Ha. arith_groups. unfold be_value. cbn [fold_left]. div_mod_lia.
Qed.

Lemma block5_value (a b c d e : Z) :
  is_byte a -> is_byte b -> is_byte c -> is_byte d -> is_byte e ->
  be_value 32 (block5 a b c d e) = be_value 256 [a; b; c; d; e].
Proof.
  intros Ha Hb Hc Hd He. unfold block5. arith_groups.
  unfold be_value. cbn [fold_left]. div_mod_lia.
Qed.

Lemma block5_digits (a b c d e : Z) :
  is_byte a -> is_byte b -> is_byte c -> is_byte d -> is_byte e ->
  Forall (digit 32) (block5 a b c d e).
Proof.
  intros Ha Hb Hc Hd He. unfold block5, digit.
  repeat (apply Forall_cons; [solve [auto with grp]|]).
  apply Forall_nil.
Qed.

Lemma groups_blocks (b0 b1 b2 b3 b4 b5 b6 b7 b8 b9 b10 b11 b12 b13 b14 b15 : Z) :
  groups [b0; b1; b2; b3; b4; b5; b6; b7; b8; b9; b10; b11; b12; b13; b14; b15]
  = [(b0 :& 224) :>> 5; b0 :& 31] ++ block5 b1 b2 b3 b4 b5
    ++ block5 b6 b7 b8 b9 b10 ++ block5 b11 b12 b13 b14 b15.
Proof. reflexivity. Qed.

Lemma groups_value (id : ULID) :
  wf_ULID id -> be_value 32 (groups id) = uint128 id.
Proof.
  intros Hwf. explode_ULID Hwf.
  rewrite groups_blocks. unfold uint128.
  change [b; b0; b1; b2; b3; b4; b5; b6; b7; b8; b9; b10; b11; b12; b13; b14]
    with ([b] ++ [b0; b1; b2; b3; b4] ++ [b5; b6; b7; b8; b9]
          ++ [b10; b11; b12; b13; b14]).
  rewrite !be_value_app by lia.
  rewrite head_value, !block5_value by assumption.
  cbn [length block5 app].
  change (be_value 256 [b]) with (0 * 256 + b).
  repeat match goal with
         | |- context [?x ^ Z.of_nat ?n] =>
             let v := eval vm_compute in (x ^ Z.of_nat n) in
             change (x ^ Z.of_nat n) with v
         end.
  ring.
Qed.

Lemma groups_digits (id : ULID) : wf_ULID id -> Forall (digit 32) (groups id).
Proof. exact (groups_range id). Qed.

(** ** Identifiers built by [New] *)

Lemma MaxTime_value : MaxTime = 2 ^ 48 - 1.
Proof. reflexivity. Qed.

Lemma New_shape {R : Type} `{Reader R} (fuel : nat) (t : Z) (r r' : R)
  (id : ULID) :
  New fuel t r = Some (r', id, None) ->
  t <= MaxTime /\ exists tl, id = time_bytes t ++ tl.
Proof.
  unfold New. destruct (t >? MaxTime) eqn:Et; [discriminate|].
  destruct (ReadFull fuel r _) as [[[[r1 tl] n] [e|]]|]; try discriminate.
  intros Heq. injection Heq as _ <-.
  split; [lia|]. exists tl. reflexivity.
Qed.

Lemma byte_of_range (x : Z) : is_byte (byte_of x).
Proof. unfold is_byte, byte_of. apply Z.mod_pos_bound. lia. Qed.

Lemma time_bytes_digits (t : Z) : Forall (digit 256) (time_bytes t).
Proof.
  unfold time_bytes. repeat (apply Forall_cons; [apply byte_of_range|]).
  apply Forall_nil.
Qed.

Lemma time_bytes_value (t : Z) :
  0 <= t <= MaxTime -> be_value 256 (time_bytes t) = t.
Proof.
  rewrite MaxTime_value. intros Ht.
  unfold time_bytes, byte_of, be_value. cbn [fold_left].
  rewrite !Z.shiftr_div_pow2 by lia.
  change (2 ^ 40) with 1099511627776. change (2 ^ 32) with 4294967296.
  change (2 ^ 24) with 16777216. change (2 ^ 16) with 65536.
  change (2 ^ 8) with 256. change (2 ^ 48) with 281474976710656 in Ht.
  Z.div_mod_to_equations. lia.
Qed.

Lemma groups_prefix (a0 a1 a2 a3 a4 a5 : Z) (tl : list Z) :
  firstn 10 (groups ([a0; a1; a2; a3; a4; a5] ++ tl))
  = [(a0 :& 224) :>> 5; a0 :& 31] ++ block5 a1 a2 a3 a4 a5.
Proof. reflexivity. Qed.

Lemma prefix_value (a0 a1 a2 a3 a4 a5 : Z) :
  bytes [a0; a1; a2; a3; a4; a5] ->
  Forall (digit 32) ([(a0 :& 224) :>> 5; a0 :& 31] ++ block5 a1 a2 a3 a4 a5)
  /\ be_value 32 ([(a0 :& 224) :>> 5; a0 :& 31] ++ block5 a1 a2 a3 a4 a5)
     = be_value 256 [a0; a1; a2; a3; a4; a5].
Proof.
  intros Hd. split_bytes Hd. split.
  - apply Forall_app. split.
    + repeat (apply Forall_cons; [unfold digit; solve [auto with grp]|]).
      apply Forall_nil.
    + apply block5_digits; assumption.
  - rewrite be_value_app, head_value, block5_value by (lia || assumption).
    rewrite (be_value_cons 256 a0).
    cbn [length block5]. reflexivity.
Qed.

Lemma time_groups_value (t : Z) (tl : list Z) :
  0 <= t <= MaxTime ->
  Forall (digit 32) (firstn 10 (groups (time_bytes t ++ tl)))
  /\ be_value 32 (firstn 10 (groups (time_bytes t ++ tl))) = t.
Proof.
  intros Ht.
  pose proof (time_bytes_value t Ht) as Hv.
  pose proof (time_bytes_digits t) as Hd.
  unfold time_bytes in *. rewrite groups_prefix.
  destruct (prefix_value _ _ _ _ _ _ Hd) as [D V].
  split; [exact D|]. rewrite V. exact Hv.
Qed.

Lemma New_ordered (t1 t2 : Z) (tl1 tl2 : list Z) (dst1 dst2 : list Z) :
  0 <= t1 -> t1 < t2 -> t2 <= MaxTime ->
  len dst1 = EncodedSize -> len dst2 = EncodedSize ->
  Compare (time_bytes t1 ++ tl1) (time_bytes t2 ++ tl2) = -1
  /\ string_compare (fst (MarshalTextTo (time_bytes t1 ++ tl1) dst1))
                    (fst (MarshalTextTo (time_bytes t2 ++ tl2) dst2)) = Lt.
Proof.
  intros H0 Hlt Hmax Hl1 Hl2.
  assert (Hb : string_compare (time_bytes t1) (time_bytes t2) = Lt).
  { rewrite (string_compare_value 256) by
      (lia || reflexivity || apply time_bytes_digits).
    rewrite !time_bytes_value by lia. apply Z.compare_lt_iff. assumption. }
  split.
  - unfold Compare. change (Z.to_nat RawSize) with 16%nat.
    rewrite Compare_loop_prefix by (reflexivity || (cbn; lia)).
    rewrite Hb. reflexivity.
  - rewrite !MarshalTextTo_groups by assumption. cbn [fst].
    rewrite <- (firstn_skipn 10 (groups (time_bytes t1 ++ tl1))).
    rewrite <- (firstn_skipn 10 (groups (time_bytes t2 ++ tl2))).
    rewrite !map_app, string_compare_app by reflexivity.
    destruct (time_groups_value t1 tl1 ltac:(lia)) as [D1 V1].
    destruct (time_groups_value t2 tl2 ltac:(lia)) as [D2 V2].
    rewrite string_compare_enc by assumption.
    rewrite (string_compare_value 32) by (lia || reflexivity || assumption).
    rewrite V1, V2.
    assert (E : (t1 ?= t2) = Lt) by (apply Z.compare_lt_iff; assumption).
    rewrite E. reflexivity.
Qed.

Lemma wf_digits (id : ULID) : wf_ULID id -> Forall (digit 256) id.
Proof. intros [_ Hb]. exact Hb. Qed.

(** [C1] The three orders on identifiers are one order: byte-wise [Compare],
    the string order of the 26-character texts written by [MarshalTextTo],
    and the order of the identifiers read as big-endian 128-bit unsigned
    integers agree on every pair of identifiers; and two identifiers built by
    [New] from timestamps [t1 < t2] are strictly ordered under [Compare] and
    under the string order of their texts, whatever entropy was read. *)
Theorem ordering_agrees :
  (forall (a b : ULID) (dsta dstb : list Z),
      wf_ULID a -> wf_ULID b ->
      len dsta = EncodedSize -> len dstb = EncodedSize ->
      Compare a b = int_of_comparison (uint128 a ?= uint128 b)
      /\ string_compare (fst (MarshalTextTo a dsta)) (fst (MarshalTextTo b dstb))
         = (uint128 a ?= uint128 b))
  /\ (forall (R1 R2 : Type) (rd1 : Reader R1) (rd2 : Reader R2)
             (fuel1 fuel2 : nat) (t1 t2 : Z) (r1 r1' : R1) (r2 r2' : R2)
             (id1 id2 : ULID) (dst1 dst2 : list Z),
         0 <= t1 -> t1 < t2 ->
         New fuel1 t1 r1 = Some (r1', id1, None) ->
         New fuel2 t2 r2 = Some (r2', id2, None) ->
         len dst1 = EncodedSize -> len dst2 = EncodedSize ->
         Compare id1 id2 = -1
         /\ Less id1 id2 = true
         /\ string_compare (fst (MarshalTextTo id1 dst1))
                           (fst (MarshalTextTo id2 dst2)) = Lt).
Proof.
  split.
  - intros a b dsta dstb Ha Hb Hla Hlb.
    assert (Hs : string_compare a b = (uint128 a ?= uint128 b)).
    { apply (string_compare_value 256); try lia.
      - destruct Ha, Hb. congruence.
      - apply wf_digits; assumption.
      - apply wf_digits; assumption. }
    split.
    + rewrite Compare_string_compare by (apply Ha || apply Hb).
      rewrite Hs. reflexivity.
    + rewrite !MarshalTextTo_groups by assumption. cbn [fst].
      rewrite string_compare_enc by (apply groups_digits; assumption).
      rewrite (string_compare_value 32)
        by (lia || reflexivity || (apply groups_digits; assumption)).
      rewrite !groups_value by assumption. reflexivity.
  - intros R1 R2 rd1 rd2 fuel1 fuel2 t1 t2 r1 r1' r2 r2' id1 id2 dst1 dst2
      H0 Hlt N1 N2 Hl1 Hl2.
    apply New_shape in N1. destruct N1 as [M1 [tl1 ->]].
    apply New_shape in N2. destruct N2 as [M2 [tl2 ->]].
    destruct (New_ordered t1 t2 tl1 tl2 dst1 dst2) as [C S]; try assumption.
    repeat split; try assumption.
    unfold Less. rewrite C. reflexivity.
Qed.

Lemma ordering_agrees_witness :
  let a := [1; 86; 62; 58; 181; 211; 214; 118; 76; 97; 239; 185; 147; 2; 189; 91] in
  let b := [1; 86; 62; 58; 181; 211; 214; 118; 76; 97; 239; 185; 147; 2; 189; 92] in
  (Compare a b = int_of_comparison (uint128 a ?= uint128 b)
   /\ string_compare (fst (MarshalTextTo a (repeat 0 26)))
                     (fst (MarshalTextTo b (repeat 0 26)))
      = (uint128 a ?= uint128 b))
  /\ (Compare (time_bytes 5 ++ repeat 255 10) (time_bytes 6 ++ repeat 0 10) = -1
      /\ Less (time_bytes 5 ++ repeat 255 10) (time_bytes 6 ++ repeat 0 10) = true
      /\ string_compare
           (fst (MarshalTextTo (time_bytes 5 ++ repeat 255 10) (repeat 0 26)))
           (fst (MarshalTextTo (time_bytes 6 ++ repeat 0 10) (repeat 0 26)))
         = Lt).
Proof.
  intros a b. destruct ordering_agrees as [Hall Hnew]. split.
  - apply Hall; try reflexivity;
      (split; [reflexivity|]);
      repeat (apply Forall_cons; [unfold is_byte; lia|]); apply Forall_nil.
  - apply (Hnew sliceReader sliceReader _ _ 1%nat 1%nat 5 6
             (repeat 255 10) [] (repeat 0 10) []);
      try reflexivity; lia.
Defined.

(** ** Big-endian words *)

Lemma lor_shiftl_add (lo hi k : Z) :
  0 <= k -> 0 <= lo < 2 ^ k -> lo :| Z.shiftl hi k = lo + hi * 2 ^ k.
Proof.
  intros Hk Hlo.
  rewrite <- Z.shiftl_mul_pow2 by assumption.
  pose proof (Z.add_lor_land lo (Z.shiftl hi k)) as Hadd.
  assert (Hz : lo :& Z.shiftl hi k = 0).
  { apply Z.bits_inj'. intros n Hn.
    rewrite Z.land_spec, Z.bits_0.
    destruct (Z.ltb_spec n k) as [Hlt|Hge].
    - rewrite (Z.shiftl_spec_low hi k n) by assumption. apply andb_false_r.
    - rewrite <- (Z.mod_small lo (2 ^ k)) by assumption.
      rewrite Z.mod_pow2_bits_high by lia. reflexivity. }
  rewrite Hz in Hadd. lia.
Qed.

Lemma BigEndian_Uint64_value (b0 b1 b2 b3 b4 b5 b6 b7 : Z) :
  bytes [b0; b1; b2; b3; b4; b5; b6; b7] ->
  BigEndian_Uint64 [b0; b1; b2; b3; b4; b5; b6; b7]
  = be_value 256 [b0; b1; b2; b3; b4; b5; b6; b7].
Proof.
  intros Hb. split_bytes Hb. unfold is_byte in *.
  unfold BigEndian_Uint64, be_value. cbn [nth fold_left].
  rewrite (lor_shiftl_add b7 b6 8) by lia.
  rewrite (lor_shiftl_add _ b5 16) by lia.
  rewrite (lor_shiftl_add _ b4 24) by lia.
  rewrite (lor_shiftl_add _ b3 32) by lia.
  rewrite (lor_shiftl_add _ b2 40) by lia.
  rewrite (lor_shiftl_add _ b1 48) by lia.
  rewrite (lor_shiftl_add _ b0 56) by lia.
  lia.
Qed.

Lemma Time_of_bytes (a0 a1 a2 a3 a4 a5 : Z) (tl : list Z) :
  bytes [a0; a1; a2; a3; a4; a5] -> bytes tl -> (2 <= length tl)%nat ->
  Time ([a0; a1; a2; a3; a4; a5] ++ tl) = be_value 256 [a0; a1; a2; a3; a4; a5].
Proof.
  intros Ha Ht Hl.
  destruct tl as [|e0 [|e1 tl]]; cbn [length] in Hl; try lia.
  unfold Time. cbn [app firstn].
  apply Forall_cons_iff in Ht. destruct Ht as [He0 Ht].
  apply Forall_cons_iff in Ht. destruct Ht as [He1 Ht].
  rewrite BigEndian_Uint64_value.
  2:{ split_bytes Ha. repeat (apply Forall_cons; [assumption|]). apply Forall_nil. }
  split_bytes Ha. unfold is_byte in *.
  rewrite Z.shiftr_div_pow2 by lia.
  unfold be_value. cbn [fold_left].
  change (2 ^ 16) with 65536. Z.div_mod_to_equations. lia.
Qed.

(** ** Round trips *)

Lemma binary_roundtrip (id id0 : ULID) (dst : list Z) :
  wf_ULID id -> wf_ULID id0 -> len dst = RawSize ->
  snd (MarshalBinaryTo id dst) = None
  /\ UnmarshalBinary id0 (fst (MarshalBinaryTo id dst)) = (id, None).
Proof.
  intros [Hl _] [Hl0 _] Hd. unfold MarshalBinaryTo.
  rewrite Hd, Z.eqb_refl. cbn [negb fst snd]. split; [reflexivity|].
  assert (Hdl : length dst = 16%nat) by (unfold len, RawSize in Hd; lia).
  rewrite copy_same_length by congruence.
  unfold UnmarshalBinary, len. rewrite Hl. cbn [negb Z.eqb Z.of_nat].
  change (Z.of_nat 16 =? RawSize) with true. cbn [negb].
  rewrite copy_same_length by congruence. reflexivity.
Qed.

Lemma text_roundtrip (id id0 : ULID) (dst : list Z) (strict : bool) :
  wf_ULID id -> len dst = EncodedSize ->
  snd (MarshalTextTo id dst) = None
  /\ parse (fst (MarshalTextTo id dst)) strict = (id, None)
  /\ UnmarshalText id0 (fst (MarshalTextTo id dst)) = (id, None).
Proof.
  intros Hwf Hd.
  rewrite (MarshalTextTo_groups id dst Hd), <- MarshalText_groups.
  split; [reflexivity|]. split.
  - apply parse_MarshalText. assumption.
  - unfold UnmarshalText. rewrite parse_MarshalText by assumption. reflexivity.
Qed.

Lemma New_sliceReader (t : Z) (e : list Z) :
  t <= MaxTime -> length e = 10%nat ->
  New 1 t (e : sliceReader) = Some ([] : sliceReader, time_bytes t ++ e, None).
Proof.
  intros Ht Hl.
  do 10 (destruct e as [|? e]; [discriminate Hl|]).
  destruct e; [|discriminate Hl].
  unfold New.
  assert ((t >? MaxTime) = false) as -> by (rewrite Z.gtb_ltb; apply Z.ltb_ge; lia).
  reflexivity.
Qed.

(** [C2] For every timestamp [t] in [0, 2^48-1] and every 10-byte entropy
    [e], [New] fed with [e] returns the identifier holding [t] and [e], and
    that identifier survives both codecs without error: [UnmarshalBinary] of
    what [MarshalBinaryTo] wrote gives it back, and so do [parse], strict or
    not, and [UnmarshalText] of what [MarshalTextTo] wrote. *)
Theorem roundtrip (t : Z) (e : list Z) :
  0 <= t <= MaxTime -> length e = 10%nat -> bytes e ->
  exists id : ULID,
    New 1 t (e : sliceReader) = Some ([] : sliceReader, id, None)
    /\ wf_ULID id /\ Time id = t /\ Entropy id = e
    /\ (forall (id0 : ULID) (dst : list Z),
           wf_ULID id0 -> len dst = RawSize ->
           snd (MarshalBinaryTo id dst) = None
           /\ UnmarshalBinary id0 (fst (MarshalBinaryTo id dst)) = (id, None))
    /\ (forall (id0 : ULID) (dst : list Z) (strict : bool),
           len dst = EncodedSize ->
           snd (MarshalTextTo id dst) = None
           /\ parse (fst (MarshalTextTo id dst)) strict = (id, None)
           /\ UnmarshalText id0 (fst (MarshalTextTo id dst)) = (id, None)).
Proof.
  intros Ht Hl He.
  exists (time_bytes t ++ e).
  assert (Hwf : wf_ULID (time_bytes t ++ e)).
  { split.
    - rewrite length_app, Hl. reflexivity.
    - apply Forall_app. split; [apply time_bytes_digits|exact He]. }
  split; [apply New_sliceReader; [lia|assumption]|].
  split; [exact Hwf|].
  split.
  { unfold time_bytes. rewrite Time_of_bytes.
    - apply time_bytes_value. assumption.
    - apply time_bytes_digits.
    - exact He.
    - lia. }
  split.
  { unfold Entropy. change (skipn 6 (time_bytes t ++ e)) with e.
    apply copy_same_length. rewrite repeat_length. congruence. }
  split.
  - intros id0 dst H0 Hd. apply binary_roundtrip; assumption.
  - intros id0 dst strict Hd. apply text_roundtrip; assumption.
Qed.

Lemma roundtrip_witness :
  exists id : ULID,
    New 1 1469918176385 ([1; 2; 3; 4; 5; 6; 7; 8; 9; 250] : sliceReader)
      = Some ([] : sliceReader, id, None)
    /\ wf_ULID id /\ Time id = 1469918176385
    /\ Entropy id = [1; 2; 3; 4; 5; 6; 7; 8; 9; 250]
    /\ (forall (id0 : ULID) (dst : list Z),
           wf_ULID id0 -> len dst = RawSize ->
           snd (MarshalBinaryTo id dst) = None
           /\ UnmarshalBinary id0 (fst (MarshalBinaryTo id dst)) = (id, None))
    /\ (forall (id0 : ULID) (dst : list Z) (strict : bool),
           len dst = EncodedSize ->
           snd (MarshalTextTo id dst) = None
           /\ parse (fst (MarshalTextTo id dst)) strict = (id, None)
           /\ UnmarshalText id0 (fst (MarshalTextTo id dst)) = (id, None)).
Proof.
  apply (roundtrip 1469918176385 [1; 2; 3; 4; 5; 6; 7; 8; 9; 250]).
  - rewrite MaxTime_value. lia.
  - reflexivity.
  - repeat (apply Forall_cons; [unfold is_byte; lia|]). apply Forall_nil.
Defined.

(** ** Size checks *)

Lemma UnmarshalText_size (id : ULID) (v : list Z) :
  len v <> EncodedSize -> UnmarshalText id v = (id, Some ErrDataSize).
Proof.
  intros Hl. unfold UnmarshalText. rewrite parse_size by assumption.
  reflexivity.
Qed.

(** [C8] Wrong-size input is refused with [ErrDataSize] whatever it holds:
    [parse] in both modes (hence [Parse] and [ParseStrict]) and
    [UnmarshalText] on a length other than 26, [UnmarshalBinary] on a length
    other than 16, and [UnmarshalJSON] on a length other than 28 or without a
    double quote at positions 0 and 27; the receiver keeps its value. *)
Theorem wrong_size_rejected :
  (forall (v : list Z) (strict : bool) (id : ULID),
      len v <> EncodedSize ->
      parse v strict = (Nil, Some ErrDataSize)
      /\ Parse v = (Nil, Some ErrDataSize)
      /\ ParseStrict v = (Nil, Some ErrDataSize)
      /\ UnmarshalText id v = (id, Some ErrDataSize))
  /\ (forall (data : list Z) (id : ULID),
         len data <> RawSize ->
         UnmarshalBinary id data = (id, Some ErrDataSize))
  /\ (forall (data : list Z) (id : ULID),
         len data <> 28 \/ data.[0] <> dquote \/ data.[27] <> dquote ->
         UnmarshalJSON id data = (id, Some ErrDataSize)).
Proof.
  split; [|split].
  - intros v strict id Hl. unfold Parse, ParseStrict.
    rewrite !parse_size by assumption.
    rewrite UnmarshalText_size by assumption. repeat split.
  - intros data id Hl. unfold UnmarshalBinary.
    destruct (len data =? RawSize) eqn:E; [apply Z.eqb_eq in E; contradiction|].
    reflexivity.
  - intros data id Hbad. unfold UnmarshalJSON.
    destruct (len data =? 28) eqn:E1; [|reflexivity].
    destruct (data.[0] =? dquote) eqn:E2; [|reflexivity].
    destruct (data.[27] =? dquote) eqn:E3; [|reflexivity].
    apply Z.eqb_eq in E1, E2, E3. destruct Hbad as [H|[H|H]]; contradiction.
Qed.

Lemma wrong_size_rejected_witness :
  (parse (str "01ARZ3NDEKTSV4RRFFQ69G5FA") true = (Nil, Some ErrDataSize)
   /\ Parse (str "01ARZ3NDEKTSV4RRFFQ69G5FA") = (Nil, Some ErrDataSize)
   /\ ParseStrict (str "01ARZ3NDEKTSV4RRFFQ69G5FA") = (Nil, Some ErrDataSize)
   /\ UnmarshalText (repeat 7 16) (str "01ARZ3NDEKTSV4RRFFQ69G5FA")
      = (repeat 7 16, Some ErrDataSize))
  /\ UnmarshalBinary (repeat 7 16) (repeat 1 17) = (repeat 7 16, Some ErrDataSize)
  /\ UnmarshalJSON (repeat 7 16) (dquote :: str "01ARZ3NDEKTSV4RRFFQ69G5FAV0")
     = (repeat 7 16, Some ErrDataSize).
Proof.
  destruct wrong_size_rejected as (Htext & Hbin & Hjson).
  split; [|split].
  - apply Htext. vm_compute. discriminate.
  - apply Hbin. vm_compute. discriminate.
  - apply Hjson. right. right. vm_compute. discriminate.
Defined.

(** ** Failure leaves the receiver alone *)

Lemma parse_error_cases (v : list Z) (e : error) :
  snd (parse v false) = Some e ->
  (len v <> EncodedSize /\ e = ErrDataSize)
  \/ (len v = EncodedSize /\ ts_invalid v = true /\ e = ErrInvalidCharacters)
  \/ (len v = EncodedSize /\ ts_invalid v = false
      /\ (v.[0] >? chr "7") = true /\ e = ErrOverflow).
Proof.
  destruct (Z.eq_dec (len v) EncodedSize) as [Hl|Hl].
  - destruct (ts_invalid v) eqn:Hi.
    + rewrite parse_invalid by assumption. cbn [snd].
      intros [= <-]. right. left. auto.
    + destruct (v.[0] >? chr "7") eqn:Ho.
      * rewrite parse_overflow by assumption. cbn [snd].
        intros [= <-]. right. right. auto.
      * rewrite parse_decoded by assumption. cbn [snd andb]. discriminate.
  - rewrite parse_size by assumption. cbn [snd]. intros [= <-]. left. auto.
Qed.

Lemma UnmarshalText_atomic (id : ULID) (v : list Z) (e : error) :
  snd (UnmarshalText id v) = Some e -> fst (UnmarshalText id v) = id.
Proof.
  unfold UnmarshalText. destruct (parse v false) as [ulid [e'|]]; cbn [fst snd].
  - reflexivity.
  - discriminate.
Qed.

Lemma UnmarshalText_error (id : ULID) (v : list Z) :
  snd (UnmarshalText id v) = snd (parse v false).
Proof.
  unfold UnmarshalText. destruct (parse v false) as [ulid [e'|]]; reflexivity.
Qed.

(** [C9] A failing [UnmarshalText] returns the receiver as it was, and it
    fails exactly on a wrong length, on a byte outside the alphabet among the
    first ten positions, or on a first character past ['7']; a failing
    [UnmarshalJSON] and a failing [Scan] of a string or of a byte slice leave
    the receiver as it was too, and [Scan] of nil changes nothing and
    reports no error. *)
Theorem failed_decode_keeps_receiver :
  (forall (id : ULID) (v : list Z) (e : error),
      snd (UnmarshalText id v) = Some e ->
      fst (UnmarshalText id v) = id
      /\ ((len v <> EncodedSize /\ e = ErrDataSize)
          \/ (len v = EncodedSize /\ ts_invalid v = true
              /\ e = ErrInvalidCharacters)
          \/ (len v = EncodedSize /\ ts_invalid v = false
              /\ (v.[0] >? chr "7") = true /\ e = ErrOverflow)))
  /\ (forall (id : ULID) (data : list Z) (e : error),
         snd (UnmarshalJSON id data) = Some e ->
         fst (UnmarshalJSON id data) = id)
  /\ (forall (id : ULID) (x : list Z) (e : error),
         (snd (Scan id (SrcString x)) = Some e ->
          fst (Scan id (SrcString x)) = id)
         /\ (snd (Scan id (SrcBytes x)) = Some e ->
             fst (Scan id (SrcBytes x)) = id))
  /\ (forall id : ULID, Scan id SrcNil = (id, None)).
Proof.
  split; [|split; [|split]].
  - intros id v e He. split.
    + eapply UnmarshalText_atomic. eassumption.
    + apply parse_error_cases. rewrite <- (UnmarshalText_error id). assumption.
  - intros id data e. unfold UnmarshalJSON.
    destruct (_ || _ || _); [reflexivity|].
    apply UnmarshalText_atomic.
  - intros id x e. cbn [Scan]. split; apply UnmarshalText_atomic.
  - reflexivity.
Qed.

Lemma failed_decode_keeps_receiver_witness :
  let id := repeat 7 16 in
  (fst (UnmarshalText id (str "01ARZ3NDE!TSV4RRFFQ69G5FAV")) = id
   /\ snd (UnmarshalText id (str "01ARZ3NDE!TSV4RRFFQ69G5FAV"))
      = Some ErrInvalidCharacters)
  /\ fst (UnmarshalJSON id (dquote :: str "81ARZ3NDEKTSV4RRFFQ69G5FAV" ++ [dquote]))
     = id
  /\ fst (Scan id (SrcString (str "too short"))) = id
  /\ fst (Scan id (SrcBytes (str "Z1ARZ3NDEKTSV4RRFFQ69G5FAV"))) = id
  /\ Scan id SrcNil = (id, None).
Proof.
  intros id.
  destruct failed_decode_keeps_receiver as (Htext & Hjson & Hscan & Hnil).
  split; [|split; [|split; [|split]]].
  - split; [|reflexivity].
    apply (Htext id (str "01ARZ3NDE!TSV4RRFFQ69G5FAV") ErrInvalidCharacters).
    reflexivity.
  - apply (Hjson id _ ErrOverflow). reflexivity.
  - apply (Hscan id (str "too short") ErrDataSize). reflexivity.
  - apply (Hscan id (str "Z1ARZ3NDEKTSV4RRFFQ69G5FAV") ErrOverflow). reflexivity.
  - apply Hnil.
Defined.

(** [C7] [SetTime] with [2^48] or any larger value fails with [ErrBigTime]
    and returns the identifier with all its bytes as they were. *)
Theorem SetTime_too_large (id : ULID) (ms : Z) :
  2 ^ 48 <= ms -> SetTime id ms = (id, Some ErrBigTime).
Proof.
  intros Hms. unfold SetTime.
  assert ((ms >? MaxTime) = true) as ->.
  { rewrite Z.gtb_ltb. apply Z.ltb_lt. rewrite MaxTime_value. lia. }
  reflexivity.
Qed.

Lemma SetTime_too_large_witness :
  SetTime [1; 2; 3; 4; 5; 6; 7; 8; 9; 10; 11; 12; 13; 14; 15; 16] (2 ^ 48)
  = ([1; 2; 3; 4; 5; 6; 7; 8; 9; 10; 11; 12; 13; 14; 15; 16], Some ErrBigTime).
Proof. apply SetTime_too_large. lia. Defined.

(** ** Strict against permissive decoding *)

Lemma nth_byte (v : list Z) (i : nat) : bytes v -> is_byte (nth i v 0).
Proof.
  intros Hv. destruct (Nat.lt_ge_cases i (length v)) as [Hi|Hi].
  - unfold bytes in Hv. rewrite Forall_forall in Hv. apply Hv, nth_In, Hi.
  - rewrite nth_overflow by assumption. unfold is_byte. lia.
Qed.

Lemma ts_invalid_iff (v : list Z) :
  ts_invalid v = true <-> exists i, (i < 10)%nat /\ dec_at v.[i] = 0xFF.
Proof.
  unfold ts_invalid. split.
  - intros Hi. repeat (apply orb_true_iff in Hi; destruct Hi as [Hi|Hi]);
      apply Z.eqb_eq in Hi;
      match type of Hi with
      | dec_at (nth ?i _ _) = _ => exists i; split; [lia|exact Hi]
      end.
  - intros (i & Hi & Hd).
    do 10 (destruct i as [|i];
           [apply Z.eqb_eq in Hd; rewrite Hd;
            rewrite ?orb_true_r, ?orb_true_l; reflexivity|]).
    lia.
Qed.

Lemma ts_valid_iff (v : list Z) :
  ts_invalid v = false <-> forall i, (i < 10)%nat -> dec_at v.[i] <> 0xFF.
Proof.
  split.
  - intros Hf i Hi Hd.
    assert (ts_invalid v = true) by (apply ts_invalid_iff; eauto).
    congruence.
  - intros Hall. destruct (ts_invalid v) eqn:E; [|reflexivity].
    apply ts_invalid_iff in E. destruct E as (i & Hi & Hd).
    exfalso. exact (Hall i Hi Hd).
Qed.

Lemma strict_scan_true (v : list Z) (c : Z) :
  In c v -> dec_at c = 0xFF -> strict_scan v = true.
Proof.
  intros Hin Hd. destruct (strict_scan v) eqn:E; [reflexivity|].
  apply strict_scan_false in E. rewrite Forall_forall in E.
  exfalso. exact (E c Hin Hd).
Qed.

Lemma dec_outside (c : Z) : is_byte c -> in_alphabet c = false -> dec_at c = 0xFF.
Proof.
  intros Hc Ha. pose proof (dec_invalid c Hc) as Hd.
  rewrite Ha in Hd. apply Z.eqb_eq. exact Hd.
Qed.

Lemma dec_inside (c : Z) : is_byte c -> in_alphabet c = true -> dec_at c <> 0xFF.
Proof.
  intros Hc Ha. pose proof (dec_invalid c Hc) as Hd.
  rewrite Ha in Hd. apply Z.eqb_neq. exact Hd.
Qed.

Lemma dec_crockford (c d : Z) :
  is_byte c -> crockford_value c = Some d -> dec_at c = d.
Proof.
  intros Hc Hv. rewrite dec_sentinel by assumption.
  unfold sentinel_value. rewrite Hv. reflexivity.
Qed.

Lemma crockford_in_alphabet (c d : Z) :
  crockford_value c = Some d -> in_alphabet c = true.
Proof. unfold in_alphabet. intros ->. reflexivity. Qed.

Section StrictPermissive.
Variable v : list Z.
Hypothesis Hlen : len v = EncodedSize.
Hypothesis Hv : bytes v.

Lemma timestamp_chars_valid :
  (forall i, (i < 10)%nat -> in_alphabet v.[i] = true) -> ts_invalid v = false.
Proof.
  intros Hall. apply ts_valid_iff. intros i Hi.
  apply dec_inside; [apply nth_byte; assumption|auto].
Qed.

Lemma timestamp_char_invalid (i : nat) :
  (i < 10)%nat -> in_alphabet v.[i] = false -> ts_invalid v = true.
Proof.
  intros Hi Ha. apply ts_invalid_iff. exists i. split; [assumption|].
  apply dec_outside; [apply nth_byte; assumption|assumption].
Qed.

Lemma first_char_test (d : Z) :
  crockford_value v.[0] = Some d -> (v.[0] >? chr "7") = (d >? 7).
Proof.
  intros Hd.
  rewrite overflow_char.
  - rewrite (dec_crockford _ d); [reflexivity|apply nth_byte; assumption|assumption].
  - apply nth_byte; assumption.
  - eapply crockford_in_alphabet; eassumption.
Qed.

Lemma entropy_char_invalid (i : nat) :
  (i < 26)%nat -> in_alphabet v.[i] = false -> strict_scan v = true.
Proof.
  intros Hi Ha. apply (strict_scan_true v v.[i]).
  - apply nth_In. unfold len, EncodedSize in Hlen. lia.
  - apply dec_outside; [apply nth_byte; assumption|assumption].
Qed.
End StrictPermissive.

(** [C5] On a 26-byte input: when the first ten characters are in the
    alphabet, the first one is worth at most 7 and some character among
    positions 11 to 26 is outside the alphabet, [ParseStrict] fails with
    [ErrInvalidCharacters] and [Parse] succeeds; a character outside the
    alphabet among the first ten makes both modes fail alike with
    [ErrInvalidCharacters]; and a first character worth more than 7, the
    first ten being in the alphabet, makes both fail alike with
    [ErrOverflow]; with both defects at once the two modes still agree, on
    [ErrInvalidCharacters]. *)
Theorem strict_vs_permissive (v : list Z) :
  len v = EncodedSize -> bytes v ->
  ((forall i, (i < 10)%nat -> in_alphabet v.[i] = true) ->
   (exists d, crockford_value v.[0] = Some d /\ d <= 7) ->
   (exists i, (10 <= i < 26)%nat /\ in_alphabet v.[i] = false) ->
   snd (ParseStrict v) = Some ErrInvalidCharacters /\ snd (Parse v) = None)
  /\ ((exists i, (i < 10)%nat /\ in_alphabet v.[i] = false) ->
      forall strict, parse v strict = (Nil, Some ErrInvalidCharacters))
  /\ ((forall i, (i < 10)%nat -> in_alphabet v.[i] = true) ->
      (exists d, crockford_value v.[0] = Some d /\ 7 < d) ->
      forall strict, parse v strict = (Nil, Some ErrOverflow))
  /\ ((exists d, crockford_value v.[0] = Some d /\ 7 < d) ->
      forall strict,
        parse v strict = parse v false
        /\ (parse v false = (Nil, Some ErrOverflow)
            \/ parse v false = (Nil, Some ErrInvalidCharacters))).
Proof.
  intros Hlen Hv. split; [|split; [|split]].
  - intros Hten (d & Hd & Hle) (i & Hi & Ha).
    pose proof (timestamp_chars_valid v Hv Hten) as Hts.
    assert (Ho : (v.[0] >? chr "7") = false).
    { rewrite (first_char_test v Hv d Hd). rewrite Z.gtb_ltb. apply Z.ltb_ge. lia. }
    unfold ParseStrict, Parse. rewrite !parse_decoded by assumption.
    cbn [snd andb].
    rewrite (entropy_char_invalid v Hlen Hv i) by (lia || assumption).
    split; reflexivity.
  - intros (i & Hi & Ha) strict.
    apply parse_invalid; [assumption|].
    eapply timestamp_char_invalid; eassumption.
  - intros Hten (d & Hd & Hlt) strict.
    apply parse_overflow; [assumption| |].
    + apply timestamp_chars_valid; assumption.
    + rewrite (first_char_test v Hv d Hd). rewrite Z.gtb_ltb. apply Z.ltb_lt. lia.
  - intros (d & Hd & Hlt) strict.
    destruct (ts_invalid v) eqn:Hts.
    + rewrite !parse_invalid by assumption. auto.
    + assert (Ho : (v.[0] >? chr "7") = true).
      { rewrite (first_char_test v Hv d Hd). rewrite Z.gtb_ltb.
        apply Z.ltb_lt. lia. }
      rewrite !parse_overflow by assumption. auto.
Qed.

Ltac first_ten :=
  let i := fresh "i" in
  let Hi := fresh "Hi" in
  intros i Hi; do 10 (destruct i as [|i]; [reflexivity|]); lia.

Lemma bytes_check (v : list Z) :
  forallb (fun b => (0 <=? b) && (b <? 256)) v = true -> bytes v.
Proof.
  intros Hc. apply Forall_forall. intros b Hb.
  rewrite forallb_forall in Hc. apply Hc in Hb.
  apply andb_true_iff in Hb. unfold is_byte. lia.
Qed.

Ltac concrete_bytes := apply bytes_check; vm_compute; reflexivity.

Lemma strict_vs_permissive_witness :
  (snd (ParseStrict (str "01ARZ3NDEKTSV4RRFFQ69G5F!V")) = Some ErrInvalidCharacters
   /\ snd (Parse (str "01ARZ3NDEKTSV4RRFFQ69G5F!V")) = None)
  /\ (forall strict, parse (str "01ARZ3NDE!TSV4RRFFQ69G5FAV") strict
                     = (Nil, Some ErrInvalidCharacters))
  /\ (forall strict, parse (str "81ARZ3NDEKTSV4RRFFQ69G5FAV") strict
                     = (Nil, Some ErrOverflow))
  /\ (forall strict,
         parse (str "Z1ARZ3NDE!TSV4RRFFQ69G5FAV") strict
         = parse (str "Z1ARZ3NDE!TSV4RRFFQ69G5FAV") false
         /\ (parse (str "Z1ARZ3NDE!TSV4RRFFQ69G5FAV") false
             = (Nil, Some ErrOverflow)
             \/ parse (str "Z1ARZ3NDE!TSV4RRFFQ69G5FAV") false
                = (Nil, Some ErrInvalidCharacters))).
Proof.
  split; [|split; [|split]].
  - destruct (strict_vs_permissive (str "01ARZ3NDEKTSV4RRFFQ69G5F!V"))
      as (Hentropy & _); [reflexivity|concrete_bytes|].
    apply Hentropy.
    + first_ten.
    + exists 0. split; [reflexivity|lia].
    + exists 24%nat. split; [lia|reflexivity].
  - destruct (strict_vs_permissive (str "01ARZ3NDE!TSV4RRFFQ69G5FAV"))
      as (_ & Hinvalid & _); [reflexivity|concrete_bytes|].
    apply Hinvalid. exists 9%nat. split; [lia|reflexivity].
  - destruct (strict_vs_permissive (str "81ARZ3NDEKTSV4RRFFQ69G5FAV"))
      as (_ & _ & Hoverflow & _); [reflexivity|concrete_bytes|].
    apply Hoverflow.
    + first_ten.
    + exists 8. split; [reflexivity|lia].
  - destruct (strict_vs_permissive (str "Z1ARZ3NDE!TSV4RRFFQ69G5FAV"))
      as (_ & _ & _ & Hboth); [reflexivity|concrete_bytes|].
    apply Hboth. exists 31. split; [reflexivity|lia].
Defined.

(** ** Permissive decoding is a function of the input *)

Lemma decode_eqns_ext (f g : nat -> Z) :
  (forall i, f i = g i) -> decode_eqns f = decode_eqns g.
Proof. intros Hfg. unfold decode_eqns. rewrite !Hfg. reflexivity. Qed.

Lemma Parse_accepts_iff (v : list Z) :
  bytes v ->
  (snd (Parse v) = None
   <-> len v = EncodedSize
       /\ (forall i, (i < 10)%nat -> in_alphabet v.[i] = true)
       /\ exists d, crockford_value v.[0] = Some d /\ d <= 7).
Proof.
  intros Hv. unfold Parse. split.
  - intros Hok.
    destruct (Z.eq_dec (len v) EncodedSize) as [Hl|Hl];
      [|rewrite parse_size in Hok by assumption; discriminate].
    destruct (ts_invalid v) eqn:Hts;
      [rewrite parse_invalid in Hok by assumption; discriminate|].
    destruct (v.[0] >? chr "7") eqn:Ho;
      [rewrite parse_overflow in Hok by assumption; discriminate|].
    assert (Hten : forall i, (i < 10)%nat -> in_alphabet v.[i] = true).
    { intros i Hi. destruct (in_alphabet v.[i]) eqn:Ha; [reflexivity|].
      rewrite (timestamp_char_invalid v Hv i Hi Ha) in Hts. discriminate. }
    split; [assumption|]. split; [assumption|].
    pose proof (Hten 0%nat ltac:(lia)) as H0.
    unfold in_alphabet in H0.
    destruct (crockford_value v.[0]) as [d|] eqn:Hd; [|discriminate].
    exists d. split; [reflexivity|].
    rewrite (first_char_test v Hv d Hd) in Ho.
    rewrite Z.gtb_ltb in Ho. apply Z.ltb_ge in Ho. assumption.
  - intros (Hl & Hten & d & Hd & Hle).
    rewrite parse_decoded; [reflexivity|assumption| |].
    + apply timestamp_chars_valid; assumption.
    + rewrite (first_char_test v Hv d Hd). rewrite Z.gtb_ltb. apply Z.ltb_ge. lia.
Qed.

(** [C10] [Parse] is a total function of its input: every input has a
    result, equal inputs have equal results, and on every input it accepts
    the identifier is the value of the decode equations at the table values
    of the 26 characters, where a character outside the alphabet counts as
    the sentinel [0xFF]; an invalid entropy character therefore decodes to a
    fixed bit pattern, as the example with ['!'] at position 11 shows. *)
Theorem Parse_deterministic :
  (forall v : list Z, exists (id : ULID) (err : option error), Parse v = (id, err))
  /\ (forall v1 v2 : list Z, v1 = v2 -> Parse v1 = Parse v2)
  /\ (forall (v : list Z) (id : ULID),
         bytes v -> Parse v = (id, None) ->
         id = decode_eqns (fun i => sentinel_value v.[i]))
  /\ Parse (str "0000000000!000000000000000")
     = ([0; 0; 0; 0; 0; 0; 0xF8; 0; 0; 0; 0; 0; 0; 0; 0; 0], None).
Proof.
  split; [|split; [|split]].
  - intros v. destruct (Parse v) as [id err]. eauto.
  - intros v1 v2 ->. reflexivity.
  - intros v id Hv Hp.
    assert (Hok : snd (Parse v) = None) by (rewrite Hp; reflexivity).
    apply Parse_accepts_iff in Hok; [|assumption].
    destruct Hok as (Hl & Hten & d & Hd & Hle).
    unfold Parse in Hp. rewrite parse_decoded in Hp.
    + injection Hp as <-. apply decode_eqns_ext.
      intros i. apply dec_sentinel, nth_byte. assumption.
    + assumption.
    + apply timestamp_chars_valid; assumption.
    + rewrite (first_char_test v Hv d Hd). rewrite Z.gtb_ltb. apply Z.ltb_ge. lia.
  - reflexivity.
Qed.

Lemma Parse_deterministic_witness :
  Parse (str "01ARZ3NDEKTSV4RRFFQ69G5F!V") = Parse (str "01ARZ3NDEKTSV4RRFFQ69G5F!V")
  /\ [1; 86; 62; 58; 181; 211; 214; 118; 76; 97; 239; 185; 147; 2; 191; 251]
     = decode_eqns (fun i => sentinel_value (str "01ARZ3NDEKTSV4RRFFQ69G5F!V").[i]).
Proof.
  destruct Parse_deterministic as (_ & Hdet & Hval & _). split.
  - apply Hdet. reflexivity.
  - apply Hval; [concrete_bytes|reflexivity].
Defined.

(** ** [SetTime] *)

Lemma byte_of_shift (ms k : Z) :
  0 <= ms <= MaxTime -> 0 <= k ->
  byte_of (u64 (Z.shiftl ms 16) :>> (k + 16)) = byte_of (ms :>> k).
Proof.
  rewrite MaxTime_value. intros Hms Hk.
  unfold u64. rewrite Z.shiftl_mul_pow2 by lia.
  rewrite Z.mod_small by lia.
  rewrite !Z.shiftr_div_pow2 by lia.
  rewrite Z.pow_add_r by lia.
  rewrite Z.div_mul_cancel_r by lia. reflexivity.
Qed.

Lemma byte_of_low16 (ms : Z) :
  0 <= ms <= MaxTime ->
  byte_of (u64 (Z.shiftl ms 16) :>> 8) = 0 /\ byte_of (u64 (Z.shiftl ms 16)) = 0.
Proof.
  rewrite MaxTime_value. intros Hms.
  unfold u64, byte_of. rewrite Z.shiftl_mul_pow2 by lia.
  rewrite (Z.mod_small (ms * 2 ^ 16)) by lia.
  rewrite Z.shiftr_div_pow2 by lia.
  change (2 ^ 16) with 65536. change (2 ^ 8) with 256.
  change (2 ^ 48) with 281474976710656 in Hms.
  split; Z.div_mod_to_equations; lia.
Qed.

(** What [SetTime] does on an accepted timestamp: the first six bytes take
    the timestamp, bytes 6 and 7 become zero, bytes 8 to 15 stay. *)
Lemma SetTime_effect (id : ULID) (ms : Z) :
  wf_ULID id -> 0 <= ms <= MaxTime ->
  SetTime id ms = (time_bytes ms ++ [0; 0] ++ skipn 8 id, None)
  /\ Time (fst (SetTime id ms)) = ms.
Proof.
  intros Hwf Hms.
  assert (Hset : SetTime id ms = (time_bytes ms ++ [0; 0] ++ skipn 8 id, None)).
  { unfold SetTime.
    assert ((ms >? MaxTime) = false) as ->
        by (rewrite Z.gtb_ltb; apply Z.ltb_ge; lia).
    explode_ULID Hwf. unfold BigEndian_PutUint64. cbn [firstn skipn app].
    change 56 with (40 + 16). change 48 with (32 + 16).
    change 40 with (24 + 16) at 2. change 32 with (16 + 16) at 2.
    change 24 with (8 + 16) at 2. change (?x :>> 16) with (x :>> (0 + 16)).
    rewrite !byte_of_shift by lia.
    destruct (byte_of_low16 ms Hms) as [-> ->].
    rewrite Z.shiftr_0_r. reflexivity. }
  split; [exact Hset|].
  rewrite Hset. cbn [fst]. unfold time_bytes.
  rewrite Time_of_bytes.
  - apply time_bytes_value. assumption.
  - apply time_bytes_digits.
  - apply Forall_app. split.
    + repeat (apply Forall_cons; [unfold is_byte; lia|]). apply Forall_nil.
    + destruct Hwf as [_ Hb]. unfold bytes in *.
      rewrite <- (firstn_skipn 8 id) in Hb. apply Forall_app in Hb. tauto.
  - cbn [app length]. lia.
Qed.

(** [C4] The code at a failing input: [SetTime] with the valid timestamp 5
    stores 5 in bytes 0 to 5, so that [Time] returns 5, and also replaces the
    entropy bytes 6 and 7, which held 7 and 8, by zero. *)
Theorem SetTime_overwrites_entropy :
  let id := [0; 0; 0; 0; 0; 1; 7; 8; 9; 10; 11; 12; 13; 14; 15; 16] in
  SetTime id 5 = ([0; 0; 0; 0; 0; 5; 0; 0; 9; 10; 11; 12; 13; 14; 15; 16], None)
  /\ Time (fst (SetTime id 5)) = 5
  /\ Entropy id = [7; 8; 9; 10; 11; 12; 13; 14; 15; 16]
  /\ Entropy (fst (SetTime id 5)) = [0; 0; 9; 10; 11; 12; 13; 14; 15; 16].
Proof. vm_compute. repeat split. Qed.

(** ** The monotonic reader *)

Lemma mono_emit_shape (c : Z) (p : list Z) :
  length p = 10%nat ->
  mono_emit c p = time_bytes c ++ [p.[8]; p.[9]; p.[8]; p.[9]].
Proof.
  intros Hl.
  do 10 (destruct p as [|? p]; [discriminate Hl|]).
  destruct p; [|discriminate Hl].
  reflexivity.
Qed.

Lemma len_10 (p : list Z) : (len p =? 10) = true <-> length p = 10%nat.
Proof. unfold len. rewrite Z.eqb_eq. lia. Qed.

Section Mono.
Context {R : Type} `{Reader R}.
Variable fuel : nat.

Lemma mono_read_success (m m' : monoReader R) (p q : list Z) :
  monoReader_Read fuel m p = Some (m', q, 10, None) ->
  length p = 10%nat /\ q = mono_emit (m_inc m') p.
Proof.
  unfold monoReader_Read.
  destruct (len p =? 10) eqn:El; cbn [negb]; [|discriminate].
  apply len_10 in El. intros Hr. split; [exact El|].
  destruct (m_ms m =? 0).
  - destruct (binary_Read_uint64 fuel (mReader m)) as [[r' [x|e]]|];
      try discriminate.
    injection Hr as <- <-. reflexivity.
  - cbn [m_inc m_rand] in Hr.
    destruct (u64 (m_inc m + 1) <? m_rand m); [discriminate|].
    injection Hr as <- <-. reflexivity.
Qed.

Lemma mono_read_increment (m : monoReader R) (p : list Z) :
  m_ms m <> 0 -> length p = 10%nat ->
  m_rand m <= m_inc m + 1 < 2 ^ 64 -> 0 <= m_inc m + 1 ->
  monoReader_Read fuel m p
  = Some (mkMono (mReader m) (m_ms m) (m_inc m + 1) (m_rand m),
          time_bytes (m_inc m + 1) ++ [p.[8]; p.[9]; p.[8]; p.[9]],
          10, None).
Proof.
  intros Hms Hl Hinc H0. unfold monoReader_Read.
  apply len_10 in Hl as El. rewrite El. cbn [negb].
  apply Z.eqb_neq in Hms. rewrite Hms. cbn [m_inc m_rand].
  unfold u64. rewrite Z.mod_small by lia.
  assert ((m_inc m + 1 <? m_rand m) = false) as -> by (apply Z.ltb_ge; lia).
  rewrite mono_emit_shape by assumption. reflexivity.
Qed.

Lemma mono_read_overflow (m : monoReader R) (p : list Z) :
  m_ms m <> 0 -> length p = 10%nat ->
  m_inc m = MaxUint64 -> 0 < m_rand m ->
  monoReader_Read fuel m p
  = Some (mkMono (mReader m) (m_ms m) 0 (m_rand m), p, 0,
          Some ErrMonotonicOverflow).
Proof.
  intros Hms Hl Hinc Hr. unfold monoReader_Read.
  apply len_10 in Hl as El. rewrite El. cbn [negb].
  apply Z.eqb_neq in Hms. rewrite Hms. cbn [m_inc m_rand].
  rewrite Hinc. change (u64 (MaxUint64 + 1)) with 0.
  assert ((0 <? m_rand m) = true) as -> by (apply Z.ltb_lt; lia).
  reflexivity.
Qed.

Lemma consecutive_reads_shape (ps : list (list Z)) (m : monoReader R) :
  m_ms m <> 0 -> Forall (fun p => length p = 10%nat) ps ->
  m_rand m <= m_inc m -> 0 <= m_inc m ->
  m_inc m + Z.of_nat (length ps) < 2 ^ 64 ->
  consecutive_reads fuel m ps
  = Some (mkMono (mReader m) (m_ms m) (m_inc m + Z.of_nat (length ps))
            (m_rand m),
          mono_outputs (m_inc m) ps).
Proof.
  intros Hms Hps. revert m Hms.
  induction Hps as [|p ps Hp Hps IH]; intros m Hms Hr H0 Hn.
  - cbn [consecutive_reads length mono_outputs Z.of_nat].
    rewrite Z.add_0_r. destruct m; reflexivity.
  - cbn [length] in Hn. rewrite Nat2Z.inj_succ in Hn.
    cbn [consecutive_reads mono_outputs].
    rewrite mono_read_increment by (assumption || lia).
    rewrite IH; cbn [m_ms m_inc m_rand mReader]; try (assumption || lia).
    cbn [length]. rewrite Nat2Z.inj_succ.
    replace (m_inc m + 1 + Z.of_nat (length ps))
      with (m_inc m + Z.succ (Z.of_nat (length ps))) by lia.
    reflexivity.
Qed.
End Mono.

Lemma time_bytes_mod (x : Z) :
  0 <= x -> be_value 256 (time_bytes x) = x mod 2 ^ 48.
Proof.
  intros Hx. unfold time_bytes, byte_of, be_value. cbn [fold_left].
  rewrite !Z.shiftr_div_pow2 by lia.
  change (2 ^ 40) with 1099511627776. change (2 ^ 32) with 4294967296.
  change (2 ^ 24) with 16777216. change (2 ^ 16) with 65536.
  change (2 ^ 8) with 256. change (2 ^ 48) with 281474976710656.
  Z.div_mod_to_equations. lia.
Qed.

Lemma mono_output_value (c : Z) (p : list Z) :
  0 <= c -> bytes p ->
  (c mod 2 ^ 48) * 2 ^ 32
  <= be_value 256 (time_bytes c ++ [p.[8]; p.[9]; p.[8]; p.[9]])
  < (c mod 2 ^ 48 + 1) * 2 ^ 32.
Proof.
  intros Hc Hp.
  rewrite be_value_app, time_bytes_mod by assumption.
  assert (Hj : Forall (digit 256) [p.[8]; p.[9]; p.[8]; p.[9]]).
  { repeat (apply Forall_cons; [apply nth_byte; assumption|]). apply Forall_nil. }
  apply (be_value_bound 256 ltac:(lia)) in Hj.
  cbn [length] in *. change (256 ^ Z.of_nat 4) with (2 ^ 32) in *.
  lia.
Qed.

Lemma mono_outputs_sorted (ps : list (list Z)) (c : Z) :
  0 <= c -> Forall bytes ps ->
  (forall k, 1 <= k <= Z.of_nat (length ps) ->
             (c + k) / 2 ^ 48 = (c + 1) / 2 ^ 48) ->
  Sorted Z.lt (map (be_value 256) (mono_outputs c ps)).
Proof.
  intros Hc Hps. revert c Hc.
  induction Hps as [|p ps Hp Hps IH]; intros c Hc Hblock.
  - constructor.
  - cbn [mono_outputs map].
    destruct ps as [|p' ps].
    + constructor; constructor.
    + assert (Hq : (c + 1 + 1) / 2 ^ 48 = (c + 1) / 2 ^ 48).
      { rewrite <- Z.add_assoc. apply Hblock. cbn [length].
        rewrite !Nat2Z.inj_succ. lia. }
      constructor.
      * apply IH; [lia|]. intros k Hk.
        rewrite Hq, <- Z.add_assoc. apply Hblock.
        cbn [length] in *. rewrite !Nat2Z.inj_succ in *. lia.
      * cbn [mono_outputs map]. constructor.
        apply Forall_cons_iff in Hps. destruct Hps as [Hp' _].
        pose proof (mono_output_value (c + 1) p ltac:(lia) Hp) as V1.
        pose proof (mono_output_value (c + 1 + 1) p' ltac:(lia) Hp') as V2.
        assert ((c + 1 + 1) mod 2 ^ 48 = (c + 1) mod 2 ^ 48 + 1).
        { change (2 ^ 48) with 281474976710656 in *.
          Z.div_mod_to_equations. lia. }
        nia.
Qed.

Lemma mono_outputs_increasing (ps : list (list Z)) (c : Z) :
  0 <= c -> Forall bytes ps ->
  (forall k, 1 <= k <= Z.of_nat (length ps) ->
             (c + k) / 2 ^ 48 = (c + 1) / 2 ^ 48) ->
  increasing (mono_outputs c ps).
Proof.
  intros Hc Hps Hblock. unfold increasing.
  apply Sorted_StronglySorted.
  - intros x y z. apply Z.lt_trans.
  - apply mono_outputs_sorted; assumption.
Qed.

Lemma mono_outputs_wf (ps : list (list Z)) (c : Z) :
  Forall bytes ps ->
  Forall (fun q => length q = 10%nat /\ bytes q) (mono_outputs c ps).
Proof.
  intros Hps. revert c. induction Hps as [|p ps Hp Hps IH]; intros c.
  - constructor.
  - cbn [mono_outputs]. constructor; [|apply IH]. split; [reflexivity|].
    apply Forall_app. split; [apply time_bytes_digits|].
    repeat (apply Forall_cons; [apply nth_byte; assumption|]). apply Forall_nil.
Qed.

(** ** Identifiers drawn from one monotonic reader *)

Lemma string_compare_refl (l : list Z) : string_compare l l = Eq.
Proof.
  induction l as [|x l IH]; cbn [string_compare]; [reflexivity|].
  rewrite Z.compare_refl. exact IH.
Qed.

Lemma Compare_same_time (tb q1 q2 : list Z) :
  length tb = 6%nat ->
  length q1 = 10%nat -> length q2 = 10%nat -> bytes q1 -> bytes q2 ->
  be_value 256 q1 < be_value 256 q2 ->
  Compare (tb ++ q1) (tb ++ q2) = -1.
Proof.
  intros Ht H1 H2 B1 B2 Hlt.
  rewrite Compare_string_compare by (rewrite length_app; lia).
  rewrite string_compare_app, string_compare_refl by reflexivity.
  rewrite (string_compare_value 256) by (lia || congruence || assumption).
  apply Z.compare_lt_iff in Hlt. rewrite Hlt. reflexivity.
Qed.

Lemma ascending_of_increasing (tb : list Z) (qs : list (list Z)) :
  length tb = 6%nat ->
  Forall (fun q => length q = 10%nat /\ bytes q) qs ->
  increasing qs -> ascending (map (app tb) qs).
Proof.
  intros Ht Hqs. unfold increasing, ascending.
  induction Hqs as [|q qs [Hl Hb] Hqs IH]; intros Hs; cbn [map] in *.
  - constructor.
  - apply StronglySorted_inv in Hs. destruct Hs as [Hs Hhd].
    constructor; [apply IH; assumption|].
    apply Forall_map. rewrite Forall_map in Hhd.
    rewrite Forall_forall in *. intros q' Hin.
    destruct (Hqs q' Hin) as [Hl' Hb'].
    apply Compare_same_time; auto.
Qed.

Section MonoNew.
Context {R : Type} `{Reader R}.
Variable fuel : nat.

Lemma New_mono (ts : Z) (m : monoReader R) :
  ts <= MaxTime -> m_ms m <> 0 ->
  m_rand m <= m_inc m + 1 < 2 ^ 64 -> 0 <= m_inc m + 1 ->
  @New _ (monoReader_Reader fuel) 1 ts m
  = Some (mkMono (mReader m) (m_ms m) (m_inc m + 1) (m_rand m),
          time_bytes ts ++ time_bytes (m_inc m + 1) ++ [0; 0; 0; 0],
          None).
Proof.
  intros Hts Hms Hinc H0. unfold New.
  assert ((ts >? MaxTime) = false) as ->
      by (rewrite Z.gtb_ltb; apply Z.ltb_ge; lia).
  change (skipn 6 (_ ++ repeat 0 10)) with (repeat 0 10).
  unfold ReadFull. cbn [ReadAtLeast_loop].
  change (0 <? len (repeat 0 10)) with true. cbv iota.
  change (Read m (skipn (Z.to_nat 0) (repeat 0 10)))
    with (monoReader_Read fuel m (repeat 0 10)).
  rewrite mono_read_increment by (assumption || reflexivity).
  reflexivity.
Qed.

Lemma consecutive_News_shape (n : nat) (ts : Z) (m : monoReader R) :
  ts <= MaxTime -> m_ms m <> 0 ->
  m_rand m <= m_inc m -> 0 <= m_inc m ->
  m_inc m + Z.of_nat n < 2 ^ 64 ->
  consecutive_News fuel n ts m
  = Some (mkMono (mReader m) (m_ms m) (m_inc m + Z.of_nat n) (m_rand m),
          map (app (time_bytes ts))
              (mono_outputs (m_inc m) (repeat (repeat 0 10) n))).
Proof.
  intros Hts. revert m.
  induction n as [|n IH]; intros m Hms Hr H0 Hn.
  - cbn [consecutive_News repeat mono_outputs map Z.of_nat].
    rewrite Z.add_0_r. destruct m; reflexivity.
  - rewrite Nat2Z.inj_succ in Hn.
    cbn [consecutive_News repeat mono_outputs map].
    rewrite New_mono by (assumption || lia).
    rewrite IH; cbn [m_ms m_inc m_rand mReader]; try (assumption || lia).
    rewrite Nat2Z.inj_succ.
    replace (m_inc m + 1 + Z.of_nat n) with (m_inc m + Z.succ (Z.of_nat n))
      by lia.
    reflexivity.
Qed.
End MonoNew.

(** Runs in which the monotonic reader does increase.  In the increment
    branch (non-zero timestamp marker), with the counter [c] at or above the
    seed: [N] consecutive 10-byte reads all succeed when [c + N <= 2^64 - 1]
    and leave the counter at [c + N]; whenever the counters [c + 1 .. c + N]
    agree on their two high-order bytes, the ones the reader does not emit,
    the [N] entropy values are strictly increasing as 80-bit big-endian
    integers and so are the identifiers [New] builds from them for one
    timestamp; and the read made when the counter is at [2^64 - 1] and the
    seed is not zero fails with [ErrMonotonicOverflow], gives the buffer back
    untouched and leaves the counter at 0. *)
Lemma monotonic_run {R : Type} `{Reader R} (fuel : nat) (m : monoReader R) :
  m_ms m <> 0 -> 0 <= m_rand m <= m_inc m -> m_inc m <= MaxUint64 ->
  (forall ps : list (list Z),
      Forall (fun p => length p = 10%nat /\ bytes p) ps ->
      m_inc m + Z.of_nat (length ps) <= MaxUint64 ->
      exists (m' : monoReader R) (qs : list (list Z)),
        consecutive_reads fuel m ps = Some (m', qs)
        /\ length qs = length ps
        /\ m_inc m' = m_inc m + Z.of_nat (length ps)
        /\ ((forall k, 1 <= k <= Z.of_nat (length ps) ->
                       (m_inc m + k) / 2 ^ 48 = (m_inc m + 1) / 2 ^ 48) ->
            increasing qs))
  /\ (forall (n : nat) (ts : Z),
         0 <= ts <= MaxTime ->
         m_inc m + Z.of_nat n <= MaxUint64 ->
         exists (m' : monoReader R) (ids : list ULID),
           consecutive_News fuel n ts m = Some (m', ids)
           /\ length ids = n
           /\ Forall (fun id => wf_ULID id /\ Time id = ts) ids
           /\ ((forall k, 1 <= k <= Z.of_nat n ->
                          (m_inc m + k) / 2 ^ 48 = (m_inc m + 1) / 2 ^ 48) ->
               ascending ids))
  /\ (forall p : list Z,
         length p = 10%nat -> m_inc m = MaxUint64 -> 0 < m_rand m ->
         monoReader_Read fuel m p
         = Some (mkMono (mReader m) (m_ms m) 0 (m_rand m), p, 0,
                 Some ErrMonotonicOverflow)).
Proof.
  intros Hms Hinv Hmax. unfold MaxUint64 in *.
  split; [|split].
  - intros ps Hps Hn.
    assert (Hlen : Forall (fun p => length p = 10%nat) ps)
      by (eapply Forall_impl; [|exact Hps]; cbv beta; tauto).
    assert (Hbytes : Forall bytes ps)
      by (eapply Forall_impl; [|exact Hps]; cbv beta; tauto).
    eexists. eexists.
    split; [apply consecutive_reads_shape; assumption || lia|].
    split.
    { clear. generalize (m_inc m). induction ps as [|p ps IH]; intros c;
        cbn [mono_outputs length]; [reflexivity|]. rewrite IH. reflexivity. }
    split; [reflexivity|].
    intros Hblock. apply mono_outputs_increasing; assumption || lia.
  - intros n ts Hts Hn.
    assert (Hz : Forall bytes (repeat (repeat 0 10) n)).
    { apply Forall_forall. intros p Hp. apply repeat_spec in Hp. subst p.
      apply bytes_check. reflexivity. }
    eexists. eexists.
    split; [apply consecutive_News_shape; assumption || lia|].
    split; [rewrite length_map; clear; generalize (m_inc m);
            induction n as [|n IH]; intros c; cbn [repeat mono_outputs length];
            [reflexivity|rewrite IH; reflexivity]|].
    split.
    + apply Forall_map.
      eapply Forall_impl; [|apply (mono_outputs_wf _ (m_inc m) Hz)].
      cbv beta. intros q [Hl Hb].
      assert (Hwf : wf_ULID (time_bytes ts ++ q)).
      { split; [rewrite length_app, Hl; reflexivity|].
        apply Forall_app. split; [apply time_bytes_digits|exact Hb]. }
      split; [exact Hwf|].
      unfold time_bytes. rewrite Time_of_bytes.
      * apply time_bytes_value. assumption.
      * apply time_bytes_digits.
      * exact Hb.
      * lia.
    + intros Hblock. apply ascending_of_increasing.
      * reflexivity.
      * apply mono_outputs_wf. assumption.
      * apply mono_outputs_increasing; try (assumption || lia).
        rewrite repeat_length. assumption.
  - intros p Hp Hinc Hr. apply mono_read_overflow; assumption.
Qed.

Lemma monotonic_run_witness :
  let m1 := mkMono ([] : sliceReader) 7 100 100 in
  let m2 := mkMono ([] : sliceReader) 7 MaxUint64 5 in
  (exists (m' : monoReader sliceReader) (qs : list (list Z)),
      consecutive_reads 1 m1 [repeat 0 10; repeat 1 10] = Some (m', qs)
      /\ length qs = 2%nat /\ m_inc m' = 102 /\ increasing qs)
  /\ (exists (m' : monoReader sliceReader) (ids : list ULID),
         consecutive_News 1 3 5 m1 = Some (m', ids)
         /\ length ids = 3%nat
         /\ Forall (fun id => wf_ULID id /\ Time id = 5) ids
         /\ ascending ids)
  /\ monoReader_Read 1 m2 (repeat 0 10)
     = Some (mkMono ([] : sliceReader) 7 0 5, repeat 0 10, 0,
             Some ErrMonotonicOverflow).
Proof.
  intros m1 m2.
  assert (Hblock : forall n k, 1 <= k <= n -> n <= 3 ->
                               (100 + k) / 2 ^ 48 = (100 + 1) / 2 ^ 48).
  { intros n k Hk Hn. rewrite !Z.div_small by lia. reflexivity. }
  destruct (monotonic_run 1 m1) as (Hreads & Hnews & _);
    [cbn; lia|cbn; lia|cbn; unfold MaxUint64; lia|].
  destruct (monotonic_run 1 m2) as (_ & _ & Hover);
    [cbn; lia|cbn; unfold MaxUint64; lia|cbn; lia|].
  split; [|split].
  - destruct (Hreads [repeat 0 10; repeat 1 10]) as (m' & qs & Hrun & Hl & Hc & Hi).
    + repeat (apply Forall_cons;
              [split; [reflexivity|apply bytes_check; reflexivity]|]).
      apply Forall_nil.
    + cbn. unfold MaxUint64. lia.
    + exists m', qs. repeat split; try assumption.
      apply Hi. intros k Hk. apply (Hblock 2); cbn in Hk; lia.
  - destruct (Hnews 3%nat 5) as (m' & ids & Hrun & Hl & Hwf & Ha).
    + rewrite MaxTime_value. lia.
    + cbn. unfold MaxUint64. lia.
    + exists m', ids. repeat split; try assumption.
      apply Ha. intros k Hk. apply (Hblock 3); cbn in Hk; lia.
  - apply Hover; [reflexivity|reflexivity|cbn; lia].
Defined.

(** Where strict increase and the untouched state fail.  Seeded with
    [2^48 - 2], the second read comes out below the first; seeded with [2^64 - 1], the first read fails with
    [ErrMonotonicOverflow] and the counter is no longer what it was.  With
    seed 0 and the counter at its maximum, the next read succeeds. *)
Lemma monotonic_counterexample :
  let m := mkMono ([] : sliceReader) 7 (2 ^ 48 - 2) (2 ^ 48 - 2) in
  let q1 := [255; 255; 255; 255; 255; 255; 0; 0; 0; 0] in
  let q2 := [0; 0; 0; 0; 0; 0; 0; 0; 0; 0] in
  let mo := mkMono ([] : sliceReader) 7 (2 ^ 64 - 1) (2 ^ 64 - 1) in
  MonotonicReader 1 7 ([0; 0; 255; 255; 255; 255; 255; 254] : sliceReader)
    = Some (inl m)
  /\ consecutive_reads 1 m [repeat 0 10; repeat 0 10]
     = Some (mkMono ([] : sliceReader) 7 (2 ^ 48) (2 ^ 48 - 2), [q1; q2])
  /\ be_value 256 q2 < be_value 256 q1
  /\ ~ increasing [q1; q2]
  /\ MonotonicReader 1 7 (repeat 255 8 : sliceReader) = Some (inl mo)
  /\ monoReader_Read 1 mo (repeat 0 10)
     = Some (mkMono ([] : sliceReader) 7 0 (2 ^ 64 - 1), repeat 0 10, 0,
             Some ErrMonotonicOverflow)
  /\ m_inc (mkMono ([] : sliceReader) 7 0 (2 ^ 64 - 1)) <> m_inc mo
  /\ monoReader_Read 1 (mkMono ([] : sliceReader) 7 (2 ^ 64 - 1) 0)
                      (repeat 0 10)
     = Some (mkMono ([] : sliceReader) 7 0 0, q2, 10, None).
Proof.
  intros m q1 q2 mo.
  split; [reflexivity|]. split; [reflexivity|]. split; [reflexivity|].
  split.
  { unfold increasing. intros Hs. apply StronglySorted_inv in Hs.
    destruct Hs as [_ Hhd]. apply Forall_inv in Hhd. vm_compute in Hhd.
    discriminate. }
  split; [reflexivity|]. split; [reflexivity|].
  split; [cbn; lia|reflexivity].
Qed.

(** [C3] The code at a failing input: a monotonic reader for timestamp 7
    seeded once with the eight bytes [00 00 FF FF FF FF FF FE], then three
    identifiers made by [New] for that timestamp.  All three reads succeed,
    no [ErrMonotonicOverflow] is reported, and the entropy goes from
    [FF FF FF FF FF FF 00 00 00 00] to all zeros: the second identifier is
    below the first under [Compare], [Less] and the order of the texts,
    where strictly increasing identifiers are promised. *)
Theorem monotonic_entropy_decreases :
  let m := mkMono ([] : sliceReader) 7 (2 ^ 48 - 2) (2 ^ 48 - 2) in
  let id1 := [0; 0; 0; 0; 0; 7; 255; 255; 255; 255; 255; 255; 0; 0; 0; 0] in
  let id2 := [0; 0; 0; 0; 0; 7; 0; 0; 0; 0; 0; 0; 0; 0; 0; 0] in
  let id3 := [0; 0; 0; 0; 0; 7; 0; 0; 0; 0; 0; 1; 0; 0; 0; 0] in
  MonotonicReader 1 7 ([0; 0; 255; 255; 255; 255; 255; 254] : sliceReader)
    = Some (inl m)
  /\ consecutive_News 1 3 7 m
     = Some (mkMono ([] : sliceReader) 7 (2 ^ 48 + 1) (2 ^ 48 - 2),
             [id1; id2; id3])
  /\ Time id1 = 7 /\ Time id2 = 7
  /\ Entropy id1 = [255; 255; 255; 255; 255; 255; 0; 0; 0; 0]
  /\ Entropy id2 = [0; 0; 0; 0; 0; 0; 0; 0; 0; 0]
  /\ be_value 256 (Entropy id2) < be_value 256 (Entropy id1)
  /\ Compare id1 id2 = 1
  /\ Less id1 id2 = false
  /\ string_compare (fst (MarshalText id1)) (fst (MarshalText id2)) = Gt.
Proof. vm_compute. repeat split. Qed.

(** [C6] A successful 10-byte read of the monotonic reader leaves in the
    buffer, in this order: the six low-order bytes of the counter, big
    endian, in positions 0 to 5 (the two high-order bytes of the counter are
    not emitted), then bytes 8 and 9 of the buffer as the caller passed it in
    positions 6 and 7, and again in positions 8 and 9, where they stay. *)
Theorem mono_read_layout {R : Type} `{Reader R} (fuel : nat)
  (m m' : monoReader R) (p q : list Z) :
  monoReader_Read fuel m p = Some (m', q, 10, None) ->
  length p = 10%nat
  /\ q = [ byte_of (m_inc m' :>> 40); byte_of (m_inc m' :>> 32);
           byte_of (m_inc m' :>> 24); byte_of (m_inc m' :>> 16);
           byte_of (m_inc m' :>> 8); byte_of (m_inc m');
           p.[8]; p.[9]; p.[8]; p.[9] ].
Proof.
  intros Hr. apply mono_read_success in Hr. destruct Hr as [Hl ->].
  split; [exact Hl|]. apply mono_emit_shape. exact Hl.
Qed.

Lemma mono_read_layout_witness :
  let m := mkMono ([] : sliceReader) 7 0x0102030405060707 5 in
  let p := [10; 11; 12; 13; 14; 15; 16; 17; 18; 19] in
  monoReader_Read 1 m p
  = Some (mkMono ([] : sliceReader) 7 0x0102030405060708 5,
          [3; 4; 5; 6; 7; 8; 18; 19; 18; 19], 10, None)
  /\ length p = 10%nat
  /\ [3; 4; 5; 6; 7; 8; 18; 19; 18; 19]
     = [ byte_of (0x0102030405060708 :>> 40); byte_of (0x0102030405060708 :>> 32);
         byte_of (0x0102030405060708 :>> 24); byte_of (0x0102030405060708 :>> 16);
         byte_of (0x0102030405060708 :>> 8); byte_of 0x0102030405060708;
         p.[8]; p.[9]; p.[8]; p.[9] ].
Proof.
  intros m p. split; [reflexivity|].
  apply (mono_read_layout 1 m (mkMono ([] : sliceReader) 7 0x0102030405060708 5)).
  reflexivity.
Defined.

(** At counter [0x0102030405060708] the last eight bytes of the buffer are
    not the eight bytes of the counter, and the first two are not left as
    they were. *)
Lemma mono_layout_counterexample :
  let m := mkMono ([] : sliceReader) 7 0x0102030405060707 5 in
  let p := [10; 11; 12; 13; 14; 15; 16; 17; 18; 19] in
  let q := [3; 4; 5; 6; 7; 8; 18; 19; 18; 19] in
  monoReader_Read 1 m p
  = Some (mkMono ([] : sliceReader) 7 0x0102030405060708 5, q, 10, None)
  /\ BigEndian_PutUint64 (repeat 0 8) 0x0102030405060708 = [1; 2; 3; 4; 5; 6; 7; 8]
  /\ skipn 2 q <> [1; 2; 3; 4; 5; 6; 7; 8]
  /\ firstn 2 q <> firstn 2 p.
Proof.
  intros m p q. split; [reflexivity|]. split; [reflexivity|].
  split; cbn; discriminate.
Qed.

(** ** [Compare] is a total order *)

Lemma string_compare_antisym (a b : list Z) :
  string_compare b a = CompOpp (string_compare a b).
Proof.
  revert b. induction a as [|x a IH]; intros [|y b]; cbn [string_compare CompOpp];
    try reflexivity.
  rewrite (Z.compare_antisym x y).
  destruct (x ?= y); cbn [CompOpp]; [apply IH|reflexivity|reflexivity].
Qed.

Lemma string_compare_eq (a b : list Z) : string_compare a b = Eq <-> a = b.
Proof.
  split.
  - revert b. induction a as [|x a IH]; intros [|y b]; cbn [string_compare];
      try discriminate; [reflexivity|].
    destruct (Z.compare_spec x y) as [E|E|E]; try discriminate.
    intros Hs. subst y. f_equal. apply IH. exact Hs.
  - intros <-. apply string_compare_refl.
Qed.

Lemma string_compare_trans (a b c : list Z) :
  string_compare a b = Lt -> string_compare b c = Lt -> string_compare a c = Lt.
Proof.
  revert b c. induction a as [|x a IH]; intros [|y b] [|z c];
    cbn [string_compare]; try discriminate; try reflexivity.
  destruct (Z.compare_spec x y) as [E1|E1|E1]; try discriminate;
    destruct (Z.compare_spec y z) as [E2|E2|E2]; try discriminate;
    intros H1 H2.
  - subst. rewrite Z.compare_refl. eapply IH; eassumption.
  - subst. apply Z.compare_lt_iff in E2. rewrite E2. reflexivity.
  - subst. apply Z.compare_lt_iff in E1. rewrite E1. reflexivity.
  - assert (E : x < z) by lia. apply Z.compare_lt_iff in E. rewrite E.
    reflexivity.
Qed.

Lemma bytes_eqb_eq (a b : list Z) : bytes_eqb a b = true <-> a = b.
Proof.
  revert b. induction a as [|x a IH]; intros [|y b]; cbn [bytes_eqb];
    try (split; [discriminate|discriminate]); [tauto|].
  rewrite andb_true_iff, Z.eqb_eq, IH. split.
  - intros [-> ->]. reflexivity.
  - intros [= -> ->]. tauto.
Qed.

Section Order.
Variables a b c : ULID.
Hypothesis (La : length a = 16%nat) (Lb : length b = 16%nat)
  (Lc : length c = 16%nat).

Lemma Compare_values : Compare a b = -1 \/ Compare a b = 0 \/ Compare a b = 1.
Proof.
  rewrite Compare_string_compare by assumption.
  destruct (string_compare a b); cbn; auto.
Qed.

Lemma Compare_antisym : Compare b a = - Compare a b.
Proof.
  rewrite !Compare_string_compare by assumption.
  rewrite string_compare_antisym.
  destruct (string_compare a b); reflexivity.
Qed.

Lemma Compare_zero : Compare a b = 0 <-> a = b.
Proof.
  rewrite Compare_string_compare by assumption.
  rewrite <- string_compare_eq.
  destruct (string_compare a b); cbn; split; congruence || lia.
Qed.

Lemma Compare_trans : Compare a b = -1 -> Compare b c = -1 -> Compare a c = -1.
Proof.
  rewrite !Compare_string_compare by assumption.
  intros H1 H2.
  rewrite (string_compare_trans a b c).
  - reflexivity.
  - destruct (string_compare a b); cbn in H1; congruence || lia.
  - destruct (string_compare b c); cbn in H2; congruence || lia.
Qed.
End Order.

(** [X1] On identifiers (sixteen bytes each), [Compare] returns -1, 0 or 1
    and is a strict total order: swapping the arguments negates the result,
    the result is 0 exactly for equal identifiers, and "less than" is
    transitive. *)
Theorem Compare_total_order (a b c : ULID) :
  length a = 16%nat -> length b = 16%nat -> length c = 16%nat ->
  (Compare a b = -1 \/ Compare a b = 0 \/ Compare a b = 1)
  /\ Compare b a = - Compare a b
  /\ (Compare a b = 0 <-> a = b)
  /\ (Compare a b = -1 -> Compare b c = -1 -> Compare a c = -1).
Proof.
  intros La Lb Lc. split; [|split; [|split]].
  - apply Compare_values; assumption.
  - apply Compare_antisym; assumption.
  - apply Compare_zero; assumption.
  - apply Compare_trans; assumption.
Qed.

Lemma Compare_total_order_witness :
  let a := time_bytes 5 ++ repeat 9 10 in
  let b := time_bytes 6 ++ repeat 0 10 in
  let c := time_bytes 6 ++ repeat 1 10 in
  (Compare a b = -1 \/ Compare a b = 0 \/ Compare a b = 1)
  /\ Compare b a = - Compare a b
  /\ (Compare a b = 0 <-> a = b)
  /\ (Compare a b = -1 -> Compare b c = -1 -> Compare a c = -1).
Proof.
  intros a b c. apply (Compare_total_order a b c); reflexivity.
Defined.

(** [X2] For two identifiers exactly one of [Less], [Equal] and [Greater]
    holds; [Equal] is equality of the sixteen bytes and agrees with
    [Compare] returning 0, and [Greater a b] is [Less b a]. *)
Theorem Less_Equal_Greater (a b : ULID) :
  length a = 16%nat -> length b = 16%nat ->
  ((Less a b = true /\ Equal a b = false /\ Greater a b = false)
   \/ (Less a b = false /\ Equal a b = true /\ Greater a b = false)
   \/ (Less a b = false /\ Equal a b = false /\ Greater a b = true))
  /\ (Equal a b = true <-> a = b)
  /\ (Equal a b = true <-> Compare a b = 0)
  /\ Greater a b = Less b a.
Proof.
  intros La Lb.
  pose proof (Compare_zero a b La Lb) as Hz.
  pose proof (Compare_antisym a b La Lb) as Hanti.
  unfold Less, Greater, Equal.
  assert (Hne : Compare a b <> 0 -> bytes_eqb a b = false).
  { intros Hc. destruct (bytes_eqb a b) eqn:E; [|reflexivity].
    apply bytes_eqb_eq in E. apply Hz in E. contradiction. }
  split; [|split; [|split]].
  - destruct (Compare_values a b La Lb) as [Hc|[Hc|Hc]].
    + left. rewrite Hne by lia. rewrite Hc. repeat split.
    + right. left. rewrite Hc. repeat split. apply bytes_eqb_eq, Hz. assumption.
    + right. right. rewrite Hne by lia. rewrite Hc. repeat split.
  - apply bytes_eqb_eq.
  - rewrite bytes_eqb_eq. symmetry. exact Hz.
  - rewrite Hanti.
    destruct (Compare_values a b La Lb) as [Hc|[Hc|Hc]]; rewrite Hc; reflexivity.
Qed.

Lemma Less_Equal_Greater_witness :
  let a := time_bytes 5 ++ repeat 9 10 in
  let b := time_bytes 6 ++ repeat 0 10 in
  ((Less a b = true /\ Equal a b = false /\ Greater a b = false)
   \/ (Less a b = false /\ Equal a b = true /\ Greater a b = false)
   \/ (Less a b = false /\ Equal a b = false /\ Greater a b = true))
  /\ (Equal a b = true <-> a = b)
  /\ (Equal a b = true <-> Compare a b = 0)
  /\ Greater a b = Less b a.
Proof.
  intros a b. apply (Less_Equal_Greater a b); reflexivity.
Defined.

(** ** Timestamp and entropy, the two halves of an identifier *)

Lemma time_bytes_of_value (a0 a1 a2 a3 a4 a5 : Z) :
  bytes [a0; a1; a2; a3; a4; a5] ->
  time_bytes (be_value 256 [a0; a1; a2; a3; a4; a5]) = [a0; a1; a2; a3; a4; a5].
Proof.
  intros Hb. split_bytes Hb. unfold is_byte in *.
  unfold time_bytes, byte_of, be_value. cbn [fold_left].
  rewrite !Z.shiftr_div_pow2 by lia.
  change (2 ^ 40) with 1099511627776. change (2 ^ 32) with 4294967296.
  change (2 ^ 24) with 16777216. change (2 ^ 16) with 65536.
  change (2 ^ 8) with 256.
  repeat f_equal; Z.div_mod_to_equations; lia.
Qed.

Lemma wf_split (id : ULID) :
  wf_ULID id ->
  length (firstn 6 id) = 6%nat /\ length (skipn 6 id) = 10%nat
  /\ bytes (firstn 6 id) /\ bytes (skipn 6 id)
  /\ id = firstn 6 id ++ skipn 6 id.
Proof.
  intros [Hl Hb].
  split; [rewrite firstn_length_le; lia|].
  split; [rewrite length_skipn; lia|].
  unfold bytes in *.
  rewrite <- (firstn_skipn 6 id) in Hb. apply Forall_app in Hb.
  split; [tauto|]. split; [tauto|].
  symmetry. apply firstn_skipn.
Qed.

Lemma Entropy_skipn (id : ULID) : wf_ULID id -> Entropy id = skipn 6 id.
Proof.
  intros Hwf. destruct (wf_split id Hwf) as (_ & Hl & _).
  unfold Entropy. apply copy_same_length. rewrite repeat_length. lia.
Qed.

Lemma Time_firstn (id : ULID) :
  wf_ULID id -> Time id = be_value 256 (firstn 6 id)
                /\ time_bytes (Time id) = firstn 6 id.
Proof.
  intros Hwf. explode_ULID Hwf. cbn [firstn].
  assert (Hsix : bytes [b; b0; b1; b2; b3; b4])
    by (repeat (apply Forall_cons; [assumption|]); apply Forall_nil).
  assert (Ht : Time [b; b0; b1; b2; b3; b4; b5; b6; b7; b8; b9; b10; b11; b12;
                     b13; b14] = be_value 256 [b; b0; b1; b2; b3; b4]).
  { apply (Time_of_bytes b b0 b1 b2 b3 b4 [b5; b6; b7; b8; b9; b10; b11; b12;
                                           b13; b14]).
    - exact Hsix.
    - repeat (apply Forall_cons; [assumption|]). apply Forall_nil.
    - cbn. lia. }
  split; [exact Ht|]. rewrite Ht. apply time_bytes_of_value. exact Hsix.
Qed.

Lemma Time_range (id : ULID) : wf_ULID id -> 0 <= Time id <= MaxTime.
Proof.
  intros Hwf. destruct (Time_firstn id Hwf) as [-> _].
  destruct (wf_split id Hwf) as (Hl & _ & Hb & _).
  pose proof (be_value_bound 256 ltac:(lia) _ Hb) as Hv.
  rewrite Hl in Hv. rewrite MaxTime_value.
  change (256 ^ Z.of_nat 6) with (2 ^ 48) in Hv. lia.
Qed.

(** [X3] An identifier is its timestamp followed by its entropy: [Time] lies
    in [0, 2^48 - 1], [Entropy] has ten bytes, the sixteen bytes are the six
    big-endian bytes of [Time] followed by [Entropy], and as a 128-bit
    integer the identifier is [Time * 2^80] plus the entropy read as an
    80-bit integer. *)
Theorem Time_Entropy_split (id : ULID) :
  wf_ULID id ->
  0 <= Time id <= MaxTime
  /\ length (Entropy id) = 10%nat
  /\ id = time_bytes (Time id) ++ Entropy id
  /\ uint128 id = Time id * 2 ^ 80 + be_value 256 (Entropy id)
  /\ 0 <= be_value 256 (Entropy id) < 2 ^ 80.
Proof.
  intros Hwf.
  destruct (wf_split id Hwf) as (Hl6 & Hl10 & Hb6 & Hb10 & Hid).
  destruct (Time_firstn id Hwf) as [Ht Htb].
  rewrite Entropy_skipn by assumption.
  split; [apply Time_range; assumption|].
  split; [assumption|].
  split; [rewrite Htb; exact Hid|].
  split.
  - unfold uint128. rewrite Hid at 1. rewrite be_value_app, Hl10, Ht.
    reflexivity.
  - pose proof (be_value_bound 256 ltac:(lia) _ Hb10) as Hv.
    rewrite Hl10 in Hv. exact Hv.
Qed.

Lemma Time_Entropy_split_witness :
  let id := [1; 86; 62; 58; 181; 211; 214; 118; 76; 97; 239; 185; 147; 2; 189; 91] in
  0 <= Time id <= MaxTime
  /\ length (Entropy id) = 10%nat
  /\ id = time_bytes (Time id) ++ Entropy id
  /\ uint128 id = Time id * 2 ^ 80 + be_value 256 (Entropy id)
  /\ 0 <= be_value 256 (Entropy id) < 2 ^ 80.
Proof.
  intros id. apply (Time_Entropy_split id).
  split; [reflexivity|apply bytes_check; reflexivity].
Defined.

(** [X4] The order of identifiers is the order of their timestamps, and for
    equal timestamps the order of their entropy: an earlier [Time] makes
    [Compare] return -1 whatever the entropy, and with equal [Time] the
    result of [Compare] is the comparison of the two entropies as 80-bit
    big-endian integers. *)
Theorem Compare_by_time (a b : ULID) :
  wf_ULID a -> wf_ULID b ->
  (Time a < Time b -> Compare a b = -1 /\ Less a b = true)
  /\ (Time a = Time b ->
      Compare a b
      = int_of_comparison (be_value 256 (Entropy a) ?= be_value 256 (Entropy b))).
Proof.
  intros Ha Hb.
  destruct (wf_split a Ha) as (La6 & La10 & Ba6 & Ba10 & Hida).
  destruct (wf_split b Hb) as (Lb6 & Lb10 & Bb6 & Bb10 & Hidb).
  destruct (Time_firstn a Ha) as [Hta _].
  destruct (Time_firstn b Hb) as [Htb _].
  rewrite !Entropy_skipn by assumption.
  assert (Hc : Compare a b
               = match string_compare (firstn 6 a) (firstn 6 b) with
                 | Eq => int_of_comparison
                           (string_compare (skipn 6 a) (skipn 6 b))
                 | c => int_of_comparison c
                 end).
  { rewrite Compare_string_compare by (apply Ha || apply Hb).
    rewrite Hida, Hidb at 1. rewrite string_compare_app by congruence.
    destruct (string_compare (firstn 6 a) (firstn 6 b)); reflexivity. }
  rewrite (string_compare_value 256) in Hc by (lia || congruence || assumption).
  rewrite <- Hta, <- Htb in Hc.
  split.
  - intros Hlt. apply Z.compare_lt_iff in Hlt. rewrite Hlt in Hc.
    unfold Less. rewrite Hc. split; reflexivity.
  - intros Heq. rewrite Heq, Z.compare_refl in Hc. rewrite Hc.
    rewrite (string_compare_value 256) by (lia || congruence || assumption).
    reflexivity.
Qed.

Lemma Compare_by_time_witness :
  let a := time_bytes 5 ++ repeat 9 10 in
  let b := time_bytes 6 ++ repeat 0 10 in
  let c := time_bytes 6 ++ repeat 1 10 in
  (Compare a b = -1 /\ Less a b = true)
  /\ Compare b c
     = int_of_comparison (be_value 256 (Entropy b) ?= be_value 256 (Entropy c)).
Proof.
  intros a b c.
  assert (Ha : wf_ULID a) by (split; [reflexivity|apply bytes_check; reflexivity]).
  assert (Hb : wf_ULID b) by (split; [reflexivity|apply bytes_check; reflexivity]).
  assert (Hc : wf_ULID c) by (split; [reflexivity|apply bytes_check; reflexivity]).
  split.
  - destruct (Compare_by_time a b Ha Hb) as [Hlt _]. apply Hlt.
    vm_compute. reflexivity.
  - destruct (Compare_by_time b c Hb Hc) as [_ Heq]. apply Heq. reflexivity.
Defined.

(** ** The two mutators *)

Lemma wf_app (tb e : list Z) :
  length tb = 6%nat -> length e = 10%nat -> bytes tb -> bytes e ->
  wf_ULID (tb ++ e).
Proof.
  intros Lt Le Bt Be. split; [rewrite length_app; lia|].
  apply Forall_app. split; assumption.
Qed.

Lemma firstn_skipn_app6 (tb e : list Z) :
  length tb = 6%nat -> firstn 6 (tb ++ e) = tb /\ skipn 6 (tb ++ e) = e.
Proof.
  intros Lt.
  do 6 (destruct tb as [|? tb]; [discriminate Lt|]).
  destruct tb; [|discriminate Lt].
  split; reflexivity.
Qed.

Lemma SetEntropy_ok (id : ULID) (e : list Z) :
  wf_ULID id -> length e = 10%nat ->
  SetEntropy id e = (firstn 6 id ++ e, None).
Proof.
  intros Hwf Hl. destruct (wf_split id Hwf) as (_ & Hl10 & _).
  unfold SetEntropy, len. rewrite Hl. cbn [Z.of_nat Z.eqb negb].
  change (Z.of_nat 10 =? 10) with true. cbn [negb].
  rewrite copy_same_length by lia. reflexivity.
Qed.

(** [X5] [SetEntropy] with ten bytes replaces bytes 6 to 15 and nothing
    else: afterwards [Entropy] returns the ten bytes given and [Time] is what
    it was; with any other length it fails with [ErrDataSize] and leaves the
    identifier as it was. *)
Theorem SetEntropy_effect (id : ULID) (e : list Z) :
  wf_ULID id ->
  (length e = 10%nat -> bytes e ->
   SetEntropy id e = (firstn 6 id ++ e, None)
   /\ wf_ULID (fst (SetEntropy id e))
   /\ Entropy (fst (SetEntropy id e)) = e
   /\ Time (fst (SetEntropy id e)) = Time id)
  /\ (length e <> 10%nat -> SetEntropy id e = (id, Some ErrDataSize)).
Proof.
  intros Hwf. split.
  - intros Hl Hb.
    destruct (wf_split id Hwf) as (Hl6 & _ & Hb6 & _).
    rewrite SetEntropy_ok by assumption. cbn [fst].
    assert (Hwf' : wf_ULID (firstn 6 id ++ e)) by (apply wf_app; assumption).
    destruct (firstn_skipn_app6 (firstn 6 id) e Hl6) as [Hf Hs].
    split; [reflexivity|]. split; [exact Hwf'|]. split.
    + rewrite Entropy_skipn by assumption. exact Hs.
    + destruct (Time_firstn _ Hwf') as [-> _].
      destruct (Time_firstn _ Hwf) as [-> _]. rewrite Hf. reflexivity.
  - intros Hl. unfold SetEntropy.
    destruct (len e =? 10) eqn:E; [|reflexivity].
    apply Z.eqb_eq in E. unfold len in E. lia.
Qed.

Lemma SetEntropy_effect_witness :
  let id := [1; 86; 62; 58; 181; 211; 214; 118; 76; 97; 239; 185; 147; 2; 189; 91] in
  (SetEntropy id (repeat 7 10) = (firstn 6 id ++ repeat 7 10, None)
   /\ wf_ULID (fst (SetEntropy id (repeat 7 10)))
   /\ Entropy (fst (SetEntropy id (repeat 7 10))) = repeat 7 10
   /\ Time (fst (SetEntropy id (repeat 7 10))) = Time id)
  /\ SetEntropy id (repeat 7 9) = (id, Some ErrDataSize).
Proof.
  intros id.
  destruct (SetEntropy_effect id (repeat 7 10)) as [Hok _];
    [split; [reflexivity|apply bytes_check; reflexivity]|].
  destruct (SetEntropy_effect id (repeat 7 9)) as [_ Hbad];
    [split; [reflexivity|apply bytes_check; reflexivity]|].
  split.
  - apply Hok; [reflexivity|apply bytes_check; reflexivity].
  - apply Hbad. cbn. lia.
Defined.

(** [X6] [SetTime] with a timestamp in [0, 2^48 - 1] succeeds and writes
    bytes 0 to 7: bytes 0 to 5 take the timestamp, so that [Time] returns it,
    bytes 6 and 7 become zero, and bytes 8 to 15 stay; [Entropy] afterwards
    is two zero bytes followed by the last eight bytes of the old entropy. *)
Theorem SetTime_valid (id : ULID) (ms : Z) :
  wf_ULID id -> 0 <= ms <= MaxTime ->
  SetTime id ms = (time_bytes ms ++ [0; 0] ++ skipn 8 id, None)
  /\ wf_ULID (fst (SetTime id ms))
  /\ Time (fst (SetTime id ms)) = ms
  /\ Entropy (fst (SetTime id ms)) = [0; 0] ++ skipn 2 (Entropy id).
Proof.
  intros Hwf Hms.
  destruct (SetTime_effect id ms Hwf Hms) as [Hset Htime].
  split; [exact Hset|].
  assert (Hwf' : wf_ULID (fst (SetTime id ms))).
  { rewrite Hset. cbn [fst]. pose proof Hwf as Hw. explode_ULID Hw.
    cbn [skipn app]. apply wf_app.
    - reflexivity.
    - reflexivity.
    - apply time_bytes_digits.
    - repeat (apply Forall_cons; [assumption || (unfold is_byte; lia)|]).
      apply Forall_nil. }
  split; [exact Hwf'|]. split; [exact Htime|].
  rewrite !Entropy_skipn by assumption. rewrite Hset. cbn [fst].
  explode_ULID Hwf. reflexivity.
Qed.

Lemma SetTime_valid_witness :
  let id := [1; 86; 62; 58; 181; 211; 214; 118; 76; 97; 239; 185; 147; 2; 189; 91] in
  SetTime id 1234567890000
  = (time_bytes 1234567890000 ++ [0; 0] ++ skipn 8 id, None)
  /\ wf_ULID (fst (SetTime id 1234567890000))
  /\ Time (fst (SetTime id 1234567890000)) = 1234567890000
  /\ Entropy (fst (SetTime id 1234567890000)) = [0; 0] ++ skipn 2 (Entropy id).
Proof.
  intros id. apply (SetTime_valid id 1234567890000).
  - split; [reflexivity|apply bytes_check; reflexivity].
  - rewrite MaxTime_value. lia.
Defined.

(** [X7] An identifier can be rebuilt from its two halves: starting from any
    identifier, [SetTime] with [Time id] followed by [SetEntropy] with
    [Entropy id] succeeds and gives [id]. *)
Theorem rebuild_from_halves (id id0 : ULID) :
  wf_ULID id -> wf_ULID id0 ->
  snd (SetTime id0 (Time id)) = None
  /\ SetEntropy (fst (SetTime id0 (Time id))) (Entropy id) = (id, None).
Proof.
  intros Hwf Hwf0.
  pose proof (Time_range id Hwf) as Hr.
  destruct (SetTime_effect id0 (Time id) Hwf0 Hr) as [Hset _].
  rewrite Hset. cbn [fst snd]. split; [reflexivity|].
  destruct (wf_split id Hwf) as (Hl6 & Hl10 & Hb6 & Hb10 & Hid).
  destruct (Time_firstn id Hwf) as [_ Htb].
  assert (Hwf1 : wf_ULID (time_bytes (Time id) ++ [0; 0] ++ skipn 8 id0)).
  { pose proof Hwf0 as Hw. explode_ULID Hw. cbn [skipn app]. apply wf_app.
    - reflexivity.
    - reflexivity.
    - apply time_bytes_digits.
    - repeat (apply Forall_cons; [assumption || (unfold is_byte; lia)|]).
      apply Forall_nil. }
  rewrite Entropy_skipn by assumption.
  rewrite SetEntropy_ok by assumption.
  destruct (firstn_skipn_app6 (time_bytes (Time id)) ([0; 0] ++ skipn 8 id0)
              ltac:(reflexivity)) as [-> _].
  rewrite Htb. rewrite <- Hid. reflexivity.
Qed.

Lemma rebuild_from_halves_witness :
  let id := [1; 86; 62; 58; 181; 211; 214; 118; 76; 97; 239; 185; 147; 2; 189; 91] in
  snd (SetTime Nil (Time id)) = None
  /\ SetEntropy (fst (SetTime Nil (Time id))) (Entropy id) = (id, None).
Proof.
  intros id. apply (rebuild_from_halves id Nil);
    (split; [reflexivity|apply bytes_check; reflexivity]).
Defined.

(** ** Decoding ignores case *)

Lemma dec_upper : forall c, is_byte c -> dec_at (to_upper c) = dec_at c.
Proof. by_bytes1. Qed.

Lemma first_upper (c : Z) :
  is_byte c -> (to_upper c >? chr "7") = (c >? chr "7").
Proof.
  intros Hc.
  pose proof (below_spec 256
    (fun c => Bool.eqb (to_upper c >? chr "7") (c >? chr "7"))
    ltac:(vm_compute; reflexivity) c Hc) as Hall.
  cbv beta in Hall. now apply Bool.eqb_prop in Hall.
Qed.

Lemma nth_upper (v : list Z) (i : nat) :
  nth i (map to_upper v) 0 = to_upper (nth i v 0).
Proof. change 0 with (to_upper 0) at 1. apply map_nth. Qed.

Lemma strict_scan_upper (v : list Z) :
  bytes v -> strict_scan (map to_upper v) = strict_scan v.
Proof.
  induction 1 as [|c v Hc Hv IH]; cbn [map strict_scan]; [reflexivity|].
  rewrite dec_upper by assumption. rewrite IH. reflexivity.
Qed.

Lemma parse_upper (v : list Z) (strict : bool) :
  bytes v -> parse (map to_upper v) strict = parse v strict.
Proof.
  intros Hv. unfold parse, len.
  rewrite length_map, !nth_upper.
  rewrite !dec_upper by (apply nth_byte; assumption).
  rewrite first_upper by (apply nth_byte; assumption).
  rewrite strict_scan_upper by assumption.
  reflexivity.
Qed.

(** [X8] Decoding does not look at the case of letters: two inputs that are
    equal once lower-case letters are put in upper case get the same result
    from [parse], identifier and error, in strict and in permissive mode. *)
Theorem parse_case_insensitive (v w : list Z) (strict : bool) :
  bytes v -> bytes w -> map to_upper v = map to_upper w ->
  parse v strict = parse w strict.
Proof.
  intros Hv Hw Heq.
  rewrite <- (parse_upper v) by assumption.
  rewrite <- (parse_upper w) by assumption.
  rewrite Heq. reflexivity.
Qed.

Lemma parse_case_insensitive_witness :
  parse (str "01arz3ndektsv4rrffq69g5fav") true
  = parse (str "01ARZ3NDEKtsv4rrffQ69G5FAV") true.
Proof.
  apply parse_case_insensitive;
    [apply bytes_check; reflexivity|apply bytes_check; reflexivity|reflexivity].
Defined.

(** ** What [ParseStrict] accepts *)

Lemma parse_same_id (v : list Z) : fst (parse v true) = fst (parse v false).
Proof.
  unfold parse.
  destruct (negb (len v =? EncodedSize)); [reflexivity|].
  match goal with |- context [if ?c then (Nil, Some ErrInvalidCharacters) else _] =>
    destruct c end; [reflexivity|].
  destruct (v.[0] >? chr "7"); [reflexivity|].
  cbn [andb]. destruct (strict_scan v); reflexivity.
Qed.

Lemma strict_scan_alphabet (v : list Z) :
  bytes v ->
  (strict_scan v = false <-> forall c, In c v -> in_alphabet c = true).
Proof.
  intros Hv. rewrite strict_scan_false, Forall_forall.
  unfold bytes in Hv. rewrite Forall_forall in Hv.
  split; intros Hall c Hin.
  - destruct (in_alphabet c) eqn:Ha; [reflexivity|].
    exfalso. apply (Hall c Hin). apply dec_outside; auto.
  - apply dec_inside; auto.
Qed.

(** [X9] [ParseStrict] accepts exactly the 26-byte inputs whose characters
    all belong to the alphabet, in either case, and whose first character is
    worth at most 7; [ParseStrict] and [Parse] always return the same
    identifier, and the same error or none whenever [ParseStrict] returns
    none. *)
Theorem ParseStrict_accepts (v : list Z) :
  bytes v ->
  (snd (ParseStrict v) = None
   <-> len v = EncodedSize
       /\ (forall c, In c v -> in_alphabet c = true)
       /\ exists d, crockford_value v.[0] = Some d /\ d <= 7)
  /\ fst (ParseStrict v) = fst (Parse v)
  /\ (snd (ParseStrict v) = None -> ParseStrict v = Parse v).
Proof.
  intros Hv.
  assert (Hlen26 : len v = EncodedSize -> length v = 26%nat)
    by (unfold len, EncodedSize; lia).
  split; [|split].
  - unfold ParseStrict. split.
    + intros Hok.
      destruct (Z.eq_dec (len v) EncodedSize) as [Hl|Hl];
        [|rewrite parse_size in Hok by assumption; discriminate].
      destruct (ts_invalid v) eqn:Hts;
        [rewrite parse_invalid in Hok by assumption; discriminate|].
      destruct (v.[0] >? chr "7") eqn:Ho;
        [rewrite parse_overflow in Hok by assumption; discriminate|].
      rewrite parse_decoded in Hok by assumption. cbn [snd andb] in Hok.
      destruct (strict_scan v) eqn:Hs; [discriminate|].
      pose proof (proj1 (strict_scan_alphabet v Hv) Hs) as Hall.
      split; [assumption|]. split; [assumption|].
      assert (H0 : in_alphabet v.[0] = true)
        by (apply Hall, nth_In; rewrite (Hlen26 Hl); lia).
      unfold in_alphabet in H0.
      destruct (crockford_value v.[0]) as [d|] eqn:Hd; [|discriminate].
      exists d. split; [reflexivity|].
      rewrite (first_char_test v Hv d Hd) in Ho.
      rewrite Z.gtb_ltb in Ho. apply Z.ltb_ge in Ho. assumption.
    + intros (Hl & Hall & d & Hd & Hle).
      assert (Hten : forall i, (i < 10)%nat -> in_alphabet v.[i] = true)
        by (intros i Hi; apply Hall, nth_In; rewrite (Hlen26 Hl); lia).
      rewrite parse_decoded.
      * cbn [snd andb].
        rewrite (proj2 (strict_scan_alphabet v Hv) Hall). reflexivity.
      * assumption.
      * apply timestamp_chars_valid; assumption.
      * rewrite (first_char_test v Hv d Hd). rewrite Z.gtb_ltb.
        apply Z.ltb_ge. lia.
  - apply parse_same_id.
  - unfold ParseStrict, Parse. intros Hok.
    rewrite (surjective_pairing (parse v true)).
    rewrite (surjective_pairing (parse v false)).
    rewrite parse_same_id, Hok. f_equal.
    destruct (Z.eq_dec (len v) EncodedSize) as [Hl|Hl];
      [|rewrite parse_size in Hok by assumption; discriminate].
    destruct (ts_invalid v) eqn:Hts;
      [rewrite parse_invalid in Hok by assumption; discriminate|].
    destruct (v.[0] >? chr "7") eqn:Ho;
      [rewrite parse_overflow in Hok by assumption; discriminate|].
    rewrite parse_decoded by assumption. reflexivity.
Qed.

Lemma ParseStrict_accepts_witness :
  (snd (ParseStrict (str "01arz3ndektsv4rrffq69g5fav")) = None
   <-> len (str "01arz3ndektsv4rrffq69g5fav") = EncodedSize
       /\ (forall c, In c (str "01arz3ndektsv4rrffq69g5fav") ->
                     in_alphabet c = true)
       /\ exists d, crockford_value (str "01arz3ndektsv4rrffq69g5fav").[0] = Some d
                    /\ d <= 7)
  /\ fst (ParseStrict (str "01arz3ndektsv4rrffq69g5fav"))
     = fst (Parse (str "01arz3ndektsv4rrffq69g5fav"))
  /\ (snd (ParseStrict (str "01arz3ndektsv4rrffq69g5fav")) = None ->
      ParseStrict (str "01arz3ndektsv4rrffq69g5fav")
      = Parse (str "01arz3ndektsv4rrffq69g5fav")).
Proof.
  apply (ParseStrict_accepts (str "01arz3ndektsv4rrffq69g5fav")).
  apply bytes_check. reflexivity.
Defined.

(** ** Encoding what was decoded *)

Lemma digits2 (f g : Z -> Z -> Z) :
  below 32 (fun x => below 32 (fun y => f x y =? g x y)) = true ->
  forall x y, digit 32 x -> digit 32 y -> f x y = g x y.
Proof.
  intros Hc x y Hx Hy. apply Z.eqb_eq.
  exact (below_spec 32 _ (below_spec 32 _ Hc x Hx) y Hy).
Qed.

Lemma digits3 (f g : Z -> Z -> Z -> Z) :
  below 32 (fun x => below 32 (fun y => below 32 (fun z =>
    f x y z =? g x y z))) = true ->
  forall x y z, digit 32 x -> digit 32 y -> digit 32 z -> f x y z = g x y z.
Proof.
  intros Hc x y z Hx Hy Hz. apply Z.eqb_eq.
  exact (below_spec 32 _ (below_spec 32 _ (below_spec 32 _ Hc x Hx) y Hy) z Hz).
Qed.

Ltac by_digits2 := apply digits2; vm_compute; reflexivity.
Ltac by_digits3 := apply digits3; vm_compute; reflexivity.

(** The first byte and its two groups; the first digit has three bits. *)
Lemma cut_first_hi (x y : Z) :
  0 <= x < 8 -> digit 32 y -> (((x :<< 5) :| y) :& 224) :>> 5 = x.
Proof.
  intros Hx Hy. apply Z.eqb_eq.
  assert (Hc : below 8 (fun x => below 32 (fun y =>
            (((x :<< 5) :| y) :& 224) :>> 5 =? x)) = true)
    by (vm_compute; reflexivity).
  exact (below_spec 32 _ (below_spec 8 _ Hc x Hx) y Hy).
Qed.

Lemma cut_first_lo : forall x y, digit 32 x -> digit 32 y ->
  ((x :<< 5) :| y) :& 31 = y.
Proof. by_digits2. Qed.

(** The five bytes of a block and the eight groups cut from them. *)
Lemma cut_g0 : forall x0 x1, digit 32 x0 -> digit 32 x1 ->
  (((x0 :<< 3) :| (x1 :>> 2)) :& 248) :>> 3 = x0.
Proof. by_digits2. Qed.

Lemma cut_g1a : forall x0 x1, digit 32 x0 -> digit 32 x1 ->
  (((x0 :<< 3) :| (x1 :>> 2)) :& 7) :<< 2 = (x1 :>> 2) :<< 2.
Proof. by_digits2. Qed.

Lemma cut_g1b : forall x1 x2 x3, digit 32 x1 -> digit 32 x2 -> digit 32 x3 ->
  (((x1 :<< 6) :| (x2 :<< 1) :| (x3 :>> 4)) :& 192) :>> 6 = x1 :& 3.
Proof. by_digits3. Qed.

Lemma cut_g1 (x : Z) : digit 32 x -> ((x :>> 2) :<< 2) :| (x :& 3) = x.
Proof.
  intros Hx. apply Z.eqb_eq.
  exact (below_spec 32 (fun x => ((x :>> 2) :<< 2) :| (x :& 3) =? x)
           ltac:(vm_compute; reflexivity) x Hx).
Qed.

Lemma cut_g2 : forall x1 x2 x3, digit 32 x1 -> digit 32 x2 -> digit 32 x3 ->
  (((x1 :<< 6) :| (x2 :<< 1) :| (x3 :>> 4)) :& 62) :>> 1 = x2.
Proof. by_digits3. Qed.

Lemma cut_g3a : forall x1 x2 x3, digit 32 x1 -> digit 32 x2 -> digit 32 x3 ->
  (((x1 :<< 6) :| (x2 :<< 1) :| (x3 :>> 4)) :& 1) :<< 4 = (x3 :>> 4) :<< 4.
Proof. by_digits3. Qed.

Lemma cut_g3b : forall x3 x4, digit 32 x3 -> digit 32 x4 ->
  (((x3 :<< 4) :| (x4 :>> 1)) :& 240) :>> 4 = x3 :& 15.
Proof. by_digits2. Qed.

Lemma cut_g3 (x : Z) : digit 32 x -> ((x :>> 4) :<< 4) :| (x :& 15) = x.
Proof.
  intros Hx. apply Z.eqb_eq.
  exact (below_spec 32 (fun x => ((x :>> 4) :<< 4) :| (x :& 15) =? x)
           ltac:(vm_compute; reflexivity) x Hx).
Qed.

Lemma cut_g4a : forall x3 x4, digit 32 x3 -> digit 32 x4 ->
  (((x3 :<< 4) :| (x4 :>> 1)) :& 15) :<< 1 = (x4 :>> 1) :<< 1.
Proof. by_digits2. Qed.

Lemma cut_g4b : forall x4 x5 x6, digit 32 x4 -> digit 32 x5 -> digit 32 x6 ->
  (((x4 :<< 7) :| (x5 :<< 2) :| (x6 :>> 3)) :& 128) :>> 7 = x4 :& 1.
Proof. by_digits3. Qed.

Lemma cut_g4 (x : Z) : digit 32 x -> ((x :>> 1) :<< 1) :| (x :& 1) = x.
Proof.
  intros Hx. apply Z.eqb_eq.
  exact (below_spec 32 (fun x => ((x :>> 1) :<< 1) :| (x :& 1) =? x)
           ltac:(vm_compute; reflexivity) x Hx).
Qed.

Lemma cut_g5 : forall x4 x5 x6, digit 32 x4 -> digit 32 x5 -> digit 32 x6 ->
  (((x4 :<< 7) :| (x5 :<< 2) :| (x6 :>> 3)) :& 124) :>> 2 = x5.
Proof. by_digits3. Qed.

Lemma cut_g6a : forall x4 x5 x6, digit 32 x4 -> digit 32 x5 -> digit 32 x6 ->
  (((x4 :<< 7) :| (x5 :<< 2) :| (x6 :>> 3)) :& 3) :<< 3 = (x6 :>> 3) :<< 3.
Proof. by_digits3. Qed.

Lemma cut_g6b : forall x6 x7, digit 32 x6 -> digit 32 x7 ->
  (((x6 :<< 5) :| x7) :& 224) :>> 5 = x6 :& 7.
Proof. by_digits2. Qed.

Lemma cut_g6 (x : Z) : digit 32 x -> ((x :>> 3) :<< 3) :| (x :& 7) = x.
Proof.
  intros Hx. apply Z.eqb_eq.
  exact (below_spec 32 (fun x => ((x :>> 3) :<< 3) :| (x :& 7) =? x)
           ltac:(vm_compute; reflexivity) x Hx).
Qed.

Lemma groups_decode (d : nat -> Z) :
  (forall i, (i < 26)%nat -> digit 32 (d i)) -> d 0%nat < 8 ->
  groups (decode_eqns d) = map d (seq 0 26).
Proof.
  intros Hd H0.
  assert (Hx : 0 <= d 0%nat < 8)
    by (pose proof (Hd 0%nat ltac:(lia)) as Hz; unfold digit in Hz; lia).
  unfold groups, decode_eqns. cbn [nth map seq].
  rewrite cut_first_hi by (assumption || (apply Hd; lia)).
  rewrite !cut_first_lo, !cut_g0, !cut_g2, !cut_g5 by (apply Hd; lia).
  rewrite !cut_g1a, !cut_g1b, !cut_g3a, !cut_g3b, !cut_g4a, !cut_g4b,
    !cut_g6a, !cut_g6b by (apply Hd; lia).
  rewrite !cut_g1, !cut_g3, !cut_g4, !cut_g6 by (apply Hd; lia).
  reflexivity.
Qed.

Lemma dec_digit (c : Z) :
  is_byte c -> in_alphabet c = true -> digit 32 (dec_at c).
Proof.
  intros Hc Ha.
  pose proof (below_spec 256
    (fun c => implb (in_alphabet c) ((0 <=? dec_at c) && (dec_at c <? 32)))
    ltac:(vm_compute; reflexivity) c Hc) as Hall.
  cbv beta in Hall. rewrite Ha in Hall. cbn [implb] in Hall.
  apply andb_true_iff in Hall. unfold digit. lia.
Qed.

Lemma enc_dec_upper (c : Z) :
  is_byte c -> in_alphabet c = true -> enc_at (dec_at c) = to_upper c.
Proof.
  intros Hc Ha.
  pose proof (below_spec 256
    (fun c => implb (in_alphabet c) (enc_at (dec_at c) =? to_upper c))
    ltac:(vm_compute; reflexivity) c Hc) as Hall.
  cbv beta in Hall. rewrite Ha in Hall. cbn [implb] in Hall.
  apply Z.eqb_eq. exact Hall.
Qed.

Lemma map_seq_nth (f : Z -> Z) (v : list Z) :
  map (fun i => f (nth i v 0)) (seq 0 (length v)) = map f v.
Proof.
  induction v as [|c v IH]; cbn [length seq map nth]; [reflexivity|].
  f_equal. rewrite <- seq_shift, map_map. exact IH.
Qed.

(** [X10] Encoding after strict decoding gives the input back in upper case:
    when [ParseStrict] accepts [v] and returns [id], [MarshalText id] is [v]
    with its lower-case letters put in upper case, so the text of an
    identifier is the one canonical spelling among the inputs that decode to
    it. *)
Theorem reencode_canonical (v : list Z) (id : ULID) :
  bytes v -> ParseStrict v = (id, None) ->
  MarshalText id = (map to_upper v, None).
Proof.
  intros Hv Hp. unfold ParseStrict in Hp.
  destruct (Z.eq_dec (len v) EncodedSize) as [Hl|Hl];
    [|rewrite parse_size in Hp by assumption; discriminate].
  destruct (ts_invalid v) eqn:Hts;
    [rewrite parse_invalid in Hp by assumption; discriminate|].
  destruct (v.[0] >? chr "7") eqn:Ho;
    [rewrite parse_overflow in Hp by assumption; discriminate|].
  rewrite parse_decoded in Hp by assumption. cbn [andb] in Hp.
  destruct (strict_scan v) eqn:Hs; [discriminate|].
  injection Hp as <-.
  pose proof (proj1 (strict_scan_alphabet v Hv) Hs) as Hall.
  assert (Hlen : length v = 26%nat) by (unfold len, EncodedSize in Hl; lia).
  assert (Hin : forall i, (i < 26)%nat -> in_alphabet v.[i] = true)
    by (intros i Hi; apply Hall, nth_In; lia).
  rewrite MarshalText_groups. f_equal.
  rewrite groups_decode.
  - rewrite map_map, <- Hlen.
    rewrite (map_seq_nth (fun c => enc_at (dec_at c)) v).
    apply map_ext_in. intros c Hc. apply enc_dec_upper; [|auto].
    unfold bytes in Hv. rewrite Forall_forall in Hv. auto.
  - intros i Hi. apply dec_digit; [apply nth_byte; assumption|auto].
  - rewrite overflow_char in Ho by (apply nth_byte || apply Hin; assumption || lia).
    rewrite Z.gtb_ltb in Ho. apply Z.ltb_ge in Ho. lia.
Qed.

Lemma reencode_canonical_witness :
  MarshalText [1; 86; 62; 58; 181; 211; 214; 118; 76; 97; 239; 185; 147; 2; 189; 91]
  = (map to_upper (str "01arz3ndektsv4rrffq69g5fav"), None).
Proof.
  apply reencode_canonical; [apply bytes_check; reflexivity|reflexivity].
Defined.

(** ** The shape of the text *)

Lemma enc_at_in (g : Z) : digit 32 g -> In (enc_at g) enc.
Proof.
  intros Hg. unfold enc_at. apply nth_In.
  change (length enc) with 32%nat. unfold digit in Hg. lia.
Qed.

(** [X11] [MarshalText] never fails on an identifier: it returns 26
    characters, each one of the 32 symbols of [enc], the first one among
    ['0'] to ['7'], and [ParseStrict] accepts them. *)
Theorem MarshalText_shape (id : ULID) :
  wf_ULID id ->
  snd (MarshalText id) = None
  /\ length (fst (MarshalText id)) = 26%nat
  /\ (forall c, In c (fst (MarshalText id)) -> In c enc)
  /\ chr "0" <= (fst (MarshalText id)).[0] <= chr "7"
  /\ snd (ParseStrict (fst (MarshalText id))) = None.
Proof.
  intros Hwf. rewrite MarshalText_groups. cbn [fst snd].
  split; [reflexivity|]. split; [reflexivity|]. split; [|split].
  - intros c Hc. apply in_map_iff in Hc. destruct Hc as (g & <- & Hg).
    apply enc_at_in.
    pose proof (groups_digits id Hwf) as Hd. rewrite Forall_forall in Hd. auto.
  - pose proof Hwf as Hw. explode_ULID Hw. unfold groups. cbn [map nth].
    pose proof (grp_top b Hb) as Ht.
    pose proof (below_spec 8
      (fun x => (chr "0" <=? enc_at x) && (enc_at x <=? chr "7"))
      ltac:(vm_compute; reflexivity) _ Ht) as Hc.
    cbv beta in Hc. apply andb_true_iff in Hc. lia.
  - pose proof (parse_MarshalText id true Hwf) as P.
    rewrite MarshalText_groups in P. cbn [fst] in P.
    unfold ParseStrict. rewrite P. reflexivity.
Qed.

Lemma MarshalText_shape_witness :
  let id := [1; 86; 62; 58; 181; 211; 214; 118; 76; 97; 239; 185; 147; 2; 189; 91] in
  snd (MarshalText id) = None
  /\ length (fst (MarshalText id)) = 26%nat
  /\ (forall c, In c (fst (MarshalText id)) -> In c enc)
  /\ chr "0" <= (fst (MarshalText id)).[0] <= chr "7"
  /\ snd (ParseStrict (fst (MarshalText id))) = None.
Proof.
  intros id. apply (MarshalText_shape id).
  split; [reflexivity|apply bytes_check; reflexivity].
Defined.

(** [X12] Different identifiers have different texts: two identifiers with
    the same [MarshalText] output are equal. *)
Theorem MarshalText_injective (a b : ULID) :
  wf_ULID a -> wf_ULID b ->
  fst (MarshalText a) = fst (MarshalText b) -> a = b.
Proof.
  intros Ha Hb Heq.
  pose proof (parse_MarshalText a false Ha) as Pa.
  pose proof (parse_MarshalText b false Hb) as Pb.
  rewrite Heq in Pa. congruence.
Qed.

Lemma MarshalText_injective_witness :
  time_bytes 5 ++ repeat 9 10 = time_bytes 5 ++ repeat 9 10.
Proof.
  apply MarshalText_injective;
    [split; [reflexivity|apply bytes_check; reflexivity]
    |split; [reflexivity|apply bytes_check; reflexivity]
    |reflexivity].
Defined.

(** [X13] The buffer versions of the encoders look only at the length of the
    buffer: with a length other than 26, respectively 16, they fail with
    [ErrBufferSize] and leave it as it was; with the right length they
    succeed and what they write does not depend on what the buffer held, so
    it is what [MarshalText], respectively [MarshalBinary], returns, and the
    binary form is the identifier's sixteen bytes. *)
Theorem marshal_buffers (id : ULID) (dst : list Z) :
  (len dst <> EncodedSize -> MarshalTextTo id dst = (dst, Some ErrBufferSize))
  /\ (len dst = EncodedSize -> MarshalTextTo id dst = MarshalText id)
  /\ (len dst <> RawSize -> MarshalBinaryTo id dst = (dst, Some ErrBufferSize))
  /\ (len dst = RawSize -> wf_ULID id ->
      MarshalBinaryTo id dst = MarshalBinary id
      /\ MarshalBinary id = (Bytes id, None)).
Proof.
  split; [|split; [|split]].
  - intros Hl. unfold MarshalTextTo.
    destruct (len dst =? EncodedSize) eqn:E; [apply Z.eqb_eq in E; contradiction|].
    reflexivity.
  - intros Hl. rewrite MarshalTextTo_groups, MarshalText_groups by assumption.
    reflexivity.
  - intros Hl. unfold MarshalBinaryTo.
    destruct (len dst =? RawSize) eqn:E; [apply Z.eqb_eq in E; contradiction|].
    reflexivity.
  - intros Hl [Hid _]. unfold MarshalBinary, MarshalBinaryTo, Bytes.
    rewrite Hl, Z.eqb_refl. cbn [negb].
    change (len (repeat 0 (Z.to_nat RawSize)) =? RawSize) with true. cbn [negb].
    rewrite !copy_same_length; [split; reflexivity| |].
    + rewrite repeat_length, Hid. reflexivity.
    + unfold len, RawSize in Hl. lia.
Qed.

Lemma marshal_buffers_witness :
  let id := time_bytes 5 ++ repeat 9 10 in
  MarshalTextTo id (repeat 1 25) = (repeat 1 25, Some ErrBufferSize)
  /\ MarshalTextTo id (repeat 1 26) = MarshalText id
  /\ MarshalBinaryTo id (repeat 1 17) = (repeat 1 17, Some ErrBufferSize)
  /\ (MarshalBinaryTo id (repeat 1 16) = MarshalBinary id
      /\ MarshalBinary id = (Bytes id, None)).
Proof.
  intros id.
  destruct (marshal_buffers id (repeat 1 25)) as (H1 & _).
  destruct (marshal_buffers id (repeat 1 26)) as (_ & H2 & _).
  destruct (marshal_buffers id (repeat 1 17)) as (_ & _ & H3 & _).
  destruct (marshal_buffers id (repeat 1 16)) as (_ & _ & _ & H4).
  split; [apply H1; vm_compute; discriminate|].
  split; [apply H2; reflexivity|].
  split; [apply H3; vm_compute; discriminate|].
  apply H4; [reflexivity|split; [reflexivity|apply bytes_check; reflexivity]].
Defined.

(** ** JSON and SQL *)

Lemma MarshalJSON_text (id : ULID) :
  MarshalJSON id = (dquote :: fst (MarshalText id) ++ [dquote], None).
Proof.
  unfold MarshalJSON. rewrite MarshalText_groups.
  rewrite MarshalTextTo_groups by reflexivity. reflexivity.
Qed.

(** [X14] [MarshalJSON] never fails and returns 28 bytes, the text of the
    identifier between two double quotes; [UnmarshalJSON] of these bytes
    succeeds and sets the receiver to the identifier. *)
Theorem JSON_roundtrip (id id0 : ULID) :
  wf_ULID id ->
  MarshalJSON id = (dquote :: fst (MarshalText id) ++ [dquote], None)
  /\ length (fst (MarshalJSON id)) = 28%nat
  /\ UnmarshalJSON id0 (fst (MarshalJSON id)) = (id, None).
Proof.
  intros Hwf. rewrite MarshalJSON_text. cbn [fst].
  split; [reflexivity|].
  rewrite MarshalText_groups. cbn [fst]. split; [reflexivity|].
  unfold UnmarshalJSON.
  change (firstn 26 (skipn 1 (dquote :: map enc_at (groups id) ++ [dquote])))
    with (map enc_at (groups id)).
  change (negb (len (dquote :: map enc_at (groups id) ++ [dquote]) =? 28))
    with false.
  change ((dquote :: map enc_at (groups id) ++ [dquote]).[0]) with dquote.
  change ((dquote :: map enc_at (groups id) ++ [dquote]).[27]) with dquote.
  rewrite Z.eqb_refl. cbn [negb orb].
  unfold UnmarshalText.
  pose proof (parse_MarshalText id false Hwf) as P.
  rewrite MarshalText_groups in P. cbn [fst] in P.
  rewrite P. reflexivity.
Qed.

Lemma JSON_roundtrip_witness :
  let id := [1; 86; 62; 58; 181; 211; 214; 118; 76; 97; 239; 185; 147; 2; 189; 91] in
  MarshalJSON id = (dquote :: fst (MarshalText id) ++ [dquote], None)
  /\ length (fst (MarshalJSON id)) = 28%nat
  /\ UnmarshalJSON Nil (fst (MarshalJSON id)) = (id, None).
Proof.
  intros id. apply (JSON_roundtrip id Nil).
  split; [reflexivity|apply bytes_check; reflexivity].
Defined.

(** ** [String], [Value] and [Scan] *)

Lemma cache_Load_ok (cache : string_cache) (id : ULID) (s : list Z) :
  cache_ok cache -> cache_Load cache id = Some s -> s = fst (MarshalText id).
Proof.
  unfold cache_ok. induction 1 as [|[k t] cache Hk Hc IH]; cbn [cache_Load].
  - discriminate.
  - destruct (bytes_eqb k id) eqn:E.
    + apply bytes_eqb_eq in E. subst k. intros [= <-]. exact Hk.
    + exact IH.
Qed.

Lemma ULID_String_text (cache : string_cache) (live : bool) (buf : list Z)
  (id : ULID) :
  cache_ok cache -> len buf = EncodedSize ->
  fst (ULID_String cache live buf id) = fst (MarshalText id)
  /\ cache_ok (snd (ULID_String cache live buf id)).
Proof.
  intros Hc Hl. unfold ULID_String.
  assert (Hfresh : fst (MarshalTextTo id buf) = fst (MarshalText id))
    by (rewrite MarshalTextTo_groups, MarshalText_groups by assumption;
        reflexivity).
  assert (Hstore : cache_ok (cache_Store cache id (fst (MarshalTextTo id buf))))
    by (constructor; [exact Hfresh|exact Hc]).
  destruct (cache_Load cache id) as [s|] eqn:E; [destruct live|]; cbn [fst snd];
    try (split; assumption).
  split; [exact (cache_Load_ok cache id s Hc E)|exact Hc].
Qed.

(** [X15] [String] returns the 26-character text of the identifier, the one
    [MarshalText] writes, whatever a consistent cache holds, whether the
    cached entry is still alive and whatever the pooled buffer held; it
    leaves the cache consistent, the empty cache is consistent, and a call
    that finds a live entry does not change the cache. *)
Theorem String_is_text (cache : string_cache) (live : bool) (buf : list Z)
  (id : ULID) :
  cache_ok cache -> len buf = EncodedSize ->
  fst (ULID_String cache live buf id) = fst (MarshalText id)
  /\ cache_ok (snd (ULID_String cache live buf id))
  /\ cache_ok []
  /\ (forall buf', len buf' = EncodedSize ->
        ULID_String (snd (ULID_String cache live buf id)) true buf' id
        = (fst (MarshalText id), snd (ULID_String cache live buf id))).
Proof.
  intros Hc Hl.
  destruct (ULID_String_text cache live buf id Hc Hl) as [Ht Hok].
  split; [exact Ht|]. split; [exact Hok|]. split; [constructor|].
  intros buf' Hl'.
  assert (Hload : exists s, cache_Load (snd (ULID_String cache live buf id)) id
                            = Some s).
  { unfold ULID_String.
    assert (Hrefl : bytes_eqb id id = true) by (apply bytes_eqb_eq; reflexivity).
    destruct (cache_Load cache id) as [s|] eqn:E; [destruct live|];
      cbn [snd cache_Store cache_Load]; rewrite ?Hrefl; eauto. }
  destruct Hload as [s Hs].
  unfold ULID_String at 1. rewrite Hs.
  rewrite (cache_Load_ok _ id s Hok Hs). reflexivity.
Qed.

Lemma String_is_text_witness :
  let id := [1; 86; 62; 58; 181; 211; 214; 118; 76; 97; 239; 185; 147; 2; 189; 91] in
  fst (ULID_String [] false (repeat 9 26) id) = fst (MarshalText id)
  /\ cache_ok (snd (ULID_String [] false (repeat 9 26) id))
  /\ cache_ok []
  /\ (forall buf', len buf' = EncodedSize ->
        ULID_String (snd (ULID_String [] false (repeat 9 26) id)) true buf' id
        = (fst (MarshalText id), snd (ULID_String [] false (repeat 9 26) id))).
Proof.
  intros id. apply (String_is_text [] false (repeat 9 26) id).
  - constructor.
  - reflexivity.
Defined.

(** [X16] What [Value] gives the database, [Scan] reads back: [Value] never
    fails and returns the text as a string, and [Scan] of that string, or of
    the same bytes as a byte slice, sets the receiver to the identifier
    without error; [Scan] of a value of any other type fails with
    [ErrScanValue] and leaves the receiver as it was. *)
Theorem Value_Scan_roundtrip (cache : string_cache) (live : bool)
  (buf : list Z) (id id0 : ULID) :
  wf_ULID id -> cache_ok cache -> len buf = EncodedSize ->
  fst (Value cache live buf id) = (SrcString (fst (MarshalText id)), None)
  /\ Scan id0 (fst (fst (Value cache live buf id))) = (id, None)
  /\ Scan id0 (SrcBytes (fst (MarshalText id))) = (id, None)
  /\ Scan id0 SrcOther = (id0, Some ErrScanValue).
Proof.
  intros Hwf Hc Hl.
  destruct (ULID_String_text cache live buf id Hc Hl) as [Ht _].
  assert (Hv : fst (Value cache live buf id)
               = (SrcString (fst (MarshalText id)), None)).
  { unfold Value. destruct (ULID_String cache live buf id) as [s c'].
    cbn [fst] in *. rewrite Ht. reflexivity. }
  assert (Hu : UnmarshalText id0 (fst (MarshalText id)) = (id, None)).
  { unfold UnmarshalText. rewrite parse_MarshalText by assumption. reflexivity. }
  rewrite Hv. cbn [fst Scan]. repeat split; assumption.
Qed.

Lemma Value_Scan_roundtrip_witness :
  let id := [1; 86; 62; 58; 181; 211; 214; 118; 76; 97; 239; 185; 147; 2; 189; 91] in
  fst (Value [] true (repeat 0 26) id) = (SrcString (fst (MarshalText id)), None)
  /\ Scan Nil (fst (fst (Value [] true (repeat 0 26) id))) = (id, None)
  /\ Scan Nil (SrcBytes (fst (MarshalText id))) = (id, None)
  /\ Scan Nil SrcOther = (Nil, Some ErrScanValue).
Proof.
  intros id. apply (Value_Scan_roundtrip [] true (repeat 0 26) id Nil).
  - split; [reflexivity|apply bytes_check; reflexivity].
  - constructor.
  - reflexivity.
Defined.

(** ** Reading entropy from a byte slice *)

Lemma ReadFull_slice_10 (fuel : nat) (e rest : list Z) (buf : list Z) :
  length e = 10%nat -> length buf = 10%nat ->
  ReadFull (S fuel) (e ++ rest : sliceReader) buf
  = Some (rest : sliceReader, e, 10, None).
Proof.
  intros He Hb.
  do 10 (destruct e as [|? e]; [discriminate He|]).
  destruct e; [|discriminate He].
  do 10 (destruct buf as [|? buf]; [discriminate Hb|]).
  destruct buf; [|discriminate Hb].
  destruct fuel; reflexivity.
Qed.

Lemma ReadFull_slice_8 (fuel : nat) (e rest : list Z) (buf : list Z) :
  length e = 8%nat -> length buf = 8%nat ->
  ReadFull (S fuel) (e ++ rest : sliceReader) buf
  = Some (rest : sliceReader, e, 8, None).
Proof.
  intros He Hb.
  do 8 (destruct e as [|? e]; [discriminate He|]).
  destruct e; [|discriminate He].
  do 8 (destruct buf as [|? buf]; [discriminate Hb|]).
  destruct buf; [|discriminate Hb].
  destruct fuel; reflexivity.
Qed.

Lemma ReadFull_slice_short (fuel : nat) (s : list Z) (n : nat) :
  (length s < n)%nat -> (n <= 10)%nat ->
  exists (buf' : list Z) (k : Z),
    ReadFull (S (S fuel)) (s : sliceReader) (repeat 0 n)
    = Some ([] : sliceReader, buf', k,
            Some (if (0 <? length s)%nat then ErrUnexpectedEOF else EOF)).
Proof.
  intros Hs Hn.
  do 10 (destruct n as [|n]; [
    repeat (destruct s as [|? s]; [do 2 eexists; reflexivity|]);
    cbn [length] in Hs; lia|]).
  destruct n; [|lia].
  repeat (destruct s as [|? s]; [do 2 eexists; reflexivity|]).
  cbn [length] in Hs; lia.
Qed.

Lemma New_slice_ok (fuel : nat) (t : Z) (e rest : list Z) :
  t <= MaxTime -> length e = 10%nat ->
  New (S fuel) t (e ++ rest : sliceReader)
  = Some (rest : sliceReader, time_bytes t ++ e, None).
Proof.
  intros Ht He. unfold New.
  assert ((t >? MaxTime) = false) as ->
      by (rewrite Z.gtb_ltb; apply Z.ltb_ge; lia).
  change (skipn 6 (_ ++ repeat 0 10)) with (repeat 0 10).
  rewrite ReadFull_slice_10 by (assumption || reflexivity).
  reflexivity.
Qed.

Lemma New_slice_short (fuel : nat) (t : Z) (s : list Z) :
  t <= MaxTime -> (length s < 10)%nat ->
  New (S (S fuel)) t (s : sliceReader)
  = Some ([] : sliceReader, Nil,
          Some (if (0 <? length s)%nat then ErrUnexpectedEOF else EOF)).
Proof.
  intros Ht Hs. unfold New.
  assert ((t >? MaxTime) = false) as ->
      by (rewrite Z.gtb_ltb; apply Z.ltb_ge; lia).
  change (skipn 6 (_ ++ repeat 0 10)) with (repeat 0 10).
  destruct (ReadFull_slice_short fuel s 10 Hs ltac:(lia)) as (buf' & k & ->).
  reflexivity.
Qed.

(** [X17] [New] and its entropy source.  A timestamp above [MaxTime] is
    refused with [ErrBigTime] and the zero identifier before anything is
    read.  Otherwise [New] takes exactly ten bytes from a byte-slice source:
    with ten or more bytes on offer the identifier is the six timestamp
    bytes followed by the first ten, and the rest stays in the source; with
    fewer it returns the zero identifier and the error of [io.ReadFull],
    [EOF] from an empty source and [ErrUnexpectedEOF] otherwise. *)
Theorem New_reads_ten_bytes (t : Z) :
  (MaxTime < t ->
   forall (R : Type) (rd : Reader R) (fuel : nat) (r : R),
     New fuel t r = Some (r, Nil, Some ErrBigTime))
  /\ (t <= MaxTime ->
      forall (fuel : nat) (e rest : list Z),
        length e = 10%nat ->
        New (S fuel) t (e ++ rest : sliceReader)
        = Some (rest : sliceReader, time_bytes t ++ e, None))
  /\ (t <= MaxTime ->
      forall (fuel : nat) (s : list Z),
        (length s < 10)%nat ->
        New (S (S fuel)) t (s : sliceReader)
        = Some ([] : sliceReader, Nil,
                Some (if (0 <? length s)%nat then ErrUnexpectedEOF else EOF))).
Proof.
  split; [|split].
  - intros Ht R rd fuel r. unfold New.
    assert ((t >? MaxTime) = true) as ->
        by (rewrite Z.gtb_ltb; apply Z.ltb_lt; lia).
    reflexivity.
  - intros Ht fuel e rest He. apply New_slice_ok; assumption.
  - intros Ht fuel s Hs. apply New_slice_short; assumption.
Qed.

Lemma New_reads_ten_bytes_witness :
  New 1 (2 ^ 48) ([1; 2; 3] : sliceReader)
    = Some ([1; 2; 3] : sliceReader, Nil, Some ErrBigTime)
  /\ New 1 5 ([1; 2; 3; 4; 5; 6; 7; 8; 9; 10] ++ [11; 12] : sliceReader)
     = Some ([11; 12] : sliceReader,
             time_bytes 5 ++ [1; 2; 3; 4; 5; 6; 7; 8; 9; 10], None)
  /\ New 2 5 ([1; 2; 3] : sliceReader)
     = Some ([] : sliceReader, Nil, Some ErrUnexpectedEOF)
  /\ New 2 5 ([] : sliceReader) = Some ([] : sliceReader, Nil, Some EOF).
Proof.
  destruct (New_reads_ten_bytes (2 ^ 48)) as (Hbig & _).
  destruct (New_reads_ten_bytes 5) as (_ & Hok & Hshort).
  split; [apply Hbig; rewrite MaxTime_value; lia|].
  split; [apply Hok; [rewrite MaxTime_value; lia|reflexivity]|].
  split.
  - apply (Hshort ltac:(rewrite MaxTime_value; lia) 0%nat [1; 2; 3]). cbn. lia.
  - apply (Hshort ltac:(rewrite MaxTime_value; lia) 0%nat []). cbn. lia.
Defined.

(** ** Seeding the monotonic reader *)

Lemma binary_Read_slice_ok (fuel : nat) (e rest : list Z) :
  length e = 8%nat -> bytes e ->
  binary_Read_uint64 (S fuel) (e ++ rest : sliceReader)
  = Some (rest : sliceReader, inl (be_value 256 e)).
Proof.
  intros He Hb. unfold binary_Read_uint64.
  rewrite ReadFull_slice_8 by (assumption || reflexivity).
  do 8 (destruct e as [|? e]; [discriminate He|]).
  destruct e; [|discriminate He].
  rewrite BigEndian_Uint64_value by assumption. reflexivity.
Qed.

Lemma binary_Read_slice_short (fuel : nat) (s : list Z) :
  (length s < 8)%nat ->
  binary_Read_uint64 (S (S fuel)) (s : sliceReader)
  = Some ([] : sliceReader,
          inr (if (0 <? length s)%nat then ErrUnexpectedEOF else EOF)).
Proof.
  intros Hs. unfold binary_Read_uint64.
  destruct (ReadFull_slice_short fuel s 8 Hs ltac:(lia)) as (buf' & k & ->).
  reflexivity.
Qed.

Lemma seed_range (e : list Z) :
  length e = 8%nat -> bytes e -> 0 <= be_value 256 e <= MaxUint64.
Proof.
  intros He Hb. pose proof (be_value_bound 256 ltac:(lia) e Hb) as Hv.
  rewrite He in Hv. change (256 ^ Z.of_nat 8) with (2 ^ 64) in Hv.
  unfold MaxUint64. lia.
Qed.

(** [X18] [MonotonicReader] over a byte-slice source takes exactly eight
    bytes: their big-endian value, between 0 and [2^64 - 1], becomes both the
    seed and the counter, the timestamp marker is the one given and the rest
    of the source stays for later; with fewer than eight bytes on offer the
    constructor gives up (it panics) with the error of the read, [EOF] from
    an empty source and [ErrUnexpectedEOF] otherwise. *)
Theorem MonotonicReader_seed (ms : Z) (fuel : nat) :
  (forall e rest : list Z,
      length e = 8%nat -> bytes e ->
      MonotonicReader (S fuel) ms (e ++ rest : sliceReader)
      = Some (inl (mkMono (rest : sliceReader) ms (be_value 256 e)
                     (be_value 256 e)))
      /\ 0 <= be_value 256 e <= MaxUint64)
  /\ (forall s : list Z,
         (length s < 8)%nat ->
         MonotonicReader (S (S fuel)) ms (s : sliceReader)
         = Some (inr (if (0 <? length s)%nat then ErrUnexpectedEOF else EOF))).
Proof.
  split.
  - intros e rest He Hb. split; [|apply seed_range; assumption].
    unfold MonotonicReader. rewrite binary_Read_slice_ok by assumption.
    reflexivity.
  - intros s Hs. unfold MonotonicReader.
    rewrite binary_Read_slice_short by assumption. reflexivity.
Qed.

Lemma MonotonicReader_seed_witness :
  (MonotonicReader 1 7 ([0; 0; 0; 0; 0; 0; 1; 2] ++ [9; 9] : sliceReader)
   = Some (inl (mkMono ([9; 9] : sliceReader) 7
                  (be_value 256 [0; 0; 0; 0; 0; 0; 1; 2])
                  (be_value 256 [0; 0; 0; 0; 0; 0; 1; 2])))
   /\ 0 <= be_value 256 [0; 0; 0; 0; 0; 0; 1; 2] <= MaxUint64)
  /\ MonotonicReader 2 7 ([1; 2; 3] : sliceReader) = Some (inr ErrUnexpectedEOF).
Proof.
  destruct (MonotonicReader_seed 7 0) as [Hok Hshort]. split.
  - apply Hok; [reflexivity|apply bytes_check; reflexivity].
  - apply (Hshort [1; 2; 3]). cbn. lia.
Defined.

(** ** The monotonic reader with timestamp marker 0 *)

(** [X19] With timestamp marker 0 the monotonic reader does not increment:
    every 10-byte read draws a new seed, eight bytes of the underlying
    byte-slice source, makes it the counter and emits its six low-order
    bytes, so the entropy of consecutive reads follows the source and not
    the previous entropy; when the source has fewer than eight bytes left
    the read fails with the source's error, the buffer untouched and seed
    and counter as they were.  For any marker, a read into a buffer whose
    length is not 10 fails with [ErrDataSize] and changes nothing. *)
Theorem mono_reseeds_at_zero (fuel : nat) (inc rand : Z) (p : list Z) :
  (length p = 10%nat ->
   (forall e rest : list Z,
       length e = 8%nat -> bytes e ->
       monoReader_Read (S fuel) (mkMono (e ++ rest : sliceReader) 0 inc rand) p
       = Some (mkMono (rest : sliceReader) 0 (be_value 256 e) (be_value 256 e),
               time_bytes (be_value 256 e) ++ [p.[8]; p.[9]; p.[8]; p.[9]],
               10, None))
   /\ (forall s : list Z,
          (length s < 8)%nat ->
          monoReader_Read (S (S fuel)) (mkMono (s : sliceReader) 0 inc rand) p
          = Some (mkMono ([] : sliceReader) 0 inc rand, p, 0,
                  Some (if (0 <? length s)%nat then ErrUnexpectedEOF else EOF))))
  /\ (length p <> 10%nat ->
      forall (R : Type) (rd : Reader R) (m : monoReader R),
        monoReader_Read fuel m p = Some (m, p, 0, Some ErrDataSize)).
Proof.
  split.
  - intros Hp. apply len_10 in Hp as El. split.
    + intros e rest He Hb. unfold monoReader_Read.
      rewrite El. cbn [negb m_ms mReader Z.eqb].
      rewrite binary_Read_slice_ok by assumption.
      rewrite mono_emit_shape by assumption. reflexivity.
    + intros s Hs. unfold monoReader_Read.
      rewrite El. cbn [negb m_ms mReader m_inc m_rand Z.eqb].
      rewrite binary_Read_slice_short by assumption. reflexivity.
  - intros Hp R rd m. unfold monoReader_Read.
    destruct (len p =? 10) eqn:E; [apply len_10 in E; contradiction|].
    reflexivity.
Qed.

Lemma mono_reseeds_at_zero_witness :
  let p := [10; 11; 12; 13; 14; 15; 16; 17; 18; 19] in
  monoReader_Read 1
    (mkMono ([1; 2; 3; 4; 5; 6; 7; 8] ++ [9] : sliceReader) 0 3 3) p
  = Some (mkMono ([9] : sliceReader) 0 (be_value 256 [1; 2; 3; 4; 5; 6; 7; 8])
            (be_value 256 [1; 2; 3; 4; 5; 6; 7; 8]),
          time_bytes (be_value 256 [1; 2; 3; 4; 5; 6; 7; 8])
            ++ [p.[8]; p.[9]; p.[8]; p.[9]],
          10, None)
  /\ monoReader_Read 2 (mkMono ([9] : sliceReader) 0 3 3) p
     = Some (mkMono ([] : sliceReader) 0 3 3, p, 0, Some ErrUnexpectedEOF)
  /\ monoReader_Read 1 (mkMono ([9] : sliceReader) 7 3 3) [1; 2; 3]
     = Some (mkMono ([9] : sliceReader) 7 3 3, [1; 2; 3], 0, Some ErrDataSize).
Proof.
  intros p.
  destruct (mono_reseeds_at_zero 0 3 3 p) as [Hten _].
  destruct (Hten ltac:(reflexivity)) as [Hok Hshort].
  destruct (mono_reseeds_at_zero 1 3 3 [1; 2; 3]) as [_ Hsize].
  split; [apply Hok; [reflexivity|apply bytes_check; reflexivity]|].
  split; [apply (Hshort [9]); cbn; lia|].
  apply Hsize. cbn. lia.
Defined.

(** ** After the overflow *)

Section Refused.
Context {R : Type} `{Reader R}.
Variable fuel : nat.

Lemma mono_read_refused (m : monoReader R) (p : list Z) :
  m_ms m <> 0 -> length p = 10%nat ->
  0 <= m_inc m + 1 < m_rand m -> m_rand m <= MaxUint64 ->
  monoReader_Read fuel m p
  = Some (mkMono (mReader m) (m_ms m) (m_inc m + 1) (m_rand m), p, 0,
          Some ErrMonotonicOverflow).
Proof.
  intros Hms Hl Hinc Hr. unfold monoReader_Read, MaxUint64 in *.
  apply len_10 in Hl as El. rewrite El. cbn [negb].
  apply Z.eqb_neq in Hms. rewrite Hms. cbn [m_inc m_rand].
  unfold u64. rewrite Z.mod_small by lia.
  assert ((m_inc m + 1 <? m_rand m) = true) as -> by (apply Z.ltb_lt; lia).
  reflexivity.
Qed.

Lemma read_outcomes_refused (ps : list (list Z)) (m : monoReader R) :
  m_ms m <> 0 -> Forall (fun p => length p = 10%nat) ps ->
  0 <= m_inc m -> m_inc m + Z.of_nat (length ps) < m_rand m ->
  m_rand m <= MaxUint64 ->
  read_outcomes fuel m ps
  = Some (mkMono (mReader m) (m_ms m) (m_inc m + Z.of_nat (length ps))
            (m_rand m),
          map (fun p => (p, Some ErrMonotonicOverflow)) ps).
Proof.
  intros Hms Hps. revert m Hms.
  induction Hps as [|p ps Hp Hps IH]; intros m Hms H0 Hn Hr.
  - cbn [read_outcomes length map Z.of_nat]. rewrite Z.add_0_r.
    destruct m; reflexivity.
  - cbn [length] in Hn. rewrite Nat2Z.inj_succ in Hn.
    cbn [read_outcomes map].
    rewrite mono_read_refused by (assumption || lia).
    rewrite IH; cbn [m_ms m_inc m_rand mReader]; try (assumption || lia).
    cbn [length]. rewrite Nat2Z.inj_succ.
    replace (m_inc m + 1 + Z.of_nat (length ps))
      with (m_inc m + Z.succ (Z.of_nat (length ps))) by lia.
    reflexivity.
Qed.
End Refused.

(** [X20] The overflow error does not last.  In the increment branch a read
    is refused exactly while the incremented counter is below the seed: from
    counter [c], as long as [c + k] stays below the seed, [k] consecutive
    reads all fail with [ErrMonotonicOverflow], leave their buffers untouched
    and the counter at [c + k]; and the read that brings the counter up to
    the seed succeeds and emits the seed's six low-order bytes.  So after
    the wrap to 0 a reader with seed [r] refuses [r - 1] reads and then
    starts again from [r]. *)
Theorem overflow_is_transient {R : Type} `{Reader R} (fuel : nat)
  (m : monoReader R) :
  m_ms m <> 0 -> 0 <= m_inc m -> m_rand m <= MaxUint64 ->
  (forall ps : list (list Z),
      Forall (fun p => length p = 10%nat) ps ->
      m_inc m + Z.of_nat (length ps) < m_rand m ->
      read_outcomes fuel m ps
      = Some (mkMono (mReader m) (m_ms m) (m_inc m + Z.of_nat (length ps))
                (m_rand m),
              map (fun p => (p, Some ErrMonotonicOverflow)) ps))
  /\ (forall p : list Z,
         length p = 10%nat -> m_inc m + 1 = m_rand m ->
         monoReader_Read fuel m p
         = Some (mkMono (mReader m) (m_ms m) (m_rand m) (m_rand m),
                 time_bytes (m_rand m) ++ [p.[8]; p.[9]; p.[8]; p.[9]],
                 10, None)).
Proof.
  intros Hms H0 Hr. split.
  - intros ps Hps Hn. apply read_outcomes_refused; assumption.
  - intros p Hp Hinc.
    rewrite mono_read_increment
      by (unfold MaxUint64 in *; assumption || lia).
    rewrite Hinc. reflexivity.
Qed.

Lemma overflow_is_transient_witness :
  let m := mkMono ([] : sliceReader) 7 0 3 in
  read_outcomes 1 m [repeat 1 10; repeat 2 10]
  = Some (mkMono ([] : sliceReader) 7 2 3,
          [(repeat 1 10, Some ErrMonotonicOverflow);
           (repeat 2 10, Some ErrMonotonicOverflow)])
  /\ monoReader_Read 1 (mkMono ([] : sliceReader) 7 2 3) (repeat 4 10)
     = Some (mkMono ([] : sliceReader) 7 3 3,
             time_bytes 3 ++ [4; 4; 4; 4], 10, None).
Proof.
  intros m.
  destruct (overflow_is_transient 1 m) as [Hrefused _];
    [cbn; lia|cbn; lia|cbn; unfold MaxUint64; lia|].
  destruct (overflow_is_transient 1 (mkMono ([] : sliceReader) 7 2 3))
    as [_ Hagain]; [cbn; lia|cbn; lia|cbn; unfold MaxUint64; lia|].
  split.
  - apply (Hrefused [repeat 1 10; repeat 2 10]).
    + repeat (apply Forall_cons; [reflexivity|]). apply Forall_nil.
    + cbn. lia.
  - apply (Hagain (repeat 4 10)); reflexivity.
Defined.

(** ** Counting zero bits *)

Lemma LeadingZeros8_spec (b : Z) :
  0 < b < 256 ->
  0 <= LeadingZeros8 b <= 7
  /\ 2 ^ (7 - LeadingZeros8 b) <= b < 2 * 2 ^ (7 - LeadingZeros8 b).
Proof.
  intros Hb.
  pose proof (below_spec 256
    (fun b => (b =? 0)
              || ((0 <=? LeadingZeros8 b) && (LeadingZeros8 b <=? 7)
                  && (2 ^ (7 - LeadingZeros8 b) <=? b)
                  && (b <? 2 * 2 ^ (7 - LeadingZeros8 b))))
    ltac:(vm_compute; reflexivity) b ltac:(lia)) as Hc.
  cbv beta in Hc. apply orb_true_iff in Hc. destruct Hc as [Hc|Hc].
  - apply Z.eqb_eq in Hc. lia.
  - repeat (apply andb_true_iff in Hc; destruct Hc as [Hc ?]). lia.
Qed.

Lemma TrailingZeros8_spec (b : Z) :
  0 < b < 256 ->
  0 <= TrailingZeros8 b <= 7
  /\ b mod 2 ^ TrailingZeros8 b = 0
  /\ Z.odd (b / 2 ^ TrailingZeros8 b) = true.
Proof.
  intros Hb.
  pose proof (below_spec 256
    (fun b => (b =? 0)
              || ((0 <=? TrailingZeros8 b) && (TrailingZeros8 b <=? 7)
                  && (b mod 2 ^ TrailingZeros8 b =? 0)
                  && Z.odd (b / 2 ^ TrailingZeros8 b)))
    ltac:(vm_compute; reflexivity) b ltac:(lia)) as Hc.
  cbv beta in Hc. apply orb_true_iff in Hc. destruct Hc as [Hc|Hc].
  - apply Z.eqb_eq in Hc. lia.
  - repeat (apply andb_true_iff in Hc; destruct Hc as [Hc ?]).
    split; [lia|]. split; [apply Z.eqb_eq; assumption|assumption].
Qed.

Lemma LeadingZeros_loop_spec (l : list Z) (i : Z) :
  bytes l -> 0 <= i ->
  (be_value 256 l = 0 /\ LeadingZeros_loop i l = 128)
  \/ (0 < be_value 256 l
      /\ 8 * i <= LeadingZeros_loop i l < 8 * (i + Z.of_nat (length l))
      /\ 2 ^ (8 * (i + Z.of_nat (length l)) - 1 - LeadingZeros_loop i l)
         <= be_value 256 l
         < 2 * 2 ^ (8 * (i + Z.of_nat (length l)) - 1 - LeadingZeros_loop i l)).
Proof.
  intros Hl. revert i. induction Hl as [|b l Hb Hl IH]; intros i Hi.
  - left. split; reflexivity.
  - cbn [LeadingZeros_loop length]. rewrite Nat2Z.inj_succ, be_value_cons.
    destruct (Z.eqb_spec b 0) as [E|E]; cbn [negb].
    + subst b. rewrite Z.mul_0_l, Z.add_0_l.
      destruct (IH (i + 1) ltac:(lia)) as [[Hv Hr]|(Hv & Hr & Hp)].
      * left. split; assumption.
      * right. split; [assumption|].
        replace (i + Z.succ (Z.of_nat (length l)))
          with (i + 1 + Z.of_nat (length l)) by lia.
        split; [lia|assumption].
    + right. unfold is_byte in Hb.
      destruct (LeadingZeros8_spec b ltac:(lia)) as (Hz & Hlo).
      pose proof (be_value_bound 256 ltac:(lia) l Hl) as Hrest.
      set (m := Z.of_nat (length l)) in *.
      set (z := LeadingZeros8 b) in *.
      assert (Hm : 0 <= m) by (unfold m; lia).
      replace (8 * (i + Z.succ m) - 1 - (i * 8 + z)) with (8 * m + (7 - z))
        by lia.
      rewrite Z.pow_add_r by lia.
      replace (2 ^ (8 * m)) with (256 ^ m)
        by (change 256 with (2 ^ 8); rewrite <- Z.pow_mul_r by lia; reflexivity).
      assert (HP : 0 < 256 ^ m) by (apply Z.pow_pos_nonneg; lia).
      set (P := 256 ^ m) in *. set (A := 2 ^ (7 - z)) in *.
      split; [nia|]. split; [lia|]. nia.
Qed.

Lemma be_value_rev (l : list Z) : be_value 256 (rev l) = le_value l.
Proof.
  induction l as [|b l IH]; [reflexivity|].
  cbn [rev le_value]. rewrite be_value_app, IH. cbn [length].
  change (be_value 256 [b]) with (0 * 256 + b).
  change (256 ^ Z.of_nat 1) with 256. ring.
Qed.

Lemma odd_shifted (q V t : Z) :
  0 <= t <= 7 -> Z.odd q = true -> Z.odd (q + 2 ^ (8 - t) * V) = true.
Proof.
  intros Ht Hq. rewrite Z.odd_add, Hq.
  replace (8 - t) with (Z.succ (7 - t)) by lia.
  rewrite Z.pow_succ_r by lia.
  rewrite <- Z.mul_assoc, Z.odd_mul. reflexivity.
Qed.

Lemma tz_from_spec (l : list Z) (k : Z) :
  bytes l -> 0 <= k ->
  (le_value l = 0 /\ tz_from k l = 128)
  \/ (0 < le_value l
      /\ exists t, tz_from k l = 8 * k + t
                   /\ 0 <= t < 8 * Z.of_nat (length l)
                   /\ le_value l mod 2 ^ t = 0
                   /\ Z.odd (le_value l / 2 ^ t) = true).
Proof.
  intros Hl. revert k. induction Hl as [|b l Hb Hl IH]; intros k Hk.
  - left. split; reflexivity.
  - cbn [tz_from le_value length]. rewrite Nat2Z.inj_succ.
    assert (Hv : 0 <= le_value l).
    { clear IH. induction Hl as [|c l Hc Hl IHl]; cbn [le_value]; [lia|].
      unfold is_byte in Hc. lia. }
    destruct (Z.eqb_spec b 0) as [E|E]; cbn [negb].
    + subst b. rewrite Z.add_0_l.
      destruct (IH (k + 1) ltac:(lia)) as [[Hz Hr]|(Hp & t & Hr & Ht & Hm & Ho)].
      * left. split; [lia|assumption].
      * right. split; [lia|]. exists (8 + t).
        split; [lia|]. split; [lia|].
        rewrite Z.pow_add_r by lia. change (2 ^ 8) with 256.
        assert (H2 : 0 < 2 ^ t) by (apply Z.pow_pos_nonneg; lia).
        split.
        -- rewrite Z.mul_mod_distr_l by lia. rewrite Hm. lia.
        -- rewrite Z.div_mul_cancel_l by lia. assumption.
    + right. unfold is_byte in Hb.
      destruct (TrailingZeros8_spec b ltac:(lia)) as (Ht & Hm & Ho).
      split; [lia|]. exists (TrailingZeros8 b).
      set (t := TrailingZeros8 b) in *.
      assert (H2 : 0 < 2 ^ t) by (apply Z.pow_pos_nonneg; lia).
      split; [lia|]. split; [lia|].
      assert (Hb' : b = 2 ^ t * (b / 2 ^ t))
        by (pose proof (Z.div_mod b (2 ^ t) ltac:(lia)); lia).
      assert (H256 : 256 = 2 ^ t * 2 ^ (8 - t)).
      { rewrite <- Z.pow_add_r by lia. replace (t + (8 - t)) with 8 by lia.
        reflexivity. }
      assert (Hsum : b + 256 * le_value l
                     = (b / 2 ^ t + 2 ^ (8 - t) * le_value l) * 2 ^ t).
      { rewrite Hb' at 1. rewrite H256 at 1. ring. }
      rewrite Hsum. split.
      * apply Z.mod_mul. lia.
      * rewrite Z.div_mul by lia. apply odd_shifted; assumption.
Qed.

Lemma TrailingZeros_rev (id : ULID) :
  length id = 16%nat -> TrailingZeros id = tz_from 0 (rev id).
Proof.
  intros Hl.
  do 16 (destruct id as [|? id]; [discriminate Hl|]).
  destruct id; [|discriminate Hl].
  reflexivity.
Qed.

Lemma value_zero (l : list Z) :
  bytes l -> be_value 256 l = 0 -> l = repeat 0 (length l).
Proof.
  induction 1 as [|b l Hb Hl IH]; intros Hv; [reflexivity|].
  rewrite be_value_cons in Hv. cbn [length repeat].
  pose proof (be_value_bound 256 ltac:(lia) l Hl) as Hr.
  assert (HP : 0 < 256 ^ Z.of_nat (length l)) by (apply Z.pow_pos_nonneg; lia).
  unfold is_byte in Hb.
  assert (b = 0) by nia. subst b.
  f_equal. apply IH. lia.
Qed.

Lemma zero_value (id : ULID) : wf_ULID id -> (uint128 id = 0 <-> id = Nil).
Proof.
  intros [Hl Hb]. split.
  - intros Hv. apply value_zero in Hv; [|assumption].
    rewrite Hl in Hv. exact Hv.
  - intros ->. reflexivity.
Qed.

Lemma LeadingZeros_cases (id : ULID) :
  wf_ULID id ->
  (uint128 id = 0 /\ LeadingZeros id = 128)
  \/ (0 < uint128 id
      /\ 0 <= LeadingZeros id < 128
      /\ 2 ^ (127 - LeadingZeros id) <= uint128 id
         < 2 * 2 ^ (127 - LeadingZeros id)).
Proof.
  intros [Hl Hb].
  destruct (LeadingZeros_loop_spec id 0 Hb ltac:(lia)) as [H|(Hv & Hr & Hp)].
  - left. exact H.
  - right. rewrite Hl in Hr, Hp. cbn in Hr.
    change (8 * (0 + Z.of_nat 16) - 1) with 127 in Hp.
    unfold uint128, LeadingZeros. split; [assumption|]. split; [lia|assumption].
Qed.

Lemma TrailingZeros_cases (id : ULID) :
  wf_ULID id ->
  (uint128 id = 0 /\ TrailingZeros id = 128)
  \/ (0 < uint128 id
      /\ 0 <= TrailingZeros id < 128
      /\ uint128 id mod 2 ^ TrailingZeros id = 0
      /\ Z.odd (uint128 id / 2 ^ TrailingZeros id) = true).
Proof.
  intros [Hl Hb].
  assert (Hu : uint128 id = le_value (rev id))
    by (unfold uint128; rewrite <- be_value_rev, rev_involutive; reflexivity).
  rewrite TrailingZeros_rev, Hu by assumption.
  assert (Hrb : bytes (rev id)) by (apply Forall_rev; exact Hb).
  destruct (tz_from_spec (rev id) 0 Hrb ltac:(lia))
    as [H|(Hv & t & Hr & Ht & Hm & Ho)].
  - left. exact H.
  - right. rewrite length_rev, Hl in Ht. rewrite Hr.
    replace (8 * 0 + t) with t by lia.
    split; [assumption|]. split; [cbn in Ht; lia|]. split; assumption.
Qed.

(** [X21] [LeadingZeros] counts the zero bits above the highest set bit of
    the identifier read as a 128-bit big-endian integer [n]: it is 128 when
    [n] is 0, and otherwise it is the [z] below 128 with
    [2^(127-z) <= n < 2^(128-z)]. *)
Theorem LeadingZeros_spec (id : ULID) :
  wf_ULID id ->
  0 <= LeadingZeros id <= 128
  /\ (LeadingZeros id = 128 <-> uint128 id = 0)
  /\ (0 < uint128 id ->
      2 ^ (127 - LeadingZeros id) <= uint128 id < 2 ^ (128 - LeadingZeros id)).
Proof.
  intros Hwf.
  destruct (LeadingZeros_cases id Hwf) as [[Hv Hr]|(Hv & Hr & Hp)].
  - rewrite Hr, Hv. split; [lia|]. split; [tauto|lia].
  - split; [lia|]. split; [lia|]. intros _.
    replace (128 - LeadingZeros id) with (Z.succ (127 - LeadingZeros id)) by lia.
    rewrite Z.pow_succ_r by lia. exact Hp.
Qed.

Lemma LeadingZeros_spec_witness :
  let id := [0; 0; 1; 58; 181; 211; 214; 118; 76; 97; 239; 185; 147; 2; 189; 91] in
  0 <= LeadingZeros id <= 128
  /\ (LeadingZeros id = 128 <-> uint128 id = 0)
  /\ (0 < uint128 id ->
      2 ^ (127 - LeadingZeros id) <= uint128 id < 2 ^ (128 - LeadingZeros id)).
Proof.
  intros id. apply (LeadingZeros_spec id).
  split; [reflexivity|apply bytes_check; reflexivity].
Defined.

(** [X22] [TrailingZeros] counts the zero bits below the lowest set bit of
    the identifier read as a 128-bit big-endian integer [n]: it is 128 when
    [n] is 0, and otherwise it is the [z] below 128 such that [2^z] divides
    [n] and the quotient is odd. *)
Theorem TrailingZeros_spec (id : ULID) :
  wf_ULID id ->
  0 <= TrailingZeros id <= 128
  /\ (TrailingZeros id = 128 <-> uint128 id = 0)
  /\ (0 < uint128 id ->
      uint128 id mod 2 ^ TrailingZeros id = 0
      /\ Z.odd (uint128 id / 2 ^ TrailingZeros id) = true).
Proof.
  intros Hwf.
  destruct (TrailingZeros_cases id Hwf) as [[Hv Hr]|(Hv & Hr & Hm & Ho)].
  - rewrite Hr, Hv. split; [lia|]. split; [tauto|lia].
  - split; [lia|]. split; [lia|]. intros _. split; assumption.
Qed.

Lemma TrailingZeros_spec_witness :
  let id := [1; 86; 62; 58; 181; 211; 214; 118; 76; 97; 239; 185; 147; 2; 48; 0] in
  0 <= TrailingZeros id <= 128
  /\ (TrailingZeros id = 128 <-> uint128 id = 0)
  /\ (0 < uint128 id ->
      uint128 id mod 2 ^ TrailingZeros id = 0
      /\ Z.odd (uint128 id / 2 ^ TrailingZeros id) = true).
Proof.
  intros id. apply (TrailingZeros_spec id).
  split; [reflexivity|apply bytes_check; reflexivity].
Defined.

(** [X23] The zero identifier is recognised in every way the package offers:
    for an identifier, [IsZero], [IsNil], equality with [Nil] (which [Zero]
    returns), being 0 as a 128-bit integer, having timestamp 0 and all-zero
    entropy, [LeadingZeros] returning 128 and [TrailingZeros] returning 128
    all say the same. *)
Theorem zero_tests_agree (id : ULID) :
  wf_ULID id ->
  IsNil id = IsZero id
  /\ Zero = Nil
  /\ (IsZero id = true <-> id = Nil)
  /\ (IsZero id = true <-> Equal id Zero = true)
  /\ (IsZero id = true <-> uint128 id = 0)
  /\ (IsZero id = true <-> Time id = 0 /\ Entropy id = repeat 0 10)
  /\ (IsZero id = true <-> LeadingZeros id = 128)
  /\ (IsZero id = true <-> TrailingZeros id = 128).
Proof.
  intros Hwf.
  assert (Hz : IsZero id = true <-> id = Nil) by apply bytes_eqb_eq.
  pose proof (zero_value id Hwf) as Hv.
  split; [reflexivity|]. split; [reflexivity|]. split; [exact Hz|].
  split; [reflexivity|]. split; [tauto|].
  split; [|split].
  - rewrite Hz. split.
    + intros ->. split; reflexivity.
    + intros [Ht He].
      destruct (wf_split id Hwf) as (_ & _ & _ & _ & Hid).
      destruct (Time_firstn id Hwf) as [_ Htb].
      rewrite Entropy_skipn in He by assumption.
      rewrite Hid, <- Htb, Ht, He. reflexivity.
  - destruct (LeadingZeros_cases id Hwf) as [[Hu Hr]|(Hu & Hr & _)].
    + rewrite Hr. tauto.
    + split; [intros Hi; apply Hz, Hv in Hi; lia|lia].
  - destruct (TrailingZeros_cases id Hwf) as [[Hu Hr]|(Hu & Hr & _)].
    + rewrite Hr. tauto.
    + split; [intros Hi; apply Hz, Hv in Hi; lia|lia].
Qed.

Lemma zero_tests_agree_witness :
  IsNil Nil = IsZero Nil
  /\ Zero = Nil
  /\ (IsZero Nil = true <-> Nil = Nil)
  /\ (IsZero Nil = true <-> Equal Nil Zero = true)
  /\ (IsZero Nil = true <-> uint128 Nil = 0)
  /\ (IsZero Nil = true <-> Time Nil = 0 /\ Entropy Nil = repeat 0 10)
  /\ (IsZero Nil = true <-> LeadingZeros Nil = 128)
  /\ (IsZero Nil = true <-> TrailingZeros Nil = 128).
Proof.
  apply (zero_tests_agree Nil).
  split; [reflexivity|apply bytes_check; reflexivity].
Defined.

(** ** Milliseconds and times *)

Lemma int64_small (x : Z) : - 2 ^ 63 <= x < 2 ^ 63 -> int64 x = x.
Proof.
  intros Hx. unfold int64.
  rewrite Z.mod_small by lia. lia.
Qed.

Lemma UnixMilli_value (sec ns : Z) :
  - 2 ^ 63 <= sec * 1000 -> sec * 1000 + ns / 10 ^ 6 < 2 ^ 63 ->
  0 <= ns < 10 ^ 9 ->
  UnixMilli (mkTime sec ns) = sec * 1000 + ns / 10 ^ 6.
Proof.
  intros Hlo Hhi Hns. unfold UnixMilli. cbn [unixSec nsec].
  rewrite Z.quot_div_nonneg by lia.
  change (10 ^ 3) with 1000.
  assert (0 <= ns / 10 ^ 6 <= 999).
  { change (10 ^ 6) with 1000000. change (10 ^ 9) with 1000000000 in Hns.
    Z.div_mod_to_equations. lia. }
  rewrite (int64_small (sec * 1000)) by lia.
  apply int64_small. lia.
Qed.

Lemma Time_of_ms_value (ms : Z) :
  0 <= ms < 2 ^ 64 ->
  Time_of_ms ms = mkTime (ms / 1000) (ms mod 1000 * 10 ^ 6)
  /\ 0 <= ms mod 1000 * 10 ^ 6 < 10 ^ 9.
Proof.
  intros Hms. unfold Time_of_ms. change (10 ^ 3) with 1000.
  assert (Hr : 0 <= ms mod 1000 * 10 ^ 6 < 10 ^ 9).
  { change (10 ^ 6) with 1000000. change (10 ^ 9) with 1000000000.
    Z.div_mod_to_equations. lia. }
  split; [|exact Hr].
  unfold u64. rewrite (Z.mod_small (ms mod 1000 * 10 ^ 6)) by lia.
  rewrite (int64_small (ms / 1000)) by (Z.div_mod_to_equations; lia).
  rewrite (int64_small (ms mod 1000 * 10 ^ 6)) by lia.
  unfold time_Unix.
  assert ((ms mod 1000 * 10 ^ 6 <? 0) = false) as -> by (apply Z.ltb_ge; lia).
  assert ((ms mod 1000 * 10 ^ 6 >=? 10 ^ 9) = false) as ->
      by (rewrite Z.geb_leb; apply Z.leb_gt; lia).
  reflexivity.
Qed.

(** [X24] Milliseconds and times convert back and forth.  The package-level
    [Time] turns [ms] into the time with [ms / 1000] seconds and
    [(ms mod 1000) * 10^6] nanoseconds, and [Timestamp] of that time is [ms]
    again, for every [ms] below [2^63]; [Timestamp] of a time at or after
    the epoch is its seconds times 1000 plus its whole milliseconds, so
    [Time] after [Timestamp] drops what is below the millisecond; and
    [Timestamp] of a time before the epoch wraps to a value above
    [MaxTime], which [New] refuses with [ErrBigTime]. *)
Theorem Time_Timestamp_roundtrip :
  (forall ms : Z,
      0 <= ms < 2 ^ 63 ->
      Time_of_ms ms = mkTime (ms / 1000) (ms mod 1000 * 10 ^ 6)
      /\ Timestamp (Time_of_ms ms) = ms)
  /\ (forall sec ns : Z,
         0 <= sec -> sec * 1000 + 999 < 2 ^ 63 -> 0 <= ns < 10 ^ 9 ->
         Timestamp (mkTime sec ns) = sec * 1000 + ns / 10 ^ 6
         /\ Time_of_ms (Timestamp (mkTime sec ns))
            = mkTime sec (ns / 10 ^ 6 * 10 ^ 6))
  /\ (forall (sec ns : Z) (R : Type) (rd : Reader R) (fuel : nat) (r : R),
         sec < 0 -> - 2 ^ 63 <= sec * 1000 -> 0 <= ns < 10 ^ 9 ->
         MaxTime < Timestamp (mkTime sec ns)
         /\ New fuel (Timestamp (mkTime sec ns)) r = Some (r, Nil, Some ErrBigTime)).
Proof.
  split; [|split].
  - intros ms Hms.
    destruct (Time_of_ms_value ms ltac:(lia)) as [Ht Hr].
    split; [exact Ht|]. rewrite Ht. unfold Timestamp.
    assert (Hq : ms mod 1000 * 10 ^ 6 / 10 ^ 6 = ms mod 1000)
      by (apply Z.div_mul; change (10 ^ 6) with 1000000; lia).
    rewrite UnixMilli_value;
      [|Z.div_mod_to_equations; lia
       |rewrite Hq; Z.div_mod_to_equations; lia
       |exact Hr].
    rewrite Hq.
    unfold u64. rewrite Z.mod_small by (Z.div_mod_to_equations; lia).
    Z.div_mod_to_equations. lia.
  - intros sec ns Hsec Hhi Hns.
    assert (Hq : 0 <= ns / 10 ^ 6 <= 999).
    { change (10 ^ 6) with 1000000. change (10 ^ 9) with 1000000000 in Hns.
      Z.div_mod_to_equations. lia. }
    assert (Hts : Timestamp (mkTime sec ns) = sec * 1000 + ns / 10 ^ 6).
    { unfold Timestamp. rewrite UnixMilli_value by lia.
      unfold u64. apply Z.mod_small. lia. }
    split; [exact Hts|]. rewrite Hts.
    destruct (Time_of_ms_value (sec * 1000 + ns / 10 ^ 6) ltac:(lia)) as [-> _].
    f_equal.
    + Z.div_mod_to_equations. lia.
    + f_equal. Z.div_mod_to_equations. lia.
  - intros sec ns R rd fuel r Hneg Hlo Hns.
    assert (Hq : 0 <= ns / 10 ^ 6 <= 999).
    { change (10 ^ 6) with 1000000. change (10 ^ 9) with 1000000000 in Hns.
      Z.div_mod_to_equations. lia. }
    assert (Hts : MaxTime < Timestamp (mkTime sec ns)).
    { unfold Timestamp. rewrite UnixMilli_value by lia.
      rewrite MaxTime_value. unfold u64.
      assert (Hw : (sec * 1000 + ns / 10 ^ 6) mod 2 ^ 64
                   = sec * 1000 + ns / 10 ^ 6 + 2 ^ 64).
      { symmetry. apply Z.mod_unique with (q := -1); lia. }
      rewrite Hw. lia. }
    split; [exact Hts|]. unfold New.
    assert ((Timestamp (mkTime sec ns) >? MaxTime) = true) as ->
        by (rewrite Z.gtb_ltb; apply Z.ltb_lt; lia).
    reflexivity.
Qed.

Lemma Time_Timestamp_roundtrip_witness :
  (Time_of_ms 1469918176385 = mkTime (1469918176385 / 1000)
                                 (1469918176385 mod 1000 * 10 ^ 6)
   /\ Timestamp (Time_of_ms 1469918176385) = 1469918176385)
  /\ (Timestamp (mkTime 1704067200 123456789)
      = 1704067200 * 1000 + 123456789 / 10 ^ 6
      /\ Time_of_ms (Timestamp (mkTime 1704067200 123456789))
         = mkTime 1704067200 (123456789 / 10 ^ 6 * 10 ^ 6))
  /\ (MaxTime < Timestamp (mkTime (-1) 0)
      /\ New 1 (Timestamp (mkTime (-1) 0)) ([] : sliceReader)
         = Some ([] : sliceReader, Nil, Some ErrBigTime)).
Proof.
  destruct Time_Timestamp_roundtrip as (Hms & Hpos & Hneg).
  split; [apply Hms; lia|]. split; [apply Hpos; lia|apply Hneg; lia].
Defined.
